(** * Futbol: player and pickup-match statistics tracker

    A shallow embedding of the TypeScript sources

    - [types.ts]          the entity shapes,
    - [services/db.ts]    the persistence gateway ([dbService]),
    - [geminiService.ts]  the narrative generator ([generateMatchReport]),
    - [App.tsx]           the match lifecycle handlers and the statistics
                          aggregator, in its "matches" variant and in its
                          later "players-only" variant,

    followed by the properties of the specification that are stated over
    them.

    Conventions of the embedding.
    - A JavaScript number that the program only ever uses as a counter, a
      score or a millisecond instant is a [Z].
    - An optional field [f?: T] is an [option T]; [None] stands for an
      absent (or [undefined]) property.
    - [Match.date] holds the instant that the ISO-8601 text denotes: the
      only writer of the field is [new Date().toISOString()], and the only
      reader is [new Date(date).getTime()], which gives that instant back.
    - A value kept in [localStorage] is represented by the value that
      [JSON.parse] yields for it: [JSON.stringify] followed by
      [JSON.parse] is the identity on the records below.
    - Identifiers are arbitrary strings.  Property names that a plain
      JavaScript object inherits from [Object.prototype] are not given
      their special treatment. *)

From stdpp Require Import base numbers list strings sorting pretty.

Local Open Scope Z_scope.

(** ** types.ts *)

Inductive Position := GK | DEF | MID | FWD.

Inductive EventType := GOAL | ASSIST | YELLOW_CARD | RED_CARD | SAVE | SUBSTITUTION.

Inductive Side := home | away.

Global Instance Position_eq_dec : EqDecision Position.
Proof. solve_decision. Defined.
Global Instance EventType_eq_dec : EqDecision EventType.
Proof. solve_decision. Defined.
Global Instance Side_eq_dec : EqDecision Side.
Proof. solve_decision. Defined.

Module Player.
Record t := mk {
  id : string;
  name : string;
  nickname : option string;
  photoUrl : option string;
  position : Position;
  initialGoals : option Z;
  initialAssists : option Z;
  initialMatches : option Z;
  initialSaves : option Z;
  initialClearances : option Z
}.
Global Instance eq_dec : EqDecision t.
Proof. solve_decision. Defined.
End Player.

Module MatchEvent.
Record t := mk {
  id : string;
  matchId : string;
  side : Side;
  playerId : string;
  assistPlayerId : option string;
  type : EventType;
  minute : Z;
  timestamp : Z
}.
Global Instance eq_dec : EqDecision t.
Proof. solve_decision. Defined.
End MatchEvent.

Module Match.
Record t := mk {
  id : string;
  homeTeamName : string;
  awayTeamName : string;
  homePlayerIds : list string;
  awayPlayerIds : list string;
  homeScore : Z;
  awayScore : Z;
  date : Z;
  isFinished : bool;
  events : list MatchEvent.t;
  aiAnalysis : option string
}.
Global Instance eq_dec : EqDecision t.
Proof. solve_decision. Defined.
End Match.

(** JavaScript truthiness of a string and of an optional string. *)
Definition truthy (s : string) : bool := bool_decide (s ≠ "").

Definition truthy_opt (o : option string) : bool :=
  match o with Some s => truthy s | None => false end.

(** ** Array.prototype.sort

    For a consistent comparator the language fixes the result: the stable
    arrangement by the comparator.  It is computed here by insertion from
    the right, which keeps an element in front of the later elements it
    compares equal to. *)

Section array_sort.
Context {A : Type} (cmp : A → A → Z).

Fixpoint sort_insert (x : A) (l : list A) : list A :=
  match l with
  | [] => [x]
  | y :: l' =>
      if bool_decide (cmp x y ≤ 0) then x :: y :: l' else y :: sort_insert x l'
  end.

Definition sort (l : list A) : list A := foldr sort_insert [] l.

(** [x] may stand before [y]: the comparator does not ask for a swap. *)
Definition sort_le (x y : A) : Prop := cmp x y ≤ 0.
End array_sort.

(** ** services/db.ts, the localStorage branch ([isSupabaseConfigured] false) *)

Record LocalStorage := mkLS {
  poli_players_data : option (list Player.t);
  poli_matches_data : option (list Match.t)
}.

Global Instance LocalStorage_eq_dec : EqDecision LocalStorage.
Proof. solve_decision. Defined.

Definition setPlayers (v : list Player.t) (ls : LocalStorage) : LocalStorage :=
  {| poli_players_data := Some v; poli_matches_data := poli_matches_data ls |}.

Definition setMatches (v : list Match.t) (ls : LocalStorage) : LocalStorage :=
  {| poli_players_data := poli_players_data ls; poli_matches_data := Some v |}.

(** The comparator of [getAllMatches]:
    [new Date(b.date).getTime() - new Date(a.date).getTime()]. *)
Definition byDateDesc (a b : Match.t) : Z := Match.date b - Match.date a.

Module dbService.

Definition getAllPlayers (ls : LocalStorage) : list Player.t :=
  default [] (poli_players_data ls).

Definition addPlayer (player : Player.t) (ls : LocalStorage) : LocalStorage :=
  let players := getAllPlayers ls in
  setPlayers (players ++ [player]) ls.

Definition updatePlayer (player : Player.t) (ls : LocalStorage) : LocalStorage :=
  let players := getAllPlayers ls in
  match list_find (λ p, Player.id p = Player.id player) players with
  | Some (index, _) => setPlayers (<[index := player]> players) ls
  | None => ls
  end.

Definition deletePlayer (id : string) (ls : LocalStorage) : LocalStorage :=
  let players := getAllPlayers ls in
  setPlayers (filter (λ p, Player.id p ≠ id) players) ls.

Definition getAllMatches (ls : LocalStorage) : list Match.t :=
  sort byDateDesc (default [] (poli_matches_data ls)).

Definition addMatch (match_ : Match.t) (ls : LocalStorage) : LocalStorage :=
  let matches := getAllMatches ls in
  setMatches (matches ++ [match_]) ls.

Definition updateMatch (match_ : Match.t) (ls : LocalStorage) : LocalStorage :=
  let matches := getAllMatches ls in
  match list_find (λ m, Match.id m = Match.id match_) matches with
  | Some (index, _) => setMatches (<[index := match_]> matches) ls
  | None => ls
  end.

Definition deleteMatch (id : string) (ls : LocalStorage) : LocalStorage :=
  let matches := getAllMatches ls in
  setMatches (filter (λ m, Match.id m ≠ id) matches) ls.

End dbService.

(** ** services/db.ts, the remote branches

    The hosted store is opaque: a query answers with its rows or with an
    error.  Only what [getAllMatches] does with the answer is embedded. *)

Inductive Answer (A : Type) :=
  | Rows (data : list A)
  | Failed.
Arguments Rows {A} data.
Arguments Failed {A}.

(** [getAllMatches] when [isSupabaseConfigured] holds. *)
Definition getAllMatches_remote (answer : Answer Match.t) : list Match.t :=
  match answer with
  | Failed => []
  | Rows data => sort byDateDesc data
  end.

(** [getAllMatches] of the variant without a local fallback: [connected]
    tells whether the client handle [supabase] is non-null. *)
Definition getAllMatches_degraded (connected : bool) (answer : Answer Match.t)
    : list Match.t :=
  if connected then getAllMatches_remote answer else [].

(** ** geminiService.ts *)

Module geminiService.

(** What [ai.models.generateContent] does with a prompt: the promise
    resolves to a response whose [text] may be missing, or rejects. *)
Inductive Outcome :=
  | Resolves (text : option string)
  | Rejects.

Definition Client : Type := string → Outcome.

(** Computations that may call the service and may throw.  The state is
    the list of prompts sent so far. *)
Inductive Completion (A : Type) :=
  | Return (v : A)
  | Throw.
Arguments Return {A} v.
Arguments Throw {A}.

Definition Eff (A : Type) : Type := list string → list string * Completion A.

Global Instance Eff_ret : MRet Eff := λ A v sent, (sent, Return v).

Global Instance Eff_bind : MBind Eff := λ A B k m sent,
  match m sent with
  | (sent', Return v) => k v sent'
  | (sent', Throw) => (sent', Throw)
  end.

Definition try_catch {A} (body handler : Eff A) : Eff A :=
  λ sent,
    match body sent with
    | (sent', Throw) => handler sent'
    | finished => finished
    end.

Definition generateContent (ai : Client) (contents : string) : Eff (option string) :=
  λ sent,
    (sent ++ [contents],
     match ai contents with
     | Resolves text => Return text
     | Rejects => Throw
     end).

Definition run {A} (m : Eff A) : list string * Completion A := m [].

Definition nl : string := String (Ascii.ascii_of_nat 10) "".

(** The string value of an [EventType] member. *)
Definition typeText (t : EventType) : string :=
  match t with
  | GOAL => "Gol"
  | ASSIST => "Asistencia"
  | YELLOW_CARD => "Tarjeta Amarilla"
  | RED_CARD => "Tarjeta Roja"
  | SAVE => "Atajada"
  | SUBSTITUTION => "Sustitución"
  end.

Definition getName (allPlayers : list Player.t) (id : string) : string :=
  match list_find (λ p, Player.id p = id) allPlayers with
  | Some (_, p) => if truthy (Player.name p) then Player.name p else "Jugador Desconocido"
  | None => "Jugador Desconocido"
  end.

Definition eventLine (match_ : Match.t) (allPlayers : list Player.t)
    (e : MatchEvent.t) : string :=
  let playerName := getName allPlayers (MatchEvent.playerId e) in
  let teamName :=
    if decide (MatchEvent.side e = home)
    then Match.homeTeamName match_ else Match.awayTeamName match_ in
  let detail :=
    if bool_decide (MatchEvent.type e = GOAL) && truthy_opt (MatchEvent.assistPlayerId e)
    then typeText (MatchEvent.type e) +:+ " (Asistencia: "
         +:+ getName allPlayers (default "" (MatchEvent.assistPlayerId e)) +:+ ")"
    else typeText (MatchEvent.type e) in
  "- Min " +:+ pretty (MatchEvent.minute e) +:+ ": " +:+ detail
    +:+ " por " +:+ playerName +:+ " para " +:+ teamName.

Definition buildPrompt (match_ : Match.t) (allPlayers : list Player.t) : string :=
  let eventsList :=
    String.concat nl (map (eventLine match_ allPlayers) (Match.events match_)) in
  let scorers :=
    String.concat ", "
      (map (λ e, getName allPlayers (MatchEvent.playerId e))
           (filter (λ e, MatchEvent.type e = GOAL) (Match.events match_))) in
  nl +:+
  "    Actúa como un narrador de fútbol de barrio apasionado pero analítico. Escribe la crónica de este partido amistoso/amateur." +:+ nl +:+
  "    " +:+ nl +:+
  "    EQUIPOS: " +:+ Match.homeTeamName match_ +:+ " vs " +:+ Match.awayTeamName match_ +:+ nl +:+
  "    MARCADOR FINAL: " +:+ pretty (Match.homeScore match_) +:+ " - " +:+ pretty (Match.awayScore match_) +:+ nl +:+
  "    " +:+ nl +:+
  "    JUGADORES DESTACADOS (Goleadores):" +:+ nl +:+
  "    " +:+ scorers +:+ nl +:+
  "    " +:+ nl +:+
  "    CRONOLOGÍA:" +:+ nl +:+
  "    " +:+ eventsList +:+ nl +:+
  "    " +:+ nl +:+
  "    ESTRUCTURA:" +:+ nl +:+
  "    1. **Titular**: Divertido o Épico." +:+ nl +:+
  "    2. **Resumen**: Cómo se sintió el partido." +:+ nl +:+
  "    3. **El MVP**: Quién se lució más (básate en goles/asistencias)." +:+ nl +:+
  "    4. **El Dato**: Alguna estadística curiosa o táctica simple." +:+ nl +:+
  nl +:+
  "    Formato Markdown. Tono cercano, futbolero español." +:+ nl +:+
  "  ".

Definition unconfigured : string :=
  "API Key no configurada. No se puede generar el reporte.".
Definition noAnalysis : string := "No se pudo generar el análisis.".
Definition connectionError : string :=
  "Error al conectar con la IA para generar el reporte.".

(** [ai] is the module-level client handle, [None] when [API_KEY] is
    empty. *)
Definition generateMatchReport (ai : option Client) (match_ : Match.t)
    (allPlayers : list Player.t) : Eff string :=
  match ai with
  | None => mret unconfigured
  | Some client =>
      let prompt := buildPrompt match_ allPlayers in
      try_catch
        (text ← generateContent client prompt;
         mret (if truthy_opt text then default "" text else noAnalysis))
        (mret connectionError)
  end.

End geminiService.

(** ** Math.random and the minute of an event

    [Math.random()] yields a binary64 number in the interval from 0
    (included) to 1 (excluded).  Every such number is
    [significand * 2 ^ (- scale)] for some [0 ≤ significand < 2 ^ 53] and
    [53 ≤ scale ≤ 1074], and every such pair denotes one. *)

Record Draw := mkDraw { significand : Z; scale : Z }.

Definition validDraw (r : Draw) : Prop :=
  0 ≤ significand r < 2 ^ 53 ∧ 53 ≤ scale r ≤ 1074.

(** The integer with at most 53 significant bits nearest to [n], ties to
    the even one: the rounding of a binary64 multiplication, on the
    significand. *)
Definition round53 (n : Z) : Z :=
  if bool_decide (n < 2 ^ 53) then n
  else
    let s := Z.log2 n - 52 in
    let q := n ≫ s in
    let r := n `mod` 2 ^ s in
    let half := 2 ^ (s - 1) in
    (if bool_decide (r < half) then q
     else if bool_decide (half < r) then q + 1
     else if Z.even q then q else q + 1) ≪ s.

(** [Math.floor(Math.random() * 90) + 1] for the draw [r]. *)
Definition minuteOf (r : Draw) : Z :=
  round53 (significand r * 90) `div` 2 ^ scale r + 1.

(** ** App.tsx, the matches variant: state and handlers *)

Module App.

Inductive Tab := TabDashboard | TabPlayers | TabMatches | TabDraft | TabLive.

Global Instance Tab_eq_dec : EqDecision Tab.
Proof. solve_decision. Defined.

(** The component state ([useState]) together with the browser's
    [localStorage], which the handlers write through [dbService]. *)
Record State := mkState {
  storage : LocalStorage;
  activeTab : Tab;
  players : list Player.t;
  matches : list Match.t;
  isLoading : bool;
  draftHomeName : string;
  draftAwayName : string;
  draftHomeIds : list string;
  draftAwayIds : list string;
  activeMatchId : option string;
  generatingReport : bool
}.

(** The state of a freshly mounted component over a given storage. *)
Definition initial (ls : LocalStorage) : State :=
  mkState ls TabDashboard [] [] true "Equipo A" "Equipo B" [] [] None false.

(** The effect that runs once after mounting. *)
Definition loadData (st : State) : State :=
  let loadedPlayers := dbService.getAllPlayers (storage st) in
  let loadedMatches := dbService.getAllMatches (storage st) in
  let unfinished := list_find (λ m, Match.isFinished m = false) loadedMatches in
  mkState (storage st) (activeTab st) loadedPlayers loadedMatches false
    (draftHomeName st) (draftAwayName st) (draftHomeIds st) (draftAwayIds st)
    (match unfinished with
     | Some (_, m) => Some (Match.id m)
     | None => activeMatchId st
     end)
    (generatingReport st).

Definition mount (ls : LocalStorage) : State := loadData (initial ls).

Definition setActiveTab (tab : Tab) (st : State) : State :=
  mkState (storage st) tab (players st) (matches st) (isLoading st)
    (draftHomeName st) (draftAwayName st) (draftHomeIds st) (draftAwayIds st)
    (activeMatchId st) (generatingReport st).

Definition setDraftNames (homeName awayName : string) (st : State) : State :=
  mkState (storage st) (activeTab st) (players st) (matches st) (isLoading st)
    homeName awayName (draftHomeIds st) (draftAwayIds st)
    (activeMatchId st) (generatingReport st).

Definition setDraftIds (homeIds awayIds : list string) (st : State) : State :=
  mkState (storage st) (activeTab st) (players st) (matches st) (isLoading st)
    (draftHomeName st) (draftAwayName st) homeIds awayIds
    (activeMatchId st) (generatingReport st).

Definition toggleDraftSelection (playerId : string) (side : Side) (st : State) : State :=
  let cleanHome := filter (λ id, id ≠ playerId) (draftHomeIds st) in
  let cleanAway := filter (λ id, id ≠ playerId) (draftAwayIds st) in
  match side with
  | home =>
      if bool_decide (playerId ∈ draftHomeIds st)
      then setDraftIds cleanHome (draftAwayIds st) st
      else setDraftIds (cleanHome ++ [playerId]) cleanAway st
  | away =>
      if bool_decide (playerId ∈ draftAwayIds st)
      then setDraftIds (draftHomeIds st) cleanAway st
      else setDraftIds cleanHome (cleanAway ++ [playerId]) st
  end.

(** [now] is the reading of [Date.now()] and [today] the instant of
    [new Date()]. *)
Definition newMatch (now today : Z) (st : State) : Match.t :=
  {| Match.id := pretty now;
     Match.homeTeamName :=
       if truthy (draftHomeName st) then draftHomeName st else "Equipo A";
     Match.awayTeamName :=
       if truthy (draftAwayName st) then draftAwayName st else "Equipo B";
     Match.homePlayerIds := draftHomeIds st;
     Match.awayPlayerIds := draftAwayIds st;
     Match.homeScore := 0;
     Match.awayScore := 0;
     Match.date := today;
     Match.isFinished := false;
     Match.events := [];
     Match.aiAnalysis := None |}.

Definition startMatch (now today : Z) (st : State) : State :=
  if bool_decide (length (draftHomeIds st) = 0%nat)
     || bool_decide (length (draftAwayIds st) = 0%nat)
  then st
  else
    let newMatch := newMatch now today st in
    mkState (dbService.addMatch newMatch (storage st)) TabLive (players st)
      (newMatch :: matches st) (isLoading st)
      (draftHomeName st) (draftAwayName st) (draftHomeIds st) (draftAwayIds st)
      (Some (Match.id newMatch)) (generatingReport st).

Definition activeMatch (st : State) : option Match.t :=
  match activeMatchId st with
  | Some id => snd <$> list_find (λ m, Match.id m = id) (matches st)
  | None => None
  end.

(** [matches.map(m => m.id === activeMatch.id ? replacement : m)] *)
Definition replaceById (id : string) (replacement : Match.t)
    (matches : list Match.t) : list Match.t :=
  map (λ m, if decide (Match.id m = id) then replacement else m) matches.

Definition newEvent (activeMatch : Match.t) (type : EventType) (side : Side)
    (playerId : string) (random : Draw) (now now' : Z) : MatchEvent.t :=
  {| MatchEvent.id := pretty now;
     MatchEvent.matchId := Match.id activeMatch;
     MatchEvent.side := side;
     MatchEvent.playerId := playerId;
     MatchEvent.assistPlayerId := None;
     MatchEvent.type := type;
     MatchEvent.minute := minuteOf random;
     MatchEvent.timestamp := now' |}.

Definition updatedMatch (activeMatch : Match.t) (type : EventType) (side : Side)
    (newEvent : MatchEvent.t) : Match.t :=
  let updatedHomeScore :=
    if bool_decide (type = GOAL) && bool_decide (side = home)
    then Match.homeScore activeMatch + 1 else Match.homeScore activeMatch in
  let updatedAwayScore :=
    if bool_decide (type = GOAL) && negb (bool_decide (side = home))
    then Match.awayScore activeMatch + 1 else Match.awayScore activeMatch in
  {| Match.id := Match.id activeMatch;
     Match.homeTeamName := Match.homeTeamName activeMatch;
     Match.awayTeamName := Match.awayTeamName activeMatch;
     Match.homePlayerIds := Match.homePlayerIds activeMatch;
     Match.awayPlayerIds := Match.awayPlayerIds activeMatch;
     Match.homeScore := updatedHomeScore;
     Match.awayScore := updatedAwayScore;
     Match.date := Match.date activeMatch;
     Match.isFinished := Match.isFinished activeMatch;
     Match.events := newEvent :: Match.events activeMatch;
     Match.aiAnalysis := Match.aiAnalysis activeMatch |}.

(** [random] is the draw of [Math.random()], [now] and [now'] the two
    readings of [Date.now()]. *)
Definition addEvent (type : EventType) (side : Side) (playerId : string)
    (random : Draw) (now now' : Z) (st : State) : State :=
  match activeMatch st with
  | None => st
  | Some activeMatch =>
      let newEvent := newEvent activeMatch type side playerId random now now' in
      let updatedMatch := updatedMatch activeMatch type side newEvent in
      mkState (dbService.updateMatch updatedMatch (storage st)) (activeTab st)
        (players st)
        (replaceById (Match.id activeMatch) updatedMatch (matches st))
        (isLoading st)
        (draftHomeName st) (draftAwayName st) (draftHomeIds st) (draftAwayIds st)
        (activeMatchId st) (generatingReport st)
  end.

Definition finishedMatch (activeMatch : Match.t) (report : string) : Match.t :=
  {| Match.id := Match.id activeMatch;
     Match.homeTeamName := Match.homeTeamName activeMatch;
     Match.awayTeamName := Match.awayTeamName activeMatch;
     Match.homePlayerIds := Match.homePlayerIds activeMatch;
     Match.awayPlayerIds := Match.awayPlayerIds activeMatch;
     Match.homeScore := Match.homeScore activeMatch;
     Match.awayScore := Match.awayScore activeMatch;
     Match.date := Match.date activeMatch;
     Match.isFinished := true;
     Match.events := Match.events activeMatch;
     Match.aiAnalysis := Some report |}.

(** [finishMatch] awaits the narrative, so it runs in two parts.  What
    the part after the [await] still needs is the closure it captured:
    the active match, the match list and the player list of the
    render in which the button was pressed. *)
Record Suspended := mkSuspended {
  k_activeMatch : Match.t;
  k_matches : list Match.t;
  k_players : list Player.t
}.

Definition setGeneratingReport (b : bool) (st : State) : State :=
  mkState (storage st) (activeTab st) (players st) (matches st) (isLoading st)
    (draftHomeName st) (draftAwayName st) (draftHomeIds st) (draftAwayIds st)
    (activeMatchId st) b.

(** Up to [await generateMatchReport(activeMatch, players)]. *)
Definition finishMatch_begin (st : State) : State * option Suspended :=
  match activeMatch st with
  | None => (st, None)
  | Some activeMatch =>
      (setGeneratingReport true st,
       Some (mkSuspended activeMatch (matches st) (players st)))
  end.

(** From the [await] on, once the narrative call has completed. *)
Definition finishMatch_resume (ai : option geminiService.Client) (k : Suspended)
    (st : State) : State :=
  match (geminiService.run
           (geminiService.generateMatchReport ai (k_activeMatch k) (k_players k))).2 with
  | geminiService.Throw => st
  | geminiService.Return report =>
      let finishedMatch := finishedMatch (k_activeMatch k) report in
      mkState (dbService.updateMatch finishedMatch (storage st)) TabMatches
        (players st)
        (replaceById (Match.id (k_activeMatch k)) finishedMatch (k_matches k))
        (isLoading st)
        (draftHomeName st) (draftAwayName st) [] []
        None false
  end.

(** The whole handler when nothing happens during the [await]. *)
Definition finishMatch (ai : option geminiService.Client) (st : State) : State :=
  match finishMatch_begin st with
  | (st', Some k) => finishMatch_resume ai k st'
  | (st', None) => st'
  end.

End App.

(** ** The user's actions on the matches variant

    A configuration pairs the component state with the suspended part of
    a [finishMatch] that is waiting for its narrative, if any, and with
    the wall clock: the last instant that [Date.now()] has returned. *)

Module Lifecycle.
Import App.

Record World := mkWorld {
  app : State;
  pending : option Suspended;
  clock : Z
}.

(** The navigation controls that are rendered: the three fixed tabs
    always, the live tab only while [activeMatchId] is truthy, the
    draft tab (the "Nuevo" control and the "Armar Equipos" button)
    only while it is not. *)
Definition canNavigate (st : State) (tab : Tab) : bool :=
  match tab with
  | TabLive => truthy_opt (activeMatchId st)
  | TabDraft => negb (truthy_opt (activeMatchId st))
  | _ => true
  end.

Section steps.
(** The module-level client handle of geminiService.ts. *)
Context (ai : option geminiService.Client).

Inductive step : World → World → Prop :=
  (** The page is loaded again: the component is mounted afresh over
      the same storage, and a waiting [finishMatch] is gone. *)
  | step_reload w :
      step w (mkWorld (mount (storage (app w))) None (clock w))
  | step_tick w later :
      clock w ≤ later →
      step w (mkWorld (app w) (pending w) later)
  | step_navigate w tab :
      isLoading (app w) = false →
      canNavigate (app w) tab = true →
      step w (mkWorld (setActiveTab tab (app w)) (pending w) (clock w))
  | step_draft_names w homeName awayName :
      activeTab (app w) = TabDraft →
      step w (mkWorld (setDraftNames homeName awayName (app w)) (pending w) (clock w))
  | step_toggle w playerId side :
      activeTab (app w) = TabDraft →
      step w (mkWorld (toggleDraftSelection playerId side (app w)) (pending w) (clock w))
  (** "Iniciar Partido", rendered on the draft tab only. *)
  | step_start w now today :
      isLoading (app w) = false →
      activeTab (app w) = TabDraft →
      clock w < now →
      step w (mkWorld (startMatch now today (app w)) (pending w) now)
  | step_event w type side playerId random now now' :
      clock w ≤ now →
      step w (mkWorld (addEvent type side playerId random now now' (app w))
                (pending w) now)
  (** "Finalizar Partido", disabled while [generatingReport]. *)
  | step_finish w :
      generatingReport (app w) = false →
      step w (mkWorld (finishMatch_begin (app w)).1
                (finishMatch_begin (app w)).2 (clock w))
  | step_narrated w k :
      pending w = Some k →
      step w (mkWorld (finishMatch_resume ai k (app w)) None (clock w)).

(** A first visit: nothing stored yet. *)
Definition firstVisit (now : Z) : World :=
  mkWorld (mount (mkLS None None)) None now.

Inductive reachable : World → Prop :=
  | reachable_first now : 0 ≤ now → reachable (firstVisit now)
  | reachable_step w w' : reachable w → step w w' → reachable w'.
End steps.

(** The persisted match collection, as stored. *)
Definition persistedMatches (w : World) : list Match.t :=
  default [] (poli_matches_data (storage (app w))).

Definition unfinished (l : list Match.t) : list Match.t :=
  filter (λ m, Match.isFinished m = false) l.

End Lifecycle.

(** ** App.tsx, the matches variant: the statistics aggregator *)

(** A plain object used as a dictionary: its own properties with their
    values, in creation order. *)
Section dictionary.
Context {V : Type}.

Definition dict_get (k : string) (d : list (string * V)) : option V :=
  snd <$> (snd <$> list_find (λ kv, kv.1 = k) d).

(** [d[k] = v] *)
Definition dict_set (k : string) (v : V) (d : list (string * V)) : list (string * V) :=
  match list_find (λ kv, kv.1 = k) d with
  | Some (i, _) => <[i := (k, v)]> d
  | None => d ++ [(k, v)]
  end.

(** [if (d[k]) d[k] = f(d[k])], for values that are objects. *)
Definition dict_update (f : V → V) (k : string) (d : list (string * V))
    : list (string * V) :=
  map (λ kv, if decide (kv.1 = k) then (kv.1, f kv.2) else kv) d.

Fixpoint parseDigits (acc : N) (s : string) : option N :=
  match s with
  | "" => Some acc
  | String c s' =>
      let n := Ascii.N_of_ascii c in
      if bool_decide (48 ≤ n ≤ 57)%N
      then parseDigits (acc * 10 + (n - 48))%N s'
      else None
  end.

(** The array index that a property key denotes, if it is the canonical
    decimal text of an integer below [2 ^ 32 - 1]. *)
Definition arrayIndex (k : string) : option N :=
  match parseDigits 0%N k with
  | Some n =>
      if bool_decide (pretty n = k) && bool_decide (n < 2 ^ 32 - 1)%N
      then Some n else None
  | None => None
  end.

Definition byIndex (a b : string * V) : Z :=
  Z.of_N (default 0%N (arrayIndex a.1)) - Z.of_N (default 0%N (arrayIndex b.1)).

(** [Object.entries(d)]: the array-index keys in ascending numeric
    order, then the other keys in creation order. *)
Definition entries (d : list (string * V)) : list (string * V) :=
  sort byIndex (filter (λ kv, is_Some (arrayIndex kv.1)) d)
  ++ filter (λ kv, ¬ is_Some (arrayIndex kv.1)) d.
End dictionary.

Module Tally.
Record t := mk { goals : Z; assists : Z; matches : Z }.
Definition incGoals (x : t) : t := mk (goals x + 1) (assists x) (matches x).
Definition incAssists (x : t) : t := mk (goals x) (assists x + 1) (matches x).
Definition incMatches (x : t) : t := mk (goals x) (assists x) (matches x + 1).
End Tally.

Module Stat.
Record t := mk {
  goals : Z;
  assists : Z;
  matches : Z;
  id : string;
  player : option Player.t
}.
Global Instance eq_dec : EqDecision t.
Proof. solve_decision. Defined.
End Stat.

Module Aggregator.

(** [Number(x || 0)] on an optional counter. *)
Definition baseline (x : option Z) : Z := default 0 x.

Definition seed (s : list (string * Tally.t)) (p : Player.t) : list (string * Tally.t) :=
  dict_set (Player.id p)
    (Tally.mk (baseline (Player.initialGoals p))
              (baseline (Player.initialAssists p))
              (baseline (Player.initialMatches p))) s.

Definition countEvent (s : list (string * Tally.t)) (e : MatchEvent.t)
    : list (string * Tally.t) :=
  let s1 :=
    if bool_decide (MatchEvent.type e = GOAL)
    then dict_update Tally.incGoals (MatchEvent.playerId e) s else s in
  if bool_decide (MatchEvent.type e = GOAL) && truthy_opt (MatchEvent.assistPlayerId e)
  then dict_update Tally.incAssists (default "" (MatchEvent.assistPlayerId e)) s1
  else s1.

Definition countMatch (s : list (string * Tally.t)) (match_ : Match.t)
    : list (string * Tally.t) :=
  let s1 :=
    foldl (λ s pid, dict_update Tally.incMatches pid s) s
      (Match.homePlayerIds match_ ++ Match.awayPlayerIds match_) in
  foldl countEvent s1 (Match.events match_).

Definition tallies (players : list Player.t) (matches : list Match.t)
    : list (string * Tally.t) :=
  foldl countMatch (foldl seed [] players)
    (filter (λ m, Match.isFinished m = true) matches).

Definition toStat (players : list Player.t) (entry : string * Tally.t) : Stat.t :=
  {| Stat.goals := Tally.goals entry.2;
     Stat.assists := Tally.assists entry.2;
     Stat.matches := Tally.matches entry.2;
     Stat.id := entry.1;
     Stat.player := snd <$> list_find (λ p, Player.id p = entry.1) players |}.

Definition byGoalsDesc (a b : Stat.t) : Z := Stat.goals b - Stat.goals a.

Definition stats (players : list Player.t) (matches : list Match.t) : list Stat.t :=
  sort byGoalsDesc (map (toStat players) (entries (tallies players matches))).

End Aggregator.

(** ** App.tsx, the players-only variant: the statistics aggregator *)

Module Row.
Record t := mk {
  id : string;
  player : Player.t;
  goals : Z;
  assists : Z;
  saves : Z;
  clearances : Z;
  matches : Z;
  ga : Z
}.
Global Instance eq_dec : EqDecision t.
Proof. solve_decision. Defined.
End Row.

Module PlayersOnly.

Definition toRow (p : Player.t) : Row.t :=
  let goals := default 0 (Player.initialGoals p) in
  let assists := default 0 (Player.initialAssists p) in
  let saves := default 0 (Player.initialSaves p) in
  let clearances := default 0 (Player.initialClearances p) in
  {| Row.id := Player.id p;
     Row.player := p;
     Row.goals := goals;
     Row.assists := assists;
     Row.saves := saves;
     Row.clearances := clearances;
     Row.matches := default 0 (Player.initialMatches p);
     Row.ga := goals + assists |}.

Definition bothGoalkeepers (a b : Row.t) : bool :=
  bool_decide (Player.position (Row.player a) = GK)
  && bool_decide (Player.position (Row.player b) = GK).

Definition compare (a b : Row.t) : Z :=
  if bothGoalkeepers a b
  then Row.saves b - Row.saves a
  else Row.goals b - Row.goals a.

Definition stats (players : list Player.t) : list Row.t :=
  sort compare (map toRow players).

End PlayersOnly.

(** ** App.tsx, the matches variant: the player handlers

    The text fields and selectors of the forms ([newPlayerName],
    [newPlayerPos], [editingPlayerId], [editFormData]) are passed to the
    handlers as they stand when the button is pressed. *)

Module AppPlayers.

(** The white space that [String.prototype.trim] strips, on the bytes of
    the UTF-8 text: the ASCII characters tab, line feed, vertical tab,
    form feed, carriage return and space; U+00A0; and the three-byte
    characters U+1680, U+2000 to U+200A, U+2028, U+2029, U+202F, U+205F,
    U+3000 and U+FEFF. *)
Definition asciiSpace (n : N) : bool :=
  bool_decide (9 ≤ n ≤ 13)%N || bool_decide (n = 32)%N.

Definition wideSpace (n1 n2 n3 : N) : bool :=
  bool_decide (n1 = 225 ∧ n2 = 154 ∧ n3 = 128)%N
  || bool_decide (n1 = 226 ∧ n2 = 128 ∧ (128 ≤ n3 ≤ 138 ∨ n3 = 168 ∨ n3 = 169 ∨ n3 = 175))%N
  || bool_decide (n1 = 226 ∧ n2 = 129 ∧ n3 = 159)%N
  || bool_decide (n1 = 227 ∧ n2 = 128 ∧ n3 = 128)%N
  || bool_decide (n1 = 239 ∧ n2 = 187 ∧ n3 = 191)%N.

(** [!s.trim()]: nothing but white space. *)
Fixpoint isBlank (s : string) : bool :=
  match s with
  | "" => true
  | String c1 s1 =>
      if asciiSpace (Ascii.N_of_ascii c1) then isBlank s1
      else
        match s1 with
        | "" => false
        | String c2 s2 =>
            if bool_decide (Ascii.N_of_ascii c1 = 194)%N
               && bool_decide (Ascii.N_of_ascii c2 = 160)%N
            then isBlank s2
            else
              match s2 with
              | "" => false
              | String c3 s3 =>
                  if wideSpace (Ascii.N_of_ascii c1) (Ascii.N_of_ascii c2)
                       (Ascii.N_of_ascii c3)
                  then isBlank s3 else false
              end
        end
  end.

(** The state after [localStorage] and [players] were set. *)
Definition withPlayers (ls : LocalStorage) (players : list Player.t)
    (st : App.State) : App.State :=
  App.mkState ls (App.activeTab st) players (App.matches st) (App.isLoading st)
    (App.draftHomeName st) (App.draftAwayName st)
    (App.draftHomeIds st) (App.draftAwayIds st)
    (App.activeMatchId st) (App.generatingReport st).

Definition newPlayer (newPlayerName : string) (newPlayerPos : Position) (now : Z)
    : Player.t :=
  {| Player.id := pretty now;
     Player.name := newPlayerName;
     Player.nickname := None;
     Player.photoUrl := None;
     Player.position := newPlayerPos;
     Player.initialGoals := Some 0;
     Player.initialAssists := Some 0;
     Player.initialMatches := Some 0;
     Player.initialSaves := None;
     Player.initialClearances := None |}.

Definition handleAddPlayer (newPlayerName : string) (newPlayerPos : Position)
    (now : Z) (st : App.State) : App.State :=
  if isBlank newPlayerName then st
  else
    let newPlayer := newPlayer newPlayerName newPlayerPos now in
    withPlayers (dbService.addPlayer newPlayer (App.storage st))
      (App.players st ++ [newPlayer]) st.

(** [confirmed] is the answer of [window.confirm]. *)
Definition deletePlayer (id : string) (confirmed : bool) (st : App.State) : App.State :=
  if confirmed
  then withPlayers (dbService.deletePlayer id (App.storage st))
         (filter (λ p, Player.id p ≠ id) (App.players st)) st
  else st.

(** [Partial<Player>], with the properties the edit form ever sets. *)
Record EditForm := mkEditForm {
  name : option string;
  position : option Position;
  initialGoals : option Z;
  initialAssists : option Z;
  initialMatches : option Z
}.

(** What [startEditing(player)] puts in [editingPlayerId] and
    [editFormData]. *)
Definition startEditing (player : Player.t) : option string * EditForm :=
  (Some (Player.id player),
   {| name := Some (Player.name player);
      position := Some (Player.position player);
      initialGoals := Some (default 0 (Player.initialGoals player));
      initialAssists := Some (default 0 (Player.initialAssists player));
      initialMatches := Some (default 0 (Player.initialMatches player)) |}).

(** [{ ...originalPlayer, ...editFormData }] *)
Definition merge (originalPlayer : Player.t) (editFormData : EditForm) : Player.t :=
  {| Player.id := Player.id originalPlayer;
     Player.name := default (Player.name originalPlayer) (name editFormData);
     Player.nickname := Player.nickname originalPlayer;
     Player.photoUrl := Player.photoUrl originalPlayer;
     Player.position := default (Player.position originalPlayer) (position editFormData);
     Player.initialGoals :=
       match initialGoals editFormData with
       | Some n => Some n
       | None => Player.initialGoals originalPlayer
       end;
     Player.initialAssists :=
       match initialAssists editFormData with
       | Some n => Some n
       | None => Player.initialAssists originalPlayer
       end;
     Player.initialMatches :=
       match initialMatches editFormData with
       | Some n => Some n
       | None => Player.initialMatches originalPlayer
       end;
     Player.initialSaves := Player.initialSaves originalPlayer;
     Player.initialClearances := Player.initialClearances originalPlayer |}.

Definition saveEdit (editingPlayerId : option string) (editFormData : EditForm)
    (st : App.State) : App.State :=
  if truthy_opt editingPlayerId
  then
    let id := default "" editingPlayerId in
    match list_find (λ p, Player.id p = id) (App.players st) with
    | None => st
    | Some (_, originalPlayer) =>
        let updatedPlayer := merge originalPlayer editFormData in
        withPlayers (dbService.updatePlayer updatedPlayer (App.storage st))
          (map (λ p, if decide (Player.id p = id) then updatedPlayer else p)
               (App.players st)) st
    end
  else st.

End AppPlayers.

(** ** App.tsx, the matches variant: what the views compute *)

Module AppViews.

(** "Goles Totales": [stats.reduce((acc, curr) => acc + curr.goals, 0)]. *)
Definition totalGoals (stats : list Stat.t) : Z :=
  foldl (λ acc curr, acc + Stat.goals curr) 0 stats.

(** The rows of the scorers' table: [stats.slice(0, 10)]. *)
Definition topTen (stats : list Stat.t) : list Stat.t := take 10 stats.

(** "Partidos Jugados" and the history list. *)
Definition history (matches : list Match.t) : list Match.t :=
  filter (λ m, Match.isFinished m = true) matches.

(** The counters on a player's card:
    [stats.find(s => s.id === player.id) || { goals: 0, assists: 0, matches: 0 }]. *)
Definition playerStats (stats : list Stat.t) (player : Player.t) : Tally.t :=
  match list_find (λ s, Stat.id s = Player.id player) stats with
  | Some (_, s) => Tally.mk (Stat.goals s) (Stat.assists s) (Stat.matches s)
  | None => Tally.mk 0 0 0
  end.

(** The players who get buttons on the live tab. *)
Definition homePlayersList (players : list Player.t) (activeMatch : Match.t)
    : list Player.t :=
  filter (λ p, Player.id p ∈ Match.homePlayerIds activeMatch) players.

Definition awayPlayersList (players : list Player.t) (activeMatch : Match.t)
    : list Player.t :=
  filter (λ p, Player.id p ∈ Match.awayPlayerIds activeMatch) players.

(** The "Minuto a Minuto" log: [[...activeMatch.events].reverse()]. *)
Definition eventLog (activeMatch : Match.t) : list MatchEvent.t :=
  reverse (Match.events activeMatch).

End AppViews.

(** ** The user's actions, player management included *)

Module Session.

Section steps.
Context (ai : option geminiService.Client).

Inductive step : Lifecycle.World → Lifecycle.World → Prop :=
  | step_lifecycle w w' :
      Lifecycle.step ai w w' → step w w'
  | step_addPlayer w newPlayerName newPlayerPos now :
      Lifecycle.clock w < now →
      step w (Lifecycle.mkWorld
                (AppPlayers.handleAddPlayer newPlayerName newPlayerPos now (Lifecycle.app w))
                (Lifecycle.pending w) now)
  | step_deletePlayer w id confirmed :
      step w (Lifecycle.mkWorld
                (AppPlayers.deletePlayer id confirmed (Lifecycle.app w))
                (Lifecycle.pending w) (Lifecycle.clock w))
  | step_saveEdit w editingPlayerId editFormData :
      step w (Lifecycle.mkWorld
                (AppPlayers.saveEdit editingPlayerId editFormData (Lifecycle.app w))
                (Lifecycle.pending w) (Lifecycle.clock w)).

Inductive reachable : Lifecycle.World → Prop :=
  | reachable_first now : 0 ≤ now → reachable (Lifecycle.firstVisit now)
  | reachable_step w w' : reachable w → step w w' → reachable w'.
End steps.

End Session.

(** ** Vocabulary of the properties *)

(** Most recent first. *)
Definition newestFirst (l : list Match.t) : Prop :=
  StronglySorted (λ a b, Match.date b ≤ Match.date a) l.

(** The stored entities other than the one identified by [k], in order. *)
Definition otherPlayers (k : string) (l : list Player.t) : list Player.t :=
  filter (λ p, Player.id p ≠ k) l.

Definition otherMatches (k : string) (l : list Match.t) : list Match.t :=
  filter (λ m, Match.id m ≠ k) l.

(** The persisted match array itself, as opposed to what [list] returns. *)
Definition storedMatches (ls : LocalStorage) : list Match.t :=
  default [] (poli_matches_data ls).

(** The stored match that [updateMatch(e)] replaces, if there is one,
    carries the date of [e]. *)
Definition keepsDate (e : Match.t) (ls : LocalStorage) : Prop :=
  match list_find (λ m, Match.id m = Match.id e) (dbService.getAllMatches ls) with
  | Some (_, m) => Match.date m = Match.date e
  | None => True
  end.

(** The running score of a side, and the opposite side. *)
Definition score (s : Side) (m : Match.t) : Z :=
  match s with home => Match.homeScore m | away => Match.awayScore m end.

Definition otherSide (s : Side) : Side :=
  match s with home => away | away => home end.

(** At most one of the matches is unfinished. *)
Definition atMostOneUnfinished (l : list Match.t) : Prop :=
  (length (Lifecycle.unfinished l) ≤ 1)%nat.

(** Every identifier is the decimal text of an instant that the clock has
    already passed, and no identifier occurs twice. *)
Definition idsIssued (c : Z) (ids : list string) : Prop :=
  0 ≤ c ∧ NoDup ids ∧ ∀ i, i ∈ ids → ∃ n : Z, 0 ≤ n ≤ c ∧ i = pretty n.

(** What the lifecycle maintains: the stored identifiers were issued by
    the clock; the unfinished stored matches are all the active one; the
    draft tab is shown only while no match is active; and a waiting
    [finishMatch] is waiting for the active match. *)
Definition lifecycleInv (w : Lifecycle.World) : Prop :=
  idsIssued (Lifecycle.clock w) (map Match.id (Lifecycle.persistedMatches w))
  ∧ match App.activeMatchId (Lifecycle.app w) with
    | Some id =>
        id ≠ ""
        ∧ ∀ m, m ∈ Lifecycle.persistedMatches w → Match.isFinished m = false →
               Match.id m = id
    | None =>
        ∀ m, m ∈ Lifecycle.persistedMatches w → Match.isFinished m = true
    end
  ∧ (App.activeTab (Lifecycle.app w) = App.TabDraft →
     App.activeMatchId (Lifecycle.app w) = None)
  ∧ (∀ k, Lifecycle.pending w = Some k →
          App.activeMatchId (Lifecycle.app w) = Some (Match.id (App.k_activeMatch k))).

(** How many elements of a list satisfy a property. *)
Definition countZ {A} (P : A → Prop) `{!∀ x, Decision (P x)} (l : list A) : Z :=
  Z.of_nat (length (filter P l)).

(** The events, and the roster entries, of the finished matches. *)
Definition finishedEvents (ms : list Match.t) : list MatchEvent.t :=
  concat (map Match.events (filter (λ m, Match.isFinished m = true) ms)).

Definition finishedRosters (ms : list Match.t) : list string :=
  concat (map (λ m, Match.homePlayerIds m ++ Match.awayPlayerIds m)
              (filter (λ m, Match.isFinished m = true) ms)).

Definition scoredBy (pid : string) (e : MatchEvent.t) : Prop :=
  MatchEvent.type e = GOAL ∧ MatchEvent.playerId e = pid.

Definition assistedBy (pid : string) (e : MatchEvent.t) : Prop :=
  MatchEvent.type e = GOAL ∧ pid ≠ "" ∧ MatchEvent.assistPlayerId e = Some pid.

Global Instance scoredBy_dec pid e : Decision (scoredBy pid e).
Proof. unfold scoredBy. apply _. Defined.

Global Instance assistedBy_dec pid e : Decision (assistedBy pid e).
Proof. unfold assistedBy. apply _. Defined.

(** The record the aggregator is to produce for a player. *)
Definition expectedStat (ms : list Match.t) (p : Player.t) : Stat.t :=
  {| Stat.goals :=
       Aggregator.baseline (Player.initialGoals p)
       + countZ (scoredBy (Player.id p)) (finishedEvents ms);
     Stat.assists :=
       Aggregator.baseline (Player.initialAssists p)
       + countZ (assistedBy (Player.id p)) (finishedEvents ms);
     Stat.matches :=
       Aggregator.baseline (Player.initialMatches p)
       + countZ (λ pid, pid = Player.id p) (finishedRosters ms);
     Stat.id := Player.id p;
     Stat.player := Some p |}.

(** No event of a finished match names the player, as actor or as
    assistant. *)
Definition unreferenced (pid : string) (ms : list Match.t) : Prop :=
  ∀ e, e ∈ finishedEvents ms →
       MatchEvent.playerId e ≠ pid ∧ MatchEvent.assistPlayerId e ≠ Some pid.

(** The dictionary that holds, for each player of [ps] in order, the
    tally [T] gives. *)
Definition tallyOf (ps : list Player.t) (T : Player.t → Tally.t)
    : list (string * Tally.t) :=
  map (λ p, (Player.id p, T p)) ps.

Definition seedTally (p : Player.t) : Tally.t :=
  Tally.mk (Aggregator.baseline (Player.initialGoals p))
           (Aggregator.baseline (Player.initialAssists p))
           (Aggregator.baseline (Player.initialMatches p)).

(** What the specification asks of an entry [a] that stands before an
    entry [b] on the players-only leaderboard. *)
Definition mayPrecede (a b : Row.t) : Prop :=
  if PlayersOnly.bothGoalkeepers a b
  then Row.saves b ≤ Row.saves a
  else Row.goals b ≤ Row.goals a.

Global Instance mayPrecede_dec a b : Decision (mayPrecede a b).
Proof. unfold mayPrecede. destruct (PlayersOnly.bothGoalkeepers a b); apply _. Defined.

(** Every entry may precede every later one. *)
Definition leaderboardOrdered (l : list Row.t) : Prop :=
  StronglySorted mayPrecede l.

(** The comparison is transitive among the rows of a list. *)
Definition transitiveOn (l : list Row.t) : Prop :=
  Forall (λ a, Forall (λ b, Forall (λ c,
    mayPrecede a b → mayPrecede b c → mayPrecede a c) l) l) l.

(** Goals never increase down the matches-variant leaderboard. *)
Definition goalsDescending (l : list Stat.t) : Prop :=
  StronglySorted (λ a b, Stat.goals b ≤ Stat.goals a) l.

(** ** Sample data *)

Module Sample.

Definition player (id name : string) (position : Position) (goals saves : Z) : Player.t :=
  Player.mk id name None None position (Some goals) None None (Some saves) None.

Definition ana : Player.t := player "1" "Ana" FWD 2 0.
Definition beto : Player.t := player "2" "Beto" MID 5 0.
(** A second player under Ana's identifier. *)
Definition twin : Player.t := player "1" "Ana bis" DEF 0 0.

Definition keeper1 : Player.t := player "10" "Caro" GK 0 10.
Definition striker : Player.t := player "11" "Dani" FWD 3 0.
Definition keeper2 : Player.t := player "12" "Edu" GK 5 0.

Definition goal (id playerId : string) (assist : option string) : MatchEvent.t :=
  MatchEvent.mk id "m" home playerId assist GOAL 10 0.

(** A finished match in which Ana scores, then Beto scores on Ana's
    assist. *)
Definition derby : Match.t :=
  Match.mk "m" "Rojos" "Azules" ["1"] ["2"] 2 0 1000 true
    [goal "e1" "1" None; goal "e2" "2" (Some "1")] None.

Definition fixture (id : string) (date : Z) : Match.t :=
  Match.mk id "Equipo A" "Equipo B" ["1"] ["2"] 0 0 date true [] None.

(** The storage after three matches were added, oldest first. *)
Definition threeAdded : LocalStorage :=
  dbService.addMatch (fixture "c" 15)
    (dbService.addMatch (fixture "a" 10)
       (dbService.addMatch (fixture "b" 5) (mkLS None None))).

(** The storage after two matches were added, oldest first. *)
Definition twoAdded : LocalStorage :=
  dbService.addMatch (fixture "a" 10)
    (dbService.addMatch (fixture "b" 5) (mkLS None None)).

(** Match "a" with another score, and match "a" moved to another date. *)
Definition rescored : Match.t :=
  Match.mk "a" "Equipo A" "Equipo B" ["1"] ["2"] 3 1 10 true [] None.
Definition redated : Match.t := fixture "a" 1.

(** The largest number below 1 that [Math.random()] can return. *)
Definition largestDraw : Draw := mkDraw (2 ^ 53 - 1) 53.

(** A first visit at instant 0 on which the user opens the draft tab,
    puts player "1" on the home side and player "2" on the away side,
    and starts a match at instant 1000. *)
Definition visit0 : Lifecycle.World := Lifecycle.firstVisit 0.
Definition visit1 : Lifecycle.World :=
  Lifecycle.mkWorld (App.setActiveTab App.TabDraft (Lifecycle.app visit0)) None 0.
Definition visit2 : Lifecycle.World :=
  Lifecycle.mkWorld (App.toggleDraftSelection "1" home (Lifecycle.app visit1)) None 0.
Definition visit3 : Lifecycle.World :=
  Lifecycle.mkWorld (App.toggleDraftSelection "2" away (Lifecycle.app visit2)) None 0.
Definition visit4 : Lifecycle.World :=
  Lifecycle.mkWorld (App.startMatch 1000 1000 (Lifecycle.app visit3)) None 1000.

End Sample.

(** Case analysis on whether an event counts for a player. *)
Ltac tally_cases p e :=
  destruct (decide (scoredBy (Player.id p) e)) as [?Hs|?Hs];
  destruct (decide (assistedBy (Player.id p) e)) as [?Has|?Has];
  unfold scoredBy, assistedBy in *;
  repeat case_decide; simpl; split_and!; try lia; exfalso; intuition congruence.

(** The draft roster of a side. *)
Definition draftIds (s : Side) (st : App.State) : list string :=
  match s with home => App.draftHomeIds st | away => App.draftAwayIds st end.

(** One press of an action button on the live tab, with the readings of
    [Math.random()] and [Date.now()] it leads to. *)
Record Tap := mkTap {
  tapType : EventType;
  tapSide : Side;
  tapPlayerId : string;
  tapRandom : Draw;
  tapNow : Z;
  tapNow' : Z
}.

Definition tapOnce (st : App.State) (t : Tap) : App.State :=
  App.addEvent (tapType t) (tapSide t) (tapPlayerId t) (tapRandom t)
    (tapNow t) (tapNow' t) st.

(** The presses of a list, one after the other. *)
Definition tapAll (taps : list Tap) (st : App.State) : App.State :=
  foldl tapOnce st taps.

(** The event that a press creates for the match [am]. *)
Definition tapEvent (am : Match.t) (t : Tap) : MatchEvent.t :=
  App.newEvent am (tapType t) (tapSide t) (tapPlayerId t) (tapRandom t)
    (tapNow t) (tapNow' t).

Definition goalFor (s : Side) (t : Tap) : Prop := tapType t = GOAL ∧ tapSide t = s.

Global Instance goalFor_dec s t : Decision (goalFor s t).
Proof. unfold goalFor. apply _. Defined.

(** The sum of a quantity over a list. *)
Definition sumZ {A} (f : A → Z) (l : list A) : Z := foldr (λ x acc, f x + acc) 0 l.

(** A goal event of a finished match whose scorer is among the players. *)
Definition knownScorer (ps : list Player.t) (e : MatchEvent.t) : Prop :=
  MatchEvent.type e = GOAL ∧ MatchEvent.playerId e ∈ map Player.id ps.

Global Instance knownScorer_dec ps e : Decision (knownScorer ps e).
Proof. unfold knownScorer. apply _. Defined.

(** An identifier as [Date.now().toString()] yields it at an instant
    from [2 ^ 32 - 1] milliseconds after the epoch on. *)
Definition clockId (id : string) : Prop := ∃ n : Z, 2 ^ 32 - 1 ≤ n ∧ id = pretty n.

(** A goal event for a side. *)
Definition goalOf (s : Side) (e : MatchEvent.t) : Prop :=
  MatchEvent.type e = GOAL ∧ MatchEvent.side e = s.

Global Instance goalOf_dec s e : Decision (goalOf s e).
Proof. unfold goalOf. apply _. Defined.

(** Each side's score is the number of its goal events. *)
Definition scoreConsistent (m : Match.t) : Prop :=
  ∀ s, score s m = countZ (goalOf s) (Match.events m).

(** Both rosters are occupied and nobody stands twice in them. *)
Definition rosterSound (m : Match.t) : Prop :=
  Match.homePlayerIds m ≠ [] ∧ Match.awayPlayerIds m ≠ []
  ∧ NoDup (Match.homePlayerIds m ++ Match.awayPlayerIds m).

Definition wellFormed (m : Match.t) : Prop := scoreConsistent m ∧ rosterSound m.

(** Two match lists that differ at most in the matches identified by
    [id]. *)
Definition agreeExcept (id : string) (l l' : list Match.t) : Prop :=
  ∀ z, App.replaceById id z l ≡ₚ App.replaceById id z l'.

(** What a session maintains on the player side: the player list in
    memory is the stored one, and its identifiers were issued by the
    clock. *)
Definition playersInv (w : Lifecycle.World) : Prop :=
  App.players (Lifecycle.app w)
  = dbService.getAllPlayers (App.storage (Lifecycle.app w))
  ∧ idsIssued (Lifecycle.clock w) (map Player.id (App.players (Lifecycle.app w))).

(** What a session maintains on the match side: the match list in memory
    holds the stored matches; a waiting [finishMatch] captured a list
    that differs from the stored one in the active match at most; every
    stored match is well formed; and the draft sides are apart. *)
Definition matchesInv (w : Lifecycle.World) : Prop :=
  App.matches (Lifecycle.app w) ≡ₚ Lifecycle.persistedMatches w
  ∧ (∀ k, Lifecycle.pending w = Some k →
          agreeExcept (Match.id (App.k_activeMatch k)) (App.k_matches k)
            (Lifecycle.persistedMatches w)
          ∧ wellFormed (App.k_activeMatch k))
  ∧ (∀ m, m ∈ Lifecycle.persistedMatches w → wellFormed m)
  ∧ NoDup (App.draftHomeIds (Lifecycle.app w) ++ App.draftAwayIds (Lifecycle.app w)).

Definition sessionInv (w : Lifecycle.World) : Prop :=
  lifecycleInv w ∧ playersInv w ∧ matchesInv w.

(** A first visit at instant 0 on which the user adds two players, at
    instants 1 and 2, opens the draft tab, puts player "1" on the home
    side and player "2" on the away side, starts a match at instant
    1000 and records a goal of player "1" at instant 1001. *)
Module SampleSession.

Definition opened : Lifecycle.World := Lifecycle.firstVisit 0.
Definition withAna : Lifecycle.World :=
  Lifecycle.mkWorld (AppPlayers.handleAddPlayer "Ana" FWD 1 (Lifecycle.app opened)) None 1.
Definition withBeto : Lifecycle.World :=
  Lifecycle.mkWorld (AppPlayers.handleAddPlayer "Beto" GK 2 (Lifecycle.app withAna)) None 2.
Definition drafting : Lifecycle.World :=
  Lifecycle.mkWorld (App.setActiveTab App.TabDraft (Lifecycle.app withBeto)) None 2.
Definition homePicked : Lifecycle.World :=
  Lifecycle.mkWorld (App.toggleDraftSelection "1" home (Lifecycle.app drafting)) None 2.
Definition bothPicked : Lifecycle.World :=
  Lifecycle.mkWorld (App.toggleDraftSelection "2" away (Lifecycle.app homePicked)) None 2.
Definition started : Lifecycle.World :=
  Lifecycle.mkWorld (App.startMatch 1000 1000 (Lifecycle.app bothPicked)) None 1000.
Definition scored : Lifecycle.World :=
  Lifecycle.mkWorld
    (App.addEvent GOAL home "1" Sample.largestDraw 1001 1001 (Lifecycle.app started))
    None 1001.

(** The match of that session, as started and after the goal. *)
Definition kickoff : Match.t := App.newMatch 1000 1000 (Lifecycle.app bothPicked).
Definition afterGoal : Match.t :=
  App.updatedMatch kickoff GOAL home
    (App.newEvent kickoff GOAL home "1" Sample.largestDraw 1001 1001).

End SampleSession.

(** Two players whose identifiers are readings of [Date.now()] in
    November 2023. *)
Module SampleRoster.
Definition first : Player.t := Sample.player (pretty 1700000000000) "Ana" FWD 2 0.
Definition second : Player.t := Sample.player (pretty 1700000000001) "Beto" MID 2 0.
End SampleRoster.

(** * Properties *)

(** ** Array.prototype.sort *)

Section sort_facts.
Context {A : Type} (cmp : A → A → Z).

Local Abbreviation le := (sort_le cmp).

Lemma sort_insert_perm x l : sort_insert cmp x l ≡ₚ x :: l.
Proof.
  induction l as [|y l IH]; simpl; [done|].
  case_bool_decide; [done|].
  rewrite IH. apply Permutation_swap.
Qed.

Lemma sort_perm l : sort cmp l ≡ₚ l.
Proof.
  induction l as [|x l IH]; simpl; [done|].
  by rewrite sort_insert_perm, IH.
Qed.

Lemma elem_of_sort x l : x ∈ sort cmp l ↔ x ∈ l.
Proof. by rewrite sort_perm. Qed.

Lemma sort_length l : length (sort cmp l) = length l.
Proof. by rewrite sort_perm. Qed.

(** A list that is already in order is left as it is.  No property of
    the comparator is needed. *)
Lemma sort_sorted_id l : StronglySorted le l → sort cmp l = l.
Proof.
  induction 1 as [|x l Hl IH Hx]; simpl; [done|].
  rewrite IH. destruct Hx as [|y l' Hxy _]; simpl; [done|].
  by rewrite bool_decide_eq_true_2.
Qed.

(** Sorting puts in order every list on whose elements the comparator
    is antisymmetric in sign and transitive. *)
Section consistent_on.
Context (dom : A → Prop).
Context (Hanti : ∀ a b, dom a → dom b → ¬ le a b → le b a).
Context (Htrans : ∀ a b c, dom a → dom b → dom c → le a b → le b c → le a c).

Lemma sort_insert_sorted x l :
  dom x → Forall dom l →
  StronglySorted le l → StronglySorted le (sort_insert cmp x l).
Proof.
  intros Hx Hdom Hl. induction Hl as [|y l Hl IH Hy]; simpl.
  { repeat constructor. }
  apply Forall_cons in Hdom as [Hdy Hdom].
  case_bool_decide as Hxy.
  - constructor; [by constructor|].
    constructor; [done|].
    rewrite Forall_forall in Hdom, Hy. apply Forall_forall.
    intros z Hz. eauto.
  - constructor; [by apply IH|].
    rewrite sort_insert_perm. constructor; [|done]. by apply Hanti.
Qed.

Lemma sort_sorted l : Forall dom l → StronglySorted le (sort cmp l).
Proof.
  induction 1 as [|x l Hx Hl IH]; simpl; [constructor|].
  apply sort_insert_sorted; [done| |done].
  rewrite Forall_forall. intros y Hy. rewrite elem_of_sort in Hy.
  rewrite Forall_forall in Hl. auto.
Qed.
End consistent_on.
End sort_facts.

(** Filtering commutes with sorting whenever the comparator is
    consistent: what is left keeps the order it had among the rest. *)
Section sort_filter.
Context {A : Type} (cmp : A → A → Z).
Context (Hanti : ∀ a b, ¬ sort_le cmp a b → sort_le cmp b a).
Context (Htrans : ∀ a b c, sort_le cmp a b → sort_le cmp b c → sort_le cmp a c).
Context (P : A → Prop) `{!∀ x, Decision (P x)}.

Lemma sort_sorted_total l : StronglySorted (sort_le cmp) (sort cmp l).
Proof.
  apply (sort_sorted cmp (λ _, True)); eauto.
  by apply Forall_forall.
Qed.

Lemma sort_insert_least x l :
  Forall (sort_le cmp x) l → sort_insert cmp x l = x :: l.
Proof.
  destruct 1 as [|y l Hxy _]; simpl; [done|].
  by rewrite bool_decide_eq_true_2.
Qed.

Lemma filter_sort_insert x l :
  StronglySorted (sort_le cmp) l →
  filter P (sort_insert cmp x l)
  = if decide (P x) then sort_insert cmp x (filter P l) else filter P l.
Proof.
  induction 1 as [|y l Hl IH Hy]; simpl.
  { rewrite filter_cons. by destruct (decide (P x)). }
  case_bool_decide as Hxy.
  - rewrite filter_cons. destruct (decide (P x)); [|done].
    rewrite sort_insert_least; [done|].
    apply Forall_forall. intros z Hz.
    apply list_elem_of_filter in Hz as [_ Hz].
    apply elem_of_cons in Hz as [->|Hz]; [done|].
    rewrite Forall_forall in Hy. eauto.
  - rewrite !filter_cons, IH.
    destruct (decide (P y)), (decide (P x)); simpl; try done.
    by rewrite bool_decide_eq_false_2.
Qed.

Lemma filter_sort l : filter P (sort cmp l) = sort cmp (filter P l).
Proof.
  induction l as [|x l IH]; simpl; [done|].
  rewrite filter_sort_insert by apply sort_sorted_total.
  rewrite filter_cons, IH. by destruct (decide (P x)).
Qed.
End sort_filter.

Lemma StronglySorted_weaken {A} (R R' : A → A → Prop) l :
  (∀ x y, R x y → R' x y) → StronglySorted R l → StronglySorted R' l.
Proof.
  intros HR. induction 1 as [|x l Hl IH Hx]; constructor; [done|].
  eapply Forall_impl; eauto.
Qed.

(** ** The comparator of [getAllMatches] is consistent *)

Lemma byDateDesc_anti a b :
  ¬ sort_le byDateDesc a b → sort_le byDateDesc b a.
Proof. unfold sort_le, byDateDesc. lia. Qed.

Lemma byDateDesc_trans a b c :
  sort_le byDateDesc a b → sort_le byDateDesc b c → sort_le byDateDesc a c.
Proof. unfold sort_le, byDateDesc. lia. Qed.

Lemma sort_byDateDesc_sorted l : StronglySorted (sort_le byDateDesc) (sort byDateDesc l).
Proof. apply sort_sorted_total; [apply byDateDesc_anti|apply byDateDesc_trans]. Qed.

Lemma sort_byDateDesc_newestFirst l : newestFirst (sort byDateDesc l).
Proof.
  eapply StronglySorted_weaken; [|apply sort_byDateDesc_sorted].
  unfold sort_le, byDateDesc. intros; lia.
Qed.

Lemma sort_byDateDesc_idemp l :
  sort byDateDesc (sort byDateDesc l) = sort byDateDesc l.
Proof. apply sort_sorted_id, sort_byDateDesc_sorted. Qed.

(** ** List facts used for the gateway *)

Lemma list_find_insert_same {A} (P : A → Prop) `{!∀ x, Decision (P x)}
    (l : list A) i x y :
  list_find P l = Some (i, x) → P y →
  list_find P (<[i := y]> l) = Some (i, y).
Proof.
  intros Hfind Hy. apply list_find_Some in Hfind as (Hi & Hx & Hbefore).
  apply list_find_Some. split_and!.
  - apply list_lookup_insert_eq. by eapply lookup_lt_Some.
  - done.
  - intros j z Hj Hlt. rewrite list_lookup_insert_ne in Hj by lia. eauto.
Qed.

Lemma filter_insert_out {A} (P : A → Prop) `{!∀ x, Decision (P x)}
    (l : list A) i x y :
  l !! i = Some x → ¬ P x → ¬ P y → filter P (<[i := y]> l) = filter P l.
Proof.
  revert i. induction l as [|z l IH]; intros [|i] Hi Hx Hy; simplify_eq/=.
  - by rewrite !filter_cons_False.
  - rewrite !filter_cons. by erewrite IH.
Qed.

Lemma map_insert_same {A B} (f : A → B) (l : list A) i x y :
  l !! i = Some x → f y = f x → map f (<[i := y]> l) = map f l.
Proof.
  revert i. induction l as [|z l IH]; intros [|i] Hi Hf; simplify_eq/=.
  - by rewrite Hf.
  - by erewrite IH.
Qed.

Lemma elem_of_insert_inv {A} (l : list A) i x y :
  y ∈ <[i := x]> l → y = x ∨ y ∈ l.
Proof.
  intros Hy. apply list_elem_of_lookup in Hy as [j Hj].
  destruct (decide (i = j)) as [->|Hne].
  - destruct (decide (j < length l)%nat).
    + rewrite list_lookup_insert_eq in Hj by done. left. congruence.
    + rewrite list_insert_ge in Hj by lia. right. by eapply list_elem_of_lookup_2.
  - rewrite list_lookup_insert_ne in Hj by done.
    right. by eapply list_elem_of_lookup_2.
Qed.

(** ** The persistence gateway, local backend *)

Lemma getAllPlayers_setPlayers v ls :
  dbService.getAllPlayers (setPlayers v ls) = v.
Proof. done. Qed.

Lemma getAllMatches_setMatches v ls :
  dbService.getAllMatches (setMatches v ls) = sort byDateDesc v.
Proof. done. Qed.

Lemma elem_of_getAllMatches m ls :
  m ∈ dbService.getAllMatches ls ↔ m ∈ storedMatches ls.
Proof. unfold dbService.getAllMatches. by rewrite elem_of_sort. Qed.

(** C4. On the local backend, for players and for matches alike: after
    [add(e)], [list()] contains [e]; after [delete(e.id)], [list()]
    contains no entity whose identifier is [e.id]. *)
Theorem local_add_delete_roundtrip (ls : LocalStorage) :
  (∀ e : Player.t, e ∈ dbService.getAllPlayers (dbService.addPlayer e ls))
  ∧ (∀ e x : Player.t,
       x ∈ dbService.getAllPlayers (dbService.deletePlayer (Player.id e) ls) →
       Player.id x ≠ Player.id e)
  ∧ (∀ e : Match.t, e ∈ dbService.getAllMatches (dbService.addMatch e ls))
  ∧ (∀ e x : Match.t,
       x ∈ dbService.getAllMatches (dbService.deleteMatch (Match.id e) ls) →
       Match.id x ≠ Match.id e).
Proof.
  split_and!.
  - intros e. unfold dbService.addPlayer. rewrite getAllPlayers_setPlayers.
    apply elem_of_app. right. by apply list_elem_of_singleton.
  - intros e x. unfold dbService.deletePlayer. rewrite getAllPlayers_setPlayers.
    intros Hx. by apply list_elem_of_filter in Hx as [? _].
  - intros e. unfold dbService.addMatch. rewrite getAllMatches_setMatches.
    apply elem_of_sort, elem_of_app. right. by apply list_elem_of_singleton.
  - intros e x. unfold dbService.deleteMatch. rewrite getAllMatches_setMatches.
    rewrite elem_of_sort. intros Hx. by apply list_elem_of_filter in Hx as [? _].
Qed.

(** C6. [list()] for matches returns them most recent first: on the
    local backend, on the remote backend (where a failed query yields the
    empty list), and in the variant without a local fallback. *)
Theorem getAllMatches_newest_first :
  (∀ ls, newestFirst (dbService.getAllMatches ls))
  ∧ (∀ answer, newestFirst (getAllMatches_remote answer))
  ∧ (∀ connected answer, newestFirst (getAllMatches_degraded connected answer)).
Proof.
  assert (∀ answer, newestFirst (getAllMatches_remote answer)) as Hremote.
  { intros [data|]; simpl; [apply sort_byDateDesc_newestFirst|constructor]. }
  split_and!.
  - intros ls. apply sort_byDateDesc_newestFirst.
  - done.
  - intros [] answer; simpl; [apply Hremote|constructor].
Qed.

Lemma updatePlayer_twice e ls :
  dbService.updatePlayer e (dbService.updatePlayer e ls) = dbService.updatePlayer e ls.
Proof.
  unfold dbService.updatePlayer at 2 3.
  destruct (list_find _ (dbService.getAllPlayers ls)) as [[i x]|] eqn:Hfind.
  - unfold dbService.updatePlayer. rewrite getAllPlayers_setPlayers.
    erewrite list_find_insert_same by done.
    rewrite list_insert_insert_eq. by destruct ls.
  - unfold dbService.updatePlayer. by rewrite Hfind.
Qed.

Lemma insert_sorted_same_key {A} (R : A → A → Prop) (key : A → Z) l i x y :
  (∀ a b, R a b ↔ key b ≤ key a) →
  StronglySorted R l → l !! i = Some x → key y = key x →
  StronglySorted R (<[i := y]> l).
Proof.
  intros HR Hl. revert i. induction Hl as [|z l Hl IH Hz]; intros i Hi Hk; [done|].
  destruct i as [|i]; simplify_eq/=.
  - constructor; [done|]. eapply Forall_impl; [done|].
    intros b. rewrite !HR. lia.
  - constructor; [by apply IH|].
    apply Forall_forall. intros b Hb.
    rewrite Forall_forall in Hz.
    apply elem_of_insert_inv in Hb as [->|Hb]; [|by auto].
    apply HR. rewrite Hk. apply HR, Hz. by eapply list_elem_of_lookup_2.
Qed.

Lemma updateMatch_twice e ls :
  keepsDate e ls →
  dbService.updateMatch e (dbService.updateMatch e ls) = dbService.updateMatch e ls.
Proof.
  unfold keepsDate. intros Hdate.
  unfold dbService.updateMatch at 2 3.
  destruct (list_find _ (dbService.getAllMatches ls)) as [[i x]|] eqn:Hfind.
  - unfold dbService.updateMatch. rewrite getAllMatches_setMatches.
    pose proof Hfind as (Hi & _ & _)%list_find_Some.
    rewrite (sort_sorted_id byDateDesc).
    + erewrite list_find_insert_same by done.
      rewrite list_insert_insert_eq. by destruct ls.
    + eapply (insert_sorted_same_key _ Match.date); [| |done|done].
      * intros a b. unfold sort_le, byDateDesc. lia.
      * apply sort_byDateDesc_sorted.
  - unfold dbService.updateMatch. by rewrite Hfind.
Qed.

Lemma NoDup_map_elem_inj {A B} (f : A → B) (l : list A) x y :
  NoDup (map f l) → x ∈ l → y ∈ l → f x = f y → x = y.
Proof.
  intros Hnodup [i Hi]%list_elem_of_lookup [j Hj]%list_elem_of_lookup Hf.
  assert (i = j) as ->; [|congruence].
  eapply (NoDup_lookup _ i j (f x) Hnodup).
  - by rewrite list_lookup_fmap, Hi.
  - by rewrite list_lookup_fmap, Hj; simpl; rewrite Hf.
Qed.

(** With pairwise distinct identifiers, what [list()] returns after a
    second [updateMatch(e)] is what it returns after the first. *)
Lemma updateMatch_twice_list e ls :
  NoDup (map Match.id (storedMatches ls)) →
  dbService.getAllMatches (dbService.updateMatch e (dbService.updateMatch e ls))
  = dbService.getAllMatches (dbService.updateMatch e ls).
Proof.
  intros Hnodup.
  unfold dbService.updateMatch at 2 3.
  destruct (list_find _ (dbService.getAllMatches ls)) as [[i x]|] eqn:Hfind.
  - pose proof Hfind as (Hi & Hid & _)%list_find_Some.
    set (ls1 := setMatches (<[i := e]> (dbService.getAllMatches ls)) ls).
    assert (NoDup (map Match.id (storedMatches ls1))) as Hnodup1.
    { subst ls1. unfold storedMatches. simpl. erewrite map_insert_same by done.
      unfold dbService.getAllMatches.
      by rewrite (Permutation_map Match.id (sort_perm byDateDesc _)). }
    assert (e ∈ dbService.getAllMatches ls1) as He.
    { apply elem_of_sort. subst ls1. simpl. apply list_elem_of_lookup. exists i.
      apply list_lookup_insert_eq. by eapply lookup_lt_Some. }
    unfold dbService.updateMatch.
    destruct (list_find _ (dbService.getAllMatches ls1)) as [[j y]|] eqn:Hfind1; [|done].
    apply list_find_Some in Hfind1 as (Hj & Hidy & _).
    assert (y = e) as ->.
    { eapply (NoDup_map_elem_inj Match.id (storedMatches ls1)); [done| | |done].
      - eapply elem_of_sort, list_elem_of_lookup_2, Hj.
      - eapply elem_of_sort, He. }
    rewrite list_insert_id by done.
    rewrite getAllMatches_setMatches. unfold dbService.getAllMatches.
    by rewrite sort_byDateDesc_idemp.
  - unfold dbService.updateMatch. by rewrite Hfind.
Qed.

(** C7, as the code has it.  Updating a player twice with the same
    entity leaves the persisted collection as updating it once does.
    Updating a match twice leaves the persisted array as updating it
    once does, provided the entity carries the date of the stored match
    it replaces; whatever the date, with pairwise distinct identifiers
    [list()] returns the same matches after the second update as after
    the first. *)
Theorem update_twice_same_as_once (p : Player.t) (m : Match.t) (ls : LocalStorage) :
  dbService.updatePlayer p (dbService.updatePlayer p ls) = dbService.updatePlayer p ls
  ∧ (keepsDate m ls →
     dbService.updateMatch m (dbService.updateMatch m ls) = dbService.updateMatch m ls)
  ∧ (NoDup (map Match.id (storedMatches ls)) →
     dbService.getAllMatches (dbService.updateMatch m (dbService.updateMatch m ls))
     = dbService.getAllMatches (dbService.updateMatch m ls)).
Proof.
  split_and!;
    [apply updatePlayer_twice|apply updateMatch_twice|apply updateMatch_twice_list].
Qed.

Lemma updatePlayer_others p ls :
  otherPlayers (Player.id p) (dbService.getAllPlayers (dbService.updatePlayer p ls))
  = otherPlayers (Player.id p) (dbService.getAllPlayers ls).
Proof.
  unfold dbService.updatePlayer, otherPlayers.
  destruct (list_find _ (dbService.getAllPlayers ls)) as [[i x]|] eqn:Hfind; [|done].
  apply list_find_Some in Hfind as (Hi & Hx & _).
  rewrite getAllPlayers_setPlayers.
  eapply filter_insert_out; [done|naive_solver..].
Qed.

Lemma deletePlayer_others k ls :
  otherPlayers k (dbService.getAllPlayers (dbService.deletePlayer k ls))
  = otherPlayers k (dbService.getAllPlayers ls).
Proof.
  unfold dbService.deletePlayer, otherPlayers. rewrite getAllPlayers_setPlayers.
  apply list_filter_filter_l. auto.
Qed.

Lemma otherMatches_sort k l :
  otherMatches k (sort byDateDesc l) = sort byDateDesc (otherMatches k l).
Proof. apply filter_sort; [apply byDateDesc_anti|apply byDateDesc_trans]. Qed.

Lemma updateMatch_stored_others m ls i x :
  list_find (λ y, Match.id y = Match.id m) (dbService.getAllMatches ls) = Some (i, x) →
  otherMatches (Match.id m) (storedMatches (dbService.updateMatch m ls))
  = otherMatches (Match.id m) (dbService.getAllMatches ls).
Proof.
  intros Hfind. unfold dbService.updateMatch. rewrite Hfind.
  apply list_find_Some in Hfind as (Hi & Hx & _).
  unfold storedMatches, otherMatches; simpl.
  eapply filter_insert_out; [done|naive_solver..].
Qed.

Lemma updateMatch_others m ls :
  otherMatches (Match.id m) (dbService.getAllMatches (dbService.updateMatch m ls))
  = otherMatches (Match.id m) (dbService.getAllMatches ls).
Proof.
  destruct (list_find (λ y, Match.id y = Match.id m) (dbService.getAllMatches ls))
    as [[i x]|] eqn:Hfind.
  - unfold dbService.getAllMatches at 1. fold (storedMatches (dbService.updateMatch m ls)).
    rewrite otherMatches_sort, (updateMatch_stored_others _ _ _ _ Hfind).
    rewrite <-otherMatches_sort. unfold dbService.getAllMatches.
    by rewrite sort_byDateDesc_idemp.
  - unfold dbService.updateMatch. by rewrite Hfind.
Qed.

Lemma deleteMatch_others k ls :
  otherMatches k (dbService.getAllMatches (dbService.deleteMatch k ls))
  = otherMatches k (dbService.getAllMatches ls).
Proof.
  unfold dbService.deleteMatch. rewrite getAllMatches_setMatches.
  rewrite otherMatches_sort. unfold otherMatches at 1.
  rewrite list_filter_filter_l by auto.
  fold (otherMatches k (dbService.getAllMatches ls)).
  rewrite <-otherMatches_sort. unfold dbService.getAllMatches.
  by rewrite sort_byDateDesc_idemp.
Qed.

(** C10, as the code has it.  [updatePlayer] and [deletePlayer] leave
    every other stored player unchanged and in the same relative order.
    [updateMatch] and [deleteMatch] leave every other match unchanged and
    in the same relative order as [list()] returns them; the stored
    array itself is written back in [list()] order, so there the other
    matches stand either as before (nothing was written) or in [list()]
    order. *)
Theorem local_mutation_frame (ls : LocalStorage) :
  (∀ p, otherPlayers (Player.id p) (dbService.getAllPlayers (dbService.updatePlayer p ls))
        = otherPlayers (Player.id p) (dbService.getAllPlayers ls))
  ∧ (∀ k, otherPlayers k (dbService.getAllPlayers (dbService.deletePlayer k ls))
          = otherPlayers k (dbService.getAllPlayers ls))
  ∧ (∀ m, otherMatches (Match.id m) (dbService.getAllMatches (dbService.updateMatch m ls))
          = otherMatches (Match.id m) (dbService.getAllMatches ls))
  ∧ (∀ k, otherMatches k (dbService.getAllMatches (dbService.deleteMatch k ls))
          = otherMatches k (dbService.getAllMatches ls))
  ∧ (∀ m, dbService.updateMatch m ls = ls
          ∨ otherMatches (Match.id m) (storedMatches (dbService.updateMatch m ls))
            = otherMatches (Match.id m) (dbService.getAllMatches ls))
  ∧ (∀ k, storedMatches (dbService.deleteMatch k ls)
          = otherMatches k (dbService.getAllMatches ls)).
Proof.
  split_and!.
  - intros p. apply updatePlayer_others.
  - intros k. apply deletePlayer_others.
  - intros m. apply updateMatch_others.
  - intros k. apply deleteMatch_others.
  - intros m.
    destruct (list_find (λ y, Match.id y = Match.id m) (dbService.getAllMatches ls))
      as [[i x]|] eqn:Hfind.
    + right. by eapply updateMatch_stored_others.
    + left. unfold dbService.updateMatch. by rewrite Hfind.
  - done.
Qed.

(** ** The minute of an event *)

Lemma round53_small n : n < 2 ^ 53 → round53 n = n.
Proof. intros. unfold round53. by rewrite bool_decide_eq_true_2. Qed.

Lemma round53_shift n s :
  2 ^ 53 ≤ n → Z.log2 n - 52 = s → 0 < s →
  ∃ q, round53 n = q * 2 ^ s
       ∧ n `div` 2 ^ s ≤ q ≤ n `div` 2 ^ s + 1
       ∧ (2 * (n `mod` 2 ^ s) < 2 ^ s → q = n `div` 2 ^ s).
Proof.
  intros Hn Hs Hpos. unfold round53.
  rewrite bool_decide_eq_false_2 by lia. rewrite Hs.
  rewrite Z.shiftr_div_pow2 by lia.
  assert (2 ^ s = 2 * 2 ^ (s - 1)) as Hhalf.
  { rewrite <-Z.pow_succ_r by lia. f_equal. lia. }
  repeat case_bool_decide; try destruct (Z.even _);
    rewrite Z.shiftl_mul_pow2 by lia; eexists; (split; [reflexivity|]); lia.
Qed.

Lemma round53_times_90 m :
  0 ≤ m < 2 ^ 53 → 0 ≤ round53 (m * 90) < 90 * 2 ^ 53.
Proof.
  intros Hm. destruct (decide (m * 90 < 2 ^ 53)) as [Hsmall|Hbig].
  { rewrite round53_small by done. lia. }
  assert (0 < m * 90) as Hpos by lia.
  assert (53 ≤ Z.log2 (m * 90)) as Hlo by (apply Z.log2_le_pow2; lia).
  assert (Z.log2 (m * 90) < 60) as Hhi by (apply Z.log2_lt_pow2; lia).
  pose proof (Z.log2_spec _ Hpos) as Hspec.
  assert (∃ s, Z.log2 (m * 90) - 52 = s ∧ 1 ≤ s ≤ 7) as (s & Hs & Hrange)
    by (eexists; split; [done|lia]).
  destruct (round53_shift (m * 90) s) as (q & -> & Hq & Hdown); [lia|done|lia|].
  assert (Z.log2 (m * 90) = s + 52) as Hlog by lia. rewrite Hlog in Hspec.
  assert (s = 1 ∨ s = 2 ∨ s = 3 ∨ s = 4 ∨ s = 5 ∨ s = 6 ∨ s = 7) as Hcases by lia.
  destruct Hcases as [->|[->|[->|[->|[->|[->| ->]]]]]];
    simpl in *; Z.to_euclidean_division_equations; lia.
Qed.

Lemma minuteOf_range r : validDraw r → 1 ≤ minuteOf r ≤ 90.
Proof.
  intros [Hm [He _]]. unfold minuteOf.
  pose proof (round53_times_90 _ Hm) as [Hlo Hhi].
  assert (2 ^ 53 ≤ 2 ^ scale r) as Hpow by (apply Z.pow_le_mono_r; lia).
  assert (0 ≤ round53 (significand r * 90) `div` 2 ^ scale r).
  { apply Z.div_pos; lia. }
  assert (round53 (significand r * 90) `div` 2 ^ scale r < 90).
  { apply Z.div_lt_upper_bound; [lia|]. nia. }
  lia.
Qed.

(** C9. Every event that [addEvent] creates has a minute from 1 to 90:
    for every number [random] that [Math.random()] can return,
    [Math.floor(random * 90) + 1] lies in that range, the rounding of the
    floating-point product included. *)
Theorem newEvent_minute_in_range (activeMatch : Match.t) (type : EventType)
    (side : Side) (playerId : string) (random : Draw) (now now' : Z) :
  validDraw random →
  1 ≤ MatchEvent.minute (App.newEvent activeMatch type side playerId random now now') ≤ 90.
Proof. intros Hvalid. simpl. by apply minuteOf_range. Qed.

(** ** Recording an event *)

Lemma activeMatch_Some st am :
  App.activeMatch st = Some am →
  App.activeMatchId st = Some (Match.id am) ∧ am ∈ App.matches st.
Proof.
  unfold App.activeMatch. destruct (App.activeMatchId st) as [id|]; [|done].
  destruct (list_find _ _) as [[i m]|] eqn:Hfind; [|done].
  intros [= <-]. apply list_find_Some in Hfind as (Hi & Hid & _).
  split; [by rewrite <-Hid|]. by eapply list_elem_of_lookup_2.
Qed.

Lemma updateMatch_stores m ls :
  (∃ x, x ∈ dbService.getAllMatches ls ∧ Match.id x = Match.id m) →
  m ∈ dbService.getAllMatches (dbService.updateMatch m ls).
Proof.
  intros (x & Hx & Hid). unfold dbService.updateMatch.
  destruct (list_find _ _) as [[i y]|] eqn:Hfind.
  - rewrite getAllMatches_setMatches, elem_of_sort.
    apply list_find_Some in Hfind as (Hi & _ & _).
    apply list_elem_of_lookup. exists i.
    apply list_lookup_insert_eq. by eapply lookup_lt_Some.
  - eapply list_find_None, Forall_forall in Hfind; [|exact Hx]. done.
Qed.

(** C5. While there is an active match, recording an event of type [type]
    for side [side] puts exactly one new event in front of the match's
    events and keeps the earlier ones; it adds one to the score of
    [side] when [type] is a goal and leaves it alone otherwise; it leaves
    the other side's score alone; and the whole updated match goes
    through [updateMatch], which stores it in place of the match with
    its identifier. *)
Theorem addEvent_records (type : EventType) (side : Side) (playerId : string)
    (random : Draw) (now now' : Z) (st : App.State) (am : Match.t) :
  App.activeMatch st = Some am →
  ∃ e updated,
    e = App.newEvent am type side playerId random now now'
    ∧ MatchEvent.type e = type ∧ MatchEvent.side e = side
    ∧ MatchEvent.playerId e = playerId
    ∧ Match.events updated = e :: Match.events am
    ∧ score side updated = score side am + (if decide (type = GOAL) then 1 else 0)
    ∧ score (otherSide side) updated = score (otherSide side) am
    ∧ Match.id updated = Match.id am
    ∧ App.storage (App.addEvent type side playerId random now now' st)
      = dbService.updateMatch updated (App.storage st)
    ∧ App.matches (App.addEvent type side playerId random now now' st)
      = App.replaceById (Match.id am) updated (App.matches st)
    ∧ ((∃ x, x ∈ dbService.getAllMatches (App.storage st) ∧ Match.id x = Match.id am) →
       updated ∈ dbService.getAllMatches
                   (App.storage (App.addEvent type side playerId random now now' st))).
Proof.
  intros Ham. eexists _, (App.updatedMatch am type side _).
  split; [reflexivity|]. unfold App.addEvent. rewrite Ham. simpl.
  split_and!; try done.
  - destruct side; simpl; repeat case_bool_decide; case_decide; simpl; try done; lia.
  - destruct side; simpl; repeat case_bool_decide; simpl; try done; lia.
  - intros Hstored. by apply updateMatch_stores.
Qed.

(** ** The narrative generator *)

Lemma generateMatchReport_unconfigured m ps :
  geminiService.run (geminiService.generateMatchReport None m ps)
  = ([], geminiService.Return geminiService.unconfigured).
Proof. done. Qed.

Lemma generateMatchReport_configured client m ps :
  geminiService.run (geminiService.generateMatchReport (Some client) m ps)
  = ([geminiService.buildPrompt m ps],
     geminiService.Return
       match client (geminiService.buildPrompt m ps) with
       | geminiService.Rejects => geminiService.connectionError
       | geminiService.Resolves text =>
           if truthy_opt text then default "" text else geminiService.noAnalysis
       end).
Proof.
  unfold geminiService.run, geminiService.generateMatchReport,
    geminiService.try_catch, mbind, geminiService.Eff_bind,
    geminiService.generateContent, mret, geminiService.Eff_ret.
  simpl. by destruct (client _).
Qed.

Lemma generateMatchReport_returns ai m ps :
  ∃ report,
    (geminiService.run (geminiService.generateMatchReport ai m ps)).2
    = geminiService.Return report.
Proof.
  destruct ai as [client|].
  - rewrite generateMatchReport_configured. by eexists.
  - rewrite generateMatchReport_unconfigured. by eexists.
Qed.

(** C8. [generateMatchReport] completes with a string on every path and
    never throws.  Without a client it returns the fixed placeholder and
    sends nothing.  With a client it sends one prompt; a rejected call,
    and a response without text, each yield a placeholder; a response
    with text yields that text. *)
Theorem generateMatchReport_never_throws (ai : option geminiService.Client)
    (m : Match.t) (ps : list Player.t) :
  (∃ report,
     (geminiService.run (geminiService.generateMatchReport ai m ps)).2
     = geminiService.Return report)
  ∧ (ai = None →
     geminiService.run (geminiService.generateMatchReport ai m ps)
     = ([], geminiService.Return geminiService.unconfigured))
  ∧ (∀ client, ai = Some client →
       (geminiService.run (geminiService.generateMatchReport ai m ps)).1
       = [geminiService.buildPrompt m ps]
       ∧ (client (geminiService.buildPrompt m ps) = geminiService.Rejects →
          (geminiService.run (geminiService.generateMatchReport ai m ps)).2
          = geminiService.Return geminiService.connectionError)
       ∧ (∀ text,
            client (geminiService.buildPrompt m ps) = geminiService.Resolves text →
            (geminiService.run (geminiService.generateMatchReport ai m ps)).2
            = geminiService.Return
                (if truthy_opt text then default "" text else geminiService.noAnalysis))).
Proof.
  split_and!.
  - apply generateMatchReport_returns.
  - intros ->. apply generateMatchReport_unconfigured.
  - intros client ->. rewrite generateMatchReport_configured. split_and!.
    + done.
    + by intros ->.
    + by intros text ->.
Qed.

(** ** The single active match *)

Lemma pretty_N_go_length x s :
  (String.length s ≤ String.length (pretty_N_go x s))%nat.
Proof.
  revert s. induction (N.lt_wf_0 x) as [x _ IH]; intros s.
  destruct (decide (x = 0)%N) as [->|Hx]; [by rewrite pretty_N_go_0|].
  rewrite pretty_N_go_step by lia.
  etrans; [|apply IH; apply N.div_lt; lia]. simpl. lia.
Qed.

Lemma pretty_N_nonempty (x : N) : pretty x ≠ "".
Proof.
  unfold pretty, pretty_N. case_decide as Hx; [done|].
  rewrite pretty_N_go_step by lia. intros Hempty.
  pose proof (pretty_N_go_length (x `div` 10)
                (String (pretty_N_char (x `mod` 10)) "")) as Hlen.
  rewrite Hempty in Hlen. simpl in Hlen. lia.
Qed.

Lemma pretty_Z_nonempty (x : Z) : pretty x ≠ "".
Proof.
  destruct x as [|p|p]; unfold pretty, pretty_Z; [done| |done].
  apply pretty_N_nonempty.
Qed.

Lemma idsIssued_perm c ids ids' :
  ids ≡ₚ ids' → idsIssued c ids → idsIssued c ids'.
Proof.
  intros Hperm (Hc & Hnodup & Hissued). split_and!; [done|by rewrite <-Hperm|].
  intros i Hi. apply Hissued. by rewrite Hperm.
Qed.

Lemma idsIssued_later c c' ids : c ≤ c' → idsIssued c ids → idsIssued c' ids.
Proof.
  intros Hle (Hc & Hnodup & Hissued). split_and!; [lia|done|].
  intros i Hi. destruct (Hissued i Hi) as (n & Hn & ->). exists n. split; [lia|done].
Qed.

Lemma idsIssued_fresh c now ids :
  c < now → idsIssued c ids → idsIssued now (ids ++ [pretty now]).
Proof.
  intros Hlt (Hc & Hnodup & Hissued). split_and!; [lia| |].
  - apply NoDup_app. split_and!; [done| |apply NoDup_singleton].
    intros i Hi Hnow. apply list_elem_of_singleton in Hnow as ->.
    destruct (Hissued _ Hi) as (n & Hn & Heq).
    apply (inj pretty) in Heq. lia.
  - intros i [Hi|Hi%list_elem_of_singleton]%elem_of_app.
    + destruct (Hissued _ Hi) as (n & Hn & ->). exists n. split; [lia|done].
    + exists now. split; [lia|done].
Qed.

Lemma ids_getAllMatches ls :
  map Match.id (dbService.getAllMatches ls) ≡ₚ map Match.id (storedMatches ls).
Proof. unfold dbService.getAllMatches. apply Permutation_map, sort_perm. Qed.

Lemma updateMatch_cases m ls :
  (dbService.updateMatch m ls = ls
   ∧ ∀ x, x ∈ storedMatches ls → Match.id x ≠ Match.id m)
  ∨ (∃ i x, dbService.getAllMatches ls !! i = Some x
            ∧ Match.id x = Match.id m
            ∧ storedMatches (dbService.updateMatch m ls)
              = <[i := m]> (dbService.getAllMatches ls)).
Proof.
  unfold dbService.updateMatch.
  destruct (list_find _ _) as [[i x]|] eqn:Hfind.
  - right. apply list_find_Some in Hfind as (Hi & Hid & _). by exists i, x.
  - left. split; [done|]. intros x Hx.
    eapply list_find_None, Forall_forall in Hfind; [done|].
    by apply elem_of_getAllMatches.
Qed.

Lemma updateMatch_ids m ls :
  map Match.id (storedMatches (dbService.updateMatch m ls))
  ≡ₚ map Match.id (storedMatches ls).
Proof.
  destruct (updateMatch_cases m ls) as [[-> _]|(i & x & Hi & Hid & ->)]; [done|].
  erewrite map_insert_same by done. apply ids_getAllMatches.
Qed.

Lemma updateMatch_elem y m ls :
  y ∈ storedMatches (dbService.updateMatch m ls) → y = m ∨ y ∈ storedMatches ls.
Proof.
  destruct (updateMatch_cases m ls) as [[-> _]|(i & x & Hi & Hid & ->)]; [by right|].
  intros [->|Hy]%elem_of_insert_inv; [by left|].
  right. by apply elem_of_getAllMatches.
Qed.

Lemma updateMatch_finishes fm ls :
  NoDup (map Match.id (storedMatches ls)) →
  Match.isFinished fm = true →
  (∀ x, x ∈ storedMatches ls → Match.isFinished x = false → Match.id x = Match.id fm) →
  ∀ y, y ∈ storedMatches (dbService.updateMatch fm ls) → Match.isFinished y = true.
Proof.
  intros Hnodup Hfin Hall y.
  destruct (updateMatch_cases fm ls) as [[-> Hnone]|(i & x & Hi & Hid & ->)].
  - intros Hy. destruct (Match.isFinished y) eqn:Hy'; [done|].
    destruct (Hnone y Hy). auto.
  - intros (j & Hj)%list_elem_of_lookup.
    destruct (decide (i = j)) as [->|Hne].
    + rewrite list_lookup_insert_eq in Hj by (by eapply lookup_lt_Some). congruence.
    + rewrite list_lookup_insert_ne in Hj by done.
      destruct (Match.isFinished y) eqn:Hy'; [done|]. exfalso. apply Hne.
      assert (Match.id y = Match.id fm) as Hidy.
      { apply Hall; [|done]. eapply elem_of_getAllMatches, list_elem_of_lookup_2, Hj. }
      rewrite <-ids_getAllMatches in Hnodup.
      eapply (NoDup_lookup _ i j (Match.id fm) Hnodup).
      * rewrite list_lookup_fmap, Hi. simpl. by rewrite Hid.
      * rewrite list_lookup_fmap, Hj. simpl. by rewrite Hidy.
Qed.

Lemma unfinished_same_id (l : list Match.t) id :
  NoDup (map Match.id l) →
  (∀ m, m ∈ l → Match.isFinished m = false → Match.id m = id) →
  atMostOneUnfinished l.
Proof.
  unfold atMostOneUnfinished, Lifecycle.unfinished.
  induction l as [|x l IH]; intros Hnodup Hall; simpl; [lia|].
  apply NoDup_cons in Hnodup as [Hx Hnodup].
  rewrite filter_cons. case_decide as Hfin; simpl.
  - assert (filter (λ m, Match.isFinished m = false) l = []) as ->; [|simpl; lia].
    destruct (filter _ l) as [|y ys] eqn:Hys; [done|]. exfalso.
    assert (y ∈ filter (λ m, Match.isFinished m = false) l) as Hy
      by (rewrite Hys; apply list_elem_of_here).
    apply list_elem_of_filter in Hy as [Hyfin Hy]. apply Hx.
    apply list_elem_of_fmap. exists y. split; [|done].
    rewrite (Hall x), (Hall y); auto using list_elem_of_here, list_elem_of_further.
  - apply IH; [done|]. intros m Hm. apply Hall. by apply list_elem_of_further.
Qed.

Lemma lifecycleInv_atMostOne w :
  lifecycleInv w → atMostOneUnfinished (Lifecycle.persistedMatches w).
Proof.
  intros ((_ & Hnodup & _) & Hactive & _).
  destruct (App.activeMatchId (Lifecycle.app w)) as [id|].
  - destruct Hactive as [_ Hall]. by eapply unfinished_same_id.
  - apply (unfinished_same_id _ ""); [done|].
    intros m Hm Hfin. rewrite (Hactive m Hm) in Hfin. done.
Qed.

Lemma toggleDraftSelection_keeps playerId side st :
  App.storage (App.toggleDraftSelection playerId side st) = App.storage st
  ∧ App.activeTab (App.toggleDraftSelection playerId side st) = App.activeTab st
  ∧ App.activeMatchId (App.toggleDraftSelection playerId side st) = App.activeMatchId st.
Proof. unfold App.toggleDraftSelection. destruct side; case_bool_decide; done. Qed.

Lemma lifecycleInv_first now : 0 ≤ now → lifecycleInv (Lifecycle.firstVisit now).
Proof.
  intros Hnow. split_and!; simpl.
  - split_and!; [done|constructor|]. intros i Hi. by apply elem_of_nil in Hi.
  - intros m Hm. by apply elem_of_nil in Hm.
  - done.
  - done.
Qed.

Lemma lifecycleInv_reload w :
  lifecycleInv w →
  lifecycleInv (Lifecycle.mkWorld (App.mount (App.storage (Lifecycle.app w))) None
                  (Lifecycle.clock w)).
Proof.
  intros (Hids & Hactive & _ & _). split_and!; simpl; [done| |done|done].
  destruct (list_find _ _) as [[i m]|] eqn:Hfind.
  - apply list_find_Some in Hfind as (Hi & Hfin & _).
    assert (m ∈ Lifecycle.persistedMatches w) as Hm
      by (eapply elem_of_getAllMatches, list_elem_of_lookup_2, Hi).
    split.
    + destruct Hids as (_ & _ & Hissued).
      destruct (Hissued (Match.id m)) as (n & _ & ->); [|apply pretty_Z_nonempty].
      apply list_elem_of_fmap. by exists m.
    + intros y Hy Hyfin.
      destruct (App.activeMatchId (Lifecycle.app w)) as [id|].
      * destruct Hactive as [_ Hall]. by rewrite (Hall y), (Hall m).
      * rewrite (Hactive m Hm) in Hfin. done.
  - intros m Hm. eapply list_find_None, Forall_forall in Hfind;
      [|by apply elem_of_getAllMatches].
    by destruct (Match.isFinished m).
Qed.

Section lifecycle_steps.
Context (ai : option geminiService.Client).

Lemma lifecycleInv_step w w' :
  lifecycleInv w → Lifecycle.step ai w w' → lifecycleInv w'.
Proof.
  intros Hinv Hstep.
  destruct Hstep as [w|w later Hlater|w tab Hload Hnav|w hn an Htab|w pid side Htab
                    |w now today Hload Htab Hnow|w type side pid random now now' Hnow
                    |w Hgen|w k Hk].
  - by apply lifecycleInv_reload.
  - destruct Hinv as (Hids & Hactive & Hdraft & Hpending).
    split_and!; simpl; [exact (idsIssued_later _ _ _ Hlater Hids)|done..].
  - destruct Hinv as (Hids & Hactive & Hdraft & Hpending).
    split_and!; simpl; [done..| |done].
    intros ->. simpl in Hnav.
    destruct (App.activeMatchId (Lifecycle.app w)) as [id|]; [|done].
    destruct Hactive as [Hid _]. simpl in Hnav. unfold truthy in Hnav.
    by rewrite bool_decide_eq_true_2 in Hnav.
  - done.
  - destruct Hinv as (Hids & Hactive & Hdraft & Hpending).
    destruct (toggleDraftSelection_keeps pid side (Lifecycle.app w)) as (Hs & Ht & Ha).
    unfold lifecycleInv, Lifecycle.persistedMatches. simpl. by rewrite Hs, Ht, Ha.
  - destruct Hinv as (Hids & Hactive & Hdraft & Hpending).
    specialize (Hdraft Htab). rewrite Hdraft in Hactive, Hpending.
    unfold App.startMatch. destruct (_ || _).
    + split_and!; simpl;
        [apply (idsIssued_later (Lifecycle.clock w)); [lia|done]| |done|].
      * by rewrite Hdraft.
      * by rewrite Hdraft.
    + split_and!; simpl.
      * unfold Lifecycle.persistedMatches. simpl.
        rewrite map_app. simpl.
        eapply idsIssued_perm;
          [apply Permutation_app_tail; symmetry; apply ids_getAllMatches|].
        by apply (idsIssued_fresh (Lifecycle.clock w)).
      * split; [apply pretty_Z_nonempty|].
        unfold Lifecycle.persistedMatches. simpl.
        intros m [Hm|Hm%list_elem_of_singleton]%elem_of_app Hfin.
        -- apply elem_of_getAllMatches in Hm. rewrite (Hactive m Hm) in Hfin. done.
        -- by subst m.
      * done.
      * intros k Hk'. by specialize (Hpending k Hk').
  - destruct Hinv as (Hids & Hactive & Hdraft & Hpending).
    unfold App.addEvent.
    destruct (App.activeMatch (Lifecycle.app w)) as [am|] eqn:Ham.
    + apply activeMatch_Some in Ham as [Hid _]. rewrite Hid in Hactive.
      split_and!; simpl; [| |done|done].
      * unfold Lifecycle.persistedMatches. simpl.
        eapply idsIssued_perm; [symmetry; apply updateMatch_ids|].
        exact (idsIssued_later _ _ _ Hnow Hids).
      * rewrite Hid. destruct Hactive as [Hne Hall]. split; [done|].
        unfold Lifecycle.persistedMatches. simpl.
        intros m [->|Hm]%updateMatch_elem Hfin; [done|]. by apply Hall.
    + split_and!; simpl; [exact (idsIssued_later _ _ _ Hnow Hids)|done..].
  - destruct Hinv as (Hids & Hactive & Hdraft & Hpending).
    unfold App.finishMatch_begin.
    destruct (App.activeMatch (Lifecycle.app w)) as [am|] eqn:Ham; simpl.
    + apply activeMatch_Some in Ham as [Hid _].
      split_and!; simpl; [done..|]. by intros k [= <-].
    + split_and!; simpl; done.
  - destruct Hinv as (Hids & Hactive & Hdraft & Hpending).
    specialize (Hpending k Hk). rewrite Hpending in Hactive.
    unfold App.finishMatch_resume.
    destruct (generateMatchReport_returns ai (App.k_activeMatch k) (App.k_players k))
      as [report ->].
    destruct Hactive as [Hne Hall].
    split_and!; simpl; [| |done|done].
    + unfold Lifecycle.persistedMatches. simpl.
      eapply idsIssued_perm; [symmetry; apply updateMatch_ids|done].
    + unfold Lifecycle.persistedMatches. simpl.
      apply updateMatch_finishes; [by destruct Hids as (_ & ? & _)|done|done].
Qed.

Lemma reachable_lifecycleInv w : Lifecycle.reachable ai w → lifecycleInv w.
Proof.
  induction 1 as [now Hnow|w w' _ IH Hstep].
  - by apply lifecycleInv_first.
  - by eapply lifecycleInv_step.
Qed.

End lifecycle_steps.

(** C3. After any sequence of the user's actions on a first visit (the
    page loaded or loaded again, navigation, team selection, starting a
    match, recording events, finishing a match, with or without other
    actions while the narrative is awaited), at most one persisted match
    is unfinished. *)
Theorem single_active_match (ai : option geminiService.Client) (w : Lifecycle.World) :
  Lifecycle.reachable ai w → atMostOneUnfinished (Lifecycle.persistedMatches w).
Proof. intros Hreach. by eapply lifecycleInv_atMostOne, reachable_lifecycleInv. Qed.

(** ** The statistics aggregator, matches variant *)

Section countZ_facts.
Context {A : Type} (P : A → Prop) `{!∀ x, Decision (P x)}.

Lemma countZ_nil : countZ P [] = 0.
Proof. done. Qed.

Lemma countZ_cons x l :
  countZ P (x :: l) = (if decide (P x) then 1 else 0) + countZ P l.
Proof. unfold countZ. rewrite filter_cons. case_decide; simpl; lia. Qed.

Lemma countZ_app l1 l2 : countZ P (l1 ++ l2) = countZ P l1 + countZ P l2.
Proof. unfold countZ. rewrite filter_app, length_app. lia. Qed.

Lemma countZ_none l : (∀ x, x ∈ l → ¬ P x) → countZ P l = 0.
Proof.
  induction l as [|x l IH]; intros Hnone; [done|].
  rewrite countZ_cons, IH by (intros y Hy; apply Hnone; by right).
  case_decide as Hx; [|done]. destruct (Hnone x); [by left|done].
Qed.
End countZ_facts.

Lemma tallyOf_ext ps T T' :
  (∀ p, p ∈ ps → T p = T' p) → tallyOf ps T = tallyOf ps T'.
Proof.
  intros Hext. unfold tallyOf. apply map_ext_in. intros p Hp%list_elem_of_In.
  by rewrite Hext.
Qed.

Lemma dict_update_tallyOf f k ps T :
  dict_update f k (tallyOf ps T)
  = tallyOf ps (λ p, if decide (Player.id p = k) then f (T p) else T p).
Proof.
  unfold dict_update, tallyOf. rewrite map_map. apply map_ext. intros p. simpl.
  by case_decide.
Qed.

Lemma seed_tallyOf ps1 ps2 :
  NoDup (map Player.id (ps1 ++ ps2)) →
  foldl Aggregator.seed (tallyOf ps1 seedTally) ps2 = tallyOf (ps1 ++ ps2) seedTally.
Proof.
  revert ps1. induction ps2 as [|p ps2 IH]; intros ps1 Hnodup; simpl.
  { by rewrite app_nil_r. }
  assert (Aggregator.seed (tallyOf ps1 seedTally) p = tallyOf (ps1 ++ [p]) seedTally) as ->.
  { unfold Aggregator.seed, dict_set.
    destruct (list_find _ _) as [[i kv]|] eqn:Hfind.
    - exfalso. apply list_find_Some in Hfind as (Hi & Hk & _).
      apply list_elem_of_lookup_2, list_elem_of_fmap in Hi as (q & -> & Hq).
      simpl in Hk. rewrite map_app in Hnodup.
      apply NoDup_app in Hnodup as (_ & Hdisj & _).
      apply (Hdisj (Player.id q)).
      + apply list_elem_of_fmap. by exists q.
      + rewrite Hk. simpl. apply list_elem_of_here.
    - unfold tallyOf. by rewrite map_app. }
  rewrite IH; rewrite <-app_assoc; done.
Qed.

Lemma roster_fold ps T pids :
  ∃ T', foldl (λ s pid, dict_update Tally.incMatches pid s) (tallyOf ps T) pids
        = tallyOf ps T'
        ∧ ∀ p, Tally.goals (T' p) = Tally.goals (T p)
               ∧ Tally.assists (T' p) = Tally.assists (T p)
               ∧ Tally.matches (T' p)
                 = Tally.matches (T p) + countZ (λ pid, pid = Player.id p) pids.
Proof.
  revert T. induction pids as [|pid pids IH]; intros T; simpl.
  { exists T. split; [done|]. intros p. rewrite countZ_nil. split_and!; lia. }
  rewrite dict_update_tallyOf.
  destruct (IH (λ p, if decide (Player.id p = pid) then Tally.incMatches (T p) else T p))
    as (T' & -> & HT').
  exists T'. split; [done|]. intros p.
  destruct (HT' p) as (-> & -> & ->). rewrite countZ_cons.
  repeat case_decide; simplify_eq/=; split_and!; lia.
Qed.

Lemma countEvent_tallyOf ps T e :
  ∃ T', Aggregator.countEvent (tallyOf ps T) e = tallyOf ps T'
        ∧ ∀ p, Tally.goals (T' p)
               = Tally.goals (T p) + (if decide (scoredBy (Player.id p) e) then 1 else 0)
               ∧ Tally.assists (T' p)
                 = Tally.assists (T p)
                   + (if decide (assistedBy (Player.id p) e) then 1 else 0)
               ∧ Tally.matches (T' p) = Tally.matches (T p).
Proof.
  unfold Aggregator.countEvent.
  destruct (bool_decide (MatchEvent.type e = GOAL)) eqn:Hgoal; simpl.
  - apply bool_decide_eq_true in Hgoal.
    destruct (truthy_opt (MatchEvent.assistPlayerId e)) eqn:Hassist.
    + assert (∃ a, MatchEvent.assistPlayerId e = Some a ∧ a ≠ "") as (a & Ha & Hne).
      { destruct (MatchEvent.assistPlayerId e) as [a|]; [|done].
        exists a. split; [done|]. by apply bool_decide_eq_true in Hassist. }
      rewrite !dict_update_tallyOf, Ha. simpl.
      eexists; (split; [reflexivity|]); intros p; simpl. tally_cases p e.
    + assert (∀ pid, pid ≠ "" → MatchEvent.assistPlayerId e ≠ Some pid) as Hnone.
      { intros pid Hpid Heq. rewrite Heq in Hassist. simpl in Hassist.
        by apply bool_decide_eq_false in Hassist. }
      rewrite dict_update_tallyOf. eexists; (split; [reflexivity|]); intros p; simpl.
      specialize (Hnone (Player.id p)). tally_cases p e.
  - apply bool_decide_eq_false in Hgoal.
    exists T. split; [done|]. intros p. tally_cases p e.
Qed.

Lemma events_fold ps T es :
  ∃ T', foldl Aggregator.countEvent (tallyOf ps T) es = tallyOf ps T'
        ∧ ∀ p, Tally.goals (T' p)
               = Tally.goals (T p) + countZ (scoredBy (Player.id p)) es
               ∧ Tally.assists (T' p)
                 = Tally.assists (T p) + countZ (assistedBy (Player.id p)) es
               ∧ Tally.matches (T' p) = Tally.matches (T p).
Proof.
  revert T. induction es as [|e es IH]; intros T; simpl.
  { exists T. split; [done|]. intros p. rewrite !countZ_nil. split_and!; lia. }
  destruct (countEvent_tallyOf ps T e) as (T1 & -> & HT1).
  destruct (IH T1) as (T' & -> & HT').
  exists T'. split; [done|]. intros p.
  destruct (HT' p) as (-> & -> & ->). destruct (HT1 p) as (-> & -> & ->).
  rewrite !countZ_cons. split_and!; lia.
Qed.

Lemma matches_fold ps T ms :
  ∃ T', foldl Aggregator.countMatch (tallyOf ps T) ms = tallyOf ps T'
        ∧ ∀ p, Tally.goals (T' p)
               = Tally.goals (T p)
                 + countZ (scoredBy (Player.id p)) (concat (map Match.events ms))
               ∧ Tally.assists (T' p)
                 = Tally.assists (T p)
                   + countZ (assistedBy (Player.id p)) (concat (map Match.events ms))
               ∧ Tally.matches (T' p)
                 = Tally.matches (T p)
                   + countZ (λ pid, pid = Player.id p)
                       (concat (map (λ m, Match.homePlayerIds m ++ Match.awayPlayerIds m) ms)).
Proof.
  revert T. induction ms as [|m ms IH]; intros T; simpl.
  { exists T. split; [done|]. intros p. rewrite !countZ_nil. split_and!; lia. }
  unfold Aggregator.countMatch at 2.
  destruct (roster_fold ps T (Match.homePlayerIds m ++ Match.awayPlayerIds m))
    as (T1 & -> & HT1).
  destruct (events_fold ps T1 (Match.events m)) as (T2 & -> & HT2).
  destruct (IH T2) as (T' & -> & HT').
  exists T'. split; [done|]. intros p.
  destruct (HT' p) as (-> & -> & ->). destruct (HT2 p) as (-> & -> & ->).
  destruct (HT1 p) as (-> & -> & ->).
  rewrite !countZ_app. split_and!; lia.
Qed.

Lemma tallies_tallyOf ps ms :
  NoDup (map Player.id ps) →
  ∃ T, Aggregator.tallies ps ms = tallyOf ps T
       ∧ ∀ p, Aggregator.toStat ps (Player.id p, T p)
              = Stat.mk (Stat.goals (expectedStat ms p)) (Stat.assists (expectedStat ms p))
                  (Stat.matches (expectedStat ms p)) (Player.id p)
                  (snd <$> list_find (λ q, Player.id q = Player.id p) ps).
Proof.
  intros Hnodup. unfold Aggregator.tallies.
  pose proof (seed_tallyOf [] ps Hnodup) as Hseed. simpl in Hseed. rewrite Hseed.
  destruct (matches_fold ps seedTally (filter (λ m, Match.isFinished m = true) ms))
    as (T & -> & HT).
  exists T. split; [done|]. intros p. unfold Aggregator.toStat. simpl.
  destruct (HT p) as (-> & -> & ->). done.
Qed.

Lemma find_own_id ps p :
  NoDup (map Player.id ps) → p ∈ ps →
  snd <$> list_find (λ q, Player.id q = Player.id p) ps = Some p.
Proof.
  intros Hnodup Hp.
  destruct (list_find _ ps) as [[i q]|] eqn:Hfind; simpl.
  - apply list_find_Some in Hfind as (Hi & Hid & _).
    apply list_elem_of_lookup in Hp as [j Hj]. f_equal.
    assert (i = j) as ->; [|congruence].
    eapply (NoDup_lookup _ i j (Player.id p) Hnodup).
    + by rewrite list_lookup_fmap, Hi; simpl; rewrite Hid.
    + by rewrite list_lookup_fmap, Hj.
  - eapply list_find_None, Forall_forall in Hfind; [|done]. done.
Qed.

Lemma filter_complement_perm {A} (P : A → Prop) `{!∀ x, Decision (P x)} (l : list A) :
  filter P l ++ filter (λ x, ¬ P x) l ≡ₚ l.
Proof.
  induction l as [|x l IH]; [done|].
  rewrite !filter_cons. destruct (decide (P x)); simpl.
  - rewrite decide_False by auto. by rewrite IH.
  - rewrite decide_True by done. by rewrite <-Permutation_middle, IH.
Qed.

Lemma entries_perm {V} (d : list (string * V)) : entries d ≡ₚ d.
Proof. unfold entries. rewrite sort_perm. apply filter_complement_perm. Qed.

Lemma stats_perm ps ms :
  NoDup (map Player.id ps) → Aggregator.stats ps ms ≡ₚ map (expectedStat ms) ps.
Proof.
  intros Hnodup. unfold Aggregator.stats.
  destruct (tallies_tallyOf ps ms Hnodup) as (T & -> & HT).
  rewrite sort_perm, entries_perm. unfold tallyOf. rewrite map_map.
  rewrite (map_ext_in _ (expectedStat ms)); [done|].
  intros p Hp%list_elem_of_In. simpl.
  rewrite HT. by rewrite find_own_id.
Qed.

(** C1, as the code has it.  For every player list whose identifiers are
    pairwise distinct and every match list, the aggregator returns
    exactly one record per player.  A player's counters start from the
    baselines (absent treated as zero); for every finished match the
    match count grows by one for each roster entry that names the
    player, and for every goal event of such a match the goal count of
    the acting player and the assist count of the assisting player, when
    one is set, grow by one.  Identifiers that belong to no player change
    nothing, so a player named by no event of a finished match keeps the
    baseline goals and assists. *)
Theorem stats_one_record_per_player (ps : list Player.t) (ms : list Match.t) :
  NoDup (map Player.id ps) →
  length (Aggregator.stats ps ms) = length ps
  ∧ Aggregator.stats ps ms ≡ₚ map (expectedStat ms) ps
  ∧ ∀ p, p ∈ ps → unreferenced (Player.id p) ms →
         ∃ s, s ∈ Aggregator.stats ps ms
              ∧ Stat.player s = Some p
              ∧ Stat.goals s = Aggregator.baseline (Player.initialGoals p)
              ∧ Stat.assists s = Aggregator.baseline (Player.initialAssists p).
Proof.
  intros Hnodup. pose proof (stats_perm ps ms Hnodup) as Hperm. split_and!.
  - by rewrite Hperm, length_map.
  - done.
  - intros p Hp Hunref. exists (expectedStat ms p). split_and!.
    + rewrite Hperm. apply list_elem_of_fmap. by exists p.
    + done.
    + simpl. rewrite countZ_none; [lia|].
      intros e He [_ Hby]. by destruct (Hunref e He).
    + simpl. rewrite countZ_none; [lia|].
      intros e He (_ & _ & Hby). by destruct (Hunref e He).
Qed.

(** ** The order of the leaderboard *)

Lemma mayPrecede_sort_le a b : mayPrecede a b ↔ sort_le PlayersOnly.compare a b.
Proof.
  unfold mayPrecede, sort_le, PlayersOnly.compare.
  destruct (PlayersOnly.bothGoalkeepers a b); lia.
Qed.

Lemma mayPrecede_total a b : ¬ mayPrecede a b → mayPrecede b a.
Proof.
  unfold mayPrecede, PlayersOnly.bothGoalkeepers.
  repeat case_bool_decide; simpl; lia.
Qed.

Lemma stats_ordered_if_transitive ps :
  transitiveOn (map PlayersOnly.toRow ps) → leaderboardOrdered (PlayersOnly.stats ps).
Proof.
  intros Htrans. unfold leaderboardOrdered, PlayersOnly.stats.
  eapply StronglySorted_weaken; [intros x y; apply mayPrecede_sort_le|].
  apply (sort_sorted _ (λ r, r ∈ map PlayersOnly.toRow ps)).
  - intros a b _ _ Hab. apply mayPrecede_sort_le, mayPrecede_total.
    by rewrite mayPrecede_sort_le.
  - intros a b c Ha Hb Hc. rewrite <-!mayPrecede_sort_le.
    unfold transitiveOn in Htrans. rewrite Forall_forall in Htrans.
    specialize (Htrans a Ha). rewrite Forall_forall in Htrans.
    specialize (Htrans b Hb). rewrite Forall_forall in Htrans.
    by apply Htrans.
  - by apply Forall_forall.
Qed.

Lemma transitiveOn_single_key (l : list Row.t) (gk : bool) :
  (∀ r, r ∈ l → bool_decide (Player.position (Row.player r) = GK) = gk) →
  transitiveOn l.
Proof.
  intros Hkey. unfold transitiveOn.
  apply Forall_forall; intros a Ha. apply Forall_forall; intros b Hb.
  apply Forall_forall; intros c Hc.
  unfold mayPrecede, PlayersOnly.bothGoalkeepers.
  rewrite (Hkey a Ha), (Hkey b Hb), (Hkey c Hc). destruct gk; simpl; lia.
Qed.

Lemma stats_goalsDescending ps ms : goalsDescending (Aggregator.stats ps ms).
Proof.
  unfold goalsDescending, Aggregator.stats.
  eapply StronglySorted_weaken; [|apply (sort_sorted _ (λ _, True))].
  - unfold sort_le, Aggregator.byGoalsDesc. intros x y. lia.
  - unfold sort_le, Aggregator.byGoalsDesc. intros; lia.
  - unfold sort_le, Aggregator.byGoalsDesc. intros; lia.
  - by apply Forall_forall.
Qed.

(** C2, as the code has it.  On the players-only leaderboard every entry
    may stand before every later one (more saves between two
    goalkeepers, more goals otherwise) whenever that comparison is
    transitive among the players: in particular when no player is a
    goalkeeper, and when every player is one.  On the matches-variant
    leaderboard goals never increase from an entry to a later one. *)
Theorem leaderboard_order (ps : list Player.t) :
  (transitiveOn (map PlayersOnly.toRow ps) → leaderboardOrdered (PlayersOnly.stats ps))
  ∧ ((∀ p, p ∈ ps → Player.position p ≠ GK) → leaderboardOrdered (PlayersOnly.stats ps))
  ∧ ((∀ p, p ∈ ps → Player.position p = GK) → leaderboardOrdered (PlayersOnly.stats ps))
  ∧ (∀ ms, goalsDescending (Aggregator.stats ps ms)).
Proof.
  split_and!.
  - apply stats_ordered_if_transitive.
  - intros Hnone. apply stats_ordered_if_transitive, (transitiveOn_single_key _ false).
    intros r (p & -> & Hp)%list_elem_of_fmap. simpl.
    apply bool_decide_eq_false. auto.
  - intros Hall. apply stats_ordered_if_transitive, (transitiveOn_single_key _ true).
    intros r (p & -> & Hp)%list_elem_of_fmap. simpl.
    apply bool_decide_eq_true. auto.
  - intros ms. apply stats_goalsDescending.
Qed.

(** ** The properties at the sample data *)

(** C1 fails as stated: two players that share an identifier get one
    record between them. *)
Lemma stats_shared_id_one_record :
  length (Aggregator.stats [Sample.ana; Sample.twin] [])
  ≠ length [Sample.ana; Sample.twin].
Proof. vm_compute. lia. Qed.

Lemma stats_one_record_per_player_witness :
  NoDup (map Player.id [Sample.ana; Sample.beto])
  ∧ length (Aggregator.stats [Sample.ana; Sample.beto] [Sample.derby]) = 2%nat.
Proof.
  assert (NoDup (map Player.id [Sample.ana; Sample.beto])) as Hnodup.
  { apply (bool_decide_unpack _). vm_compute. exact I. }
  split; [exact Hnodup|].
  exact (proj1 (stats_one_record_per_player
                  [Sample.ana; Sample.beto] [Sample.derby] Hnodup)).
Defined.

(** C2 fails as stated: between two goalkeepers and a forward the
    comparisons run in a circle, and the forward ends up behind a
    goalkeeper with fewer goals. *)
Lemma stats_circle_out_of_order :
  ¬ leaderboardOrdered
      (PlayersOnly.stats [Sample.keeper1; Sample.striker; Sample.keeper2]).
Proof.
  intros Hsorted. apply StronglySorted_cons in Hsorted as [Hfirst _].
  rewrite Forall_forall in Hfirst.
  specialize (Hfirst (PlayersOnly.toRow Sample.striker)).
  assert (PlayersOnly.toRow Sample.striker
          ∈ [PlayersOnly.toRow Sample.keeper2; PlayersOnly.toRow Sample.striker]) as Hin
    by (apply list_elem_of_further, list_elem_of_here).
  specialize (Hfirst Hin). vm_compute in Hfirst. by apply Hfirst.
Qed.

(** In an ordered leaderboard a row that may not precede another one
    stands behind it. *)
Lemma behind_in_ordered l a b :
  leaderboardOrdered l → a ∈ l → b ∈ l → ¬ mayPrecede a b →
  ∃ i j, (i < j)%nat ∧ l !! i = Some b ∧ l !! j = Some a.
Proof.
  induction 1 as [|x l Hl IH Hx]; intros Ha Hb Hnot.
  { by apply elem_of_nil in Ha. }
  rewrite Forall_forall in Hx.
  apply elem_of_cons in Ha as [Ha|Ha]; apply elem_of_cons in Hb as [Hb|Hb]; subst.
  - destruct Hnot. unfold mayPrecede. destruct (PlayersOnly.bothGoalkeepers x x); lia.
  - destruct Hnot. auto.
  - apply list_elem_of_lookup in Ha as [j Hj]. exists 0%nat, (S j). split; [lia|done].
  - destruct (IH Ha Hb Hnot) as (i & j & Hij & Hi & Hj).
    exists (S i), (S j). split; [lia|done].
Qed.

(** No arrangement of those three rows meets the claim, whatever the
    sorting algorithm: each of them would have to stand behind the
    next. *)
Lemma circle_has_no_order l :
  l ≡ₚ map PlayersOnly.toRow [Sample.keeper1; Sample.striker; Sample.keeper2] →
  ¬ leaderboardOrdered l.
Proof.
  intros Hperm Hsorted.
  assert (NoDup l) as Hnodup.
  { rewrite Hperm. apply (bool_decide_unpack _). vm_compute. exact I. }
  assert (∀ p, p ∈ [Sample.keeper1; Sample.striker; Sample.keeper2] →
               PlayersOnly.toRow p ∈ l) as Hin.
  { intros p Hp. rewrite Hperm. apply list_elem_of_fmap. by exists p. }
  assert (PlayersOnly.toRow Sample.keeper1 ∈ l) as Hk1
    by (apply Hin; rewrite !elem_of_cons; auto).
  assert (PlayersOnly.toRow Sample.striker ∈ l) as Hf
    by (apply Hin; rewrite !elem_of_cons; auto).
  assert (PlayersOnly.toRow Sample.keeper2 ∈ l) as Hk2
    by (apply Hin; rewrite !elem_of_cons; auto).
  destruct (behind_in_ordered l _ _ Hsorted Hk2 Hk1) as (i1 & j1 & H1 & Hi1 & Hj1);
    [intros Hmay; vm_compute in Hmay; by apply Hmay|].
  destruct (behind_in_ordered l _ _ Hsorted Hk1 Hf) as (i2 & j2 & H2 & Hi2 & Hj2);
    [intros Hmay; vm_compute in Hmay; by apply Hmay|].
  destruct (behind_in_ordered l _ _ Hsorted Hf Hk2) as (i3 & j3 & H3 & Hi3 & Hj3);
    [intros Hmay; vm_compute in Hmay; by apply Hmay|].
  pose proof (NoDup_lookup _ _ _ _ Hnodup Hi1 Hj2).
  pose proof (NoDup_lookup _ _ _ _ Hnodup Hi2 Hj3).
  pose proof (NoDup_lookup _ _ _ _ Hnodup Hi3 Hj1).
  lia.
Qed.

Lemma leaderboard_order_witness :
  transitiveOn (map PlayersOnly.toRow [Sample.ana; Sample.beto])
  ∧ leaderboardOrdered (PlayersOnly.stats [Sample.ana; Sample.beto]).
Proof.
  assert (transitiveOn (map PlayersOnly.toRow [Sample.ana; Sample.beto])) as Htrans.
  { apply (bool_decide_unpack _). vm_compute. exact I. }
  split; [exact Htrans|].
  exact (proj1 (leaderboard_order [Sample.ana; Sample.beto]) Htrans).
Defined.

(** C7 fails as stated: a match entity that carries a new date lands
    where the old one stood, and the second update, which reads the
    array back newest first, moves it. *)
Lemma updateMatch_redated_twice_differs :
  dbService.updateMatch Sample.redated
    (dbService.updateMatch Sample.redated Sample.twoAdded)
  ≠ dbService.updateMatch Sample.redated Sample.twoAdded.
Proof. vm_compute. discriminate. Qed.

Lemma update_twice_same_as_once_witness :
  keepsDate Sample.rescored Sample.twoAdded
  ∧ dbService.updateMatch Sample.rescored
      (dbService.updateMatch Sample.rescored Sample.twoAdded)
    = dbService.updateMatch Sample.rescored Sample.twoAdded.
Proof.
  assert (keepsDate Sample.rescored Sample.twoAdded) as Hdate by reflexivity.
  split; [exact Hdate|].
  exact (proj1 (proj2 (update_twice_same_as_once
                         Sample.ana Sample.rescored Sample.twoAdded)) Hdate).
Defined.

(** C10 fails as stated: after three matches were added, updating the
    second one writes the array back newest first, and the two others
    change places in it. *)
Lemma updateMatch_reorders_stored_others :
  otherMatches "a" (storedMatches (dbService.updateMatch Sample.rescored Sample.threeAdded))
  ≠ otherMatches "a" (storedMatches Sample.threeAdded).
Proof. vm_compute. discriminate. Qed.

Lemma newEvent_minute_in_range_witness :
  validDraw Sample.largestDraw
  ∧ 1 ≤ MatchEvent.minute
          (App.newEvent Sample.derby GOAL home "1" Sample.largestDraw 2000 2000) ≤ 90.
Proof.
  assert (validDraw Sample.largestDraw) as Hvalid by (unfold validDraw; simpl; lia).
  split; [exact Hvalid|].
  exact (newEvent_minute_in_range Sample.derby GOAL home "1" Sample.largestDraw
           2000 2000 Hvalid).
Defined.

Lemma single_active_match_witness :
  Lifecycle.reachable None Sample.visit4
  ∧ atMostOneUnfinished (Lifecycle.persistedMatches Sample.visit4).
Proof.
  assert (Lifecycle.reachable None Sample.visit4) as Hreach.
  { apply (Lifecycle.reachable_step None Sample.visit3).
    - apply (Lifecycle.reachable_step None Sample.visit2).
      + apply (Lifecycle.reachable_step None Sample.visit1).
        * apply (Lifecycle.reachable_step None Sample.visit0).
          -- by apply Lifecycle.reachable_first.
          -- by apply (Lifecycle.step_navigate None Sample.visit0 App.TabDraft).
        * by apply (Lifecycle.step_toggle None Sample.visit1 "1" home).
      + by apply (Lifecycle.step_toggle None Sample.visit2 "2" away).
    - by apply (Lifecycle.step_start None Sample.visit3 1000 1000). }
  split; [exact Hreach|].
  exact (single_active_match None Sample.visit4 Hreach).
Defined.

Lemma addEvent_records_witness :
  App.activeMatch (Lifecycle.app Sample.visit4)
  = Some (App.newMatch 1000 1000 (Lifecycle.app Sample.visit3))
  ∧ ∃ updated,
      Match.events updated
      = [App.newEvent (App.newMatch 1000 1000 (Lifecycle.app Sample.visit3))
           GOAL home "1" Sample.largestDraw 2000 2000]
      ∧ score home updated = 1 ∧ score away updated = 0
      ∧ updated ∈ dbService.getAllMatches
                    (App.storage (App.addEvent GOAL home "1" Sample.largestDraw 2000 2000
                                    (Lifecycle.app Sample.visit4))).
Proof.
  assert (App.activeMatch (Lifecycle.app Sample.visit4)
          = Some (App.newMatch 1000 1000 (Lifecycle.app Sample.visit3))) as Hactive
    by (vm_compute; reflexivity).
  split; [exact Hactive|].
  destruct (addEvent_records GOAL home "1" Sample.largestDraw 2000 2000
              (Lifecycle.app Sample.visit4) _ Hactive)
    as (e & updated & -> & _ & _ & _ & Hevents & Hscore & Hother & _ & _ & _ & Hstored).
  exists updated. split_and!.
  - exact Hevents.
  - rewrite Hscore. reflexivity.
  - exact Hother.
  - apply Hstored. eexists. split; [|reflexivity].
    vm_compute. apply list_elem_of_here.
Defined.

(** * Further properties of the code *)

(** ** The persistence gateway, local backend: how the operations compose *)

Lemma list_find_app_fresh {A} (P : A → Prop) `{!∀ x, Decision (P x)} (l : list A) x :
  (∀ y, y ∈ l → ¬ P y) → P x → list_find P (l ++ [x]) = Some (length l, x).
Proof.
  intros Hnone Hx. apply list_find_Some. split_and!.
  - by rewrite lookup_app_r, Nat.sub_diag by lia.
  - done.
  - intros j y Hj Hlt. rewrite lookup_app_l in Hj by done.
    apply Hnone. by eapply list_elem_of_lookup_2.
Qed.

Lemma insert_app_last {A} (l : list A) x y : <[length l := y]> (l ++ [x]) = l ++ [y].
Proof. rewrite insert_app_r_alt by lia. by rewrite Nat.sub_diag. Qed.

Lemma insert_Permutation {A} (l : list A) i x y :
  l !! i = Some x → <[i := y]> l ≡ₚ y :: delete i l.
Proof.
  revert i. induction l as [|z l IH]; intros [|i] Hi; simplify_eq/=; [done|].
  rewrite (IH i Hi). apply Permutation_swap.
Qed.

(** X1. On the local backend [update(e)] changes nothing at all when no
    stored entity carries the identifier of [e]: the storage is left as
    it was, for players and for matches. *)
Theorem update_absent_changes_nothing (ls : LocalStorage) (p : Player.t) (m : Match.t) :
  (∀ x, x ∈ dbService.getAllPlayers ls → Player.id x ≠ Player.id p) →
  (∀ x, x ∈ dbService.getAllMatches ls → Match.id x ≠ Match.id m) →
  dbService.updatePlayer p ls = ls ∧ dbService.updateMatch m ls = ls.
Proof.
  intros Hp Hm. split.
  - unfold dbService.updatePlayer.
    destruct (list_find _ _) as [[i x]|] eqn:Hfind; [|done].
    apply list_find_Some in Hfind as (Hi & Hid & _).
    destruct (Hp x); [by eapply list_elem_of_lookup_2|done].
  - unfold dbService.updateMatch.
    destruct (list_find _ _) as [[i x]|] eqn:Hfind; [|done].
    apply list_find_Some in Hfind as (Hi & Hid & _).
    destruct (Hm x); [by eapply list_elem_of_lookup_2|done].
Qed.

(** X2. Adding an entity under a fresh identifier and then updating it:
    [list()] holds the updated entity in place of the added one and
    everything that was there before.  For players the list is the old
    one followed by the updated player; for matches it is an arrangement
    of the old ones and the updated match. *)
Theorem add_then_update_replaces (ls : LocalStorage) (p p' : Player.t) (m m' : Match.t) :
  Player.id p' = Player.id p →
  (∀ x, x ∈ dbService.getAllPlayers ls → Player.id x ≠ Player.id p) →
  Match.id m' = Match.id m →
  (∀ x, x ∈ dbService.getAllMatches ls → Match.id x ≠ Match.id m) →
  dbService.getAllPlayers (dbService.updatePlayer p' (dbService.addPlayer p ls))
  = dbService.getAllPlayers ls ++ [p']
  ∧ dbService.getAllMatches (dbService.updateMatch m' (dbService.addMatch m ls))
    ≡ₚ m' :: dbService.getAllMatches ls.
Proof.
  intros Hidp Hp Hidm Hm. split.
  - unfold dbService.updatePlayer, dbService.addPlayer.
    rewrite getAllPlayers_setPlayers.
    rewrite (list_find_app_fresh _ _ p); [| |done].
    + simpl. by rewrite insert_app_last.
    + intros y Hy. rewrite Hidp. by apply Hp.
  - unfold dbService.updateMatch.
    destruct (list_find _ _) as [[i x]|] eqn:Hfind.
    + apply list_find_Some in Hfind as (Hi & Hid & _).
      assert (x = m) as ->.
      { assert (x ∈ storedMatches (dbService.addMatch m ls)) as Hx
          by (eapply elem_of_getAllMatches, list_elem_of_lookup_2, Hi).
        unfold dbService.addMatch, storedMatches in Hx. simpl in Hx.
        apply elem_of_app in Hx as [Hx|Hx%list_elem_of_singleton]; [|done].
        destruct (Hm x Hx). congruence. }
      rewrite getAllMatches_setMatches, sort_perm.
      rewrite (insert_Permutation _ _ _ _ Hi). constructor.
      apply (Permutation_cons_inv (a := m)).
      rewrite <-(delete_Permutation _ _ _ Hi).
      unfold dbService.addMatch. rewrite getAllMatches_setMatches, sort_perm.
      by rewrite <-Permutation_cons_append.
    + exfalso. eapply list_find_None, Forall_forall in Hfind.
      * by apply Hfind.
      * unfold dbService.addMatch. rewrite getAllMatches_setMatches.
        apply elem_of_sort, elem_of_app. right. by apply list_elem_of_singleton.
Qed.

Lemma filter_newestFirst k l :
  StronglySorted (sort_le byDateDesc) l →
  StronglySorted (sort_le byDateDesc) (otherMatches k l).
Proof.
  induction 1 as [|x l Hl IH Hx]; [constructor|].
  unfold otherMatches. rewrite filter_cons. case_decide; [|done].
  constructor; [done|]. apply Forall_forall. intros y [_ Hy]%list_elem_of_filter.
  rewrite Forall_forall in Hx. auto.
Qed.

(** X3. On the local backend [delete(id)] is idempotent on the storage
    itself, for players and for matches, and deleting an identifier that
    no stored entity carries leaves [list()] as it was. *)
Theorem delete_twice_and_absent (ls : LocalStorage) (k : string) :
  dbService.deletePlayer k (dbService.deletePlayer k ls) = dbService.deletePlayer k ls
  ∧ dbService.deleteMatch k (dbService.deleteMatch k ls) = dbService.deleteMatch k ls
  ∧ ((∀ x, x ∈ dbService.getAllPlayers ls → Player.id x ≠ k) →
     dbService.getAllPlayers (dbService.deletePlayer k ls) = dbService.getAllPlayers ls)
  ∧ ((∀ x, x ∈ dbService.getAllMatches ls → Match.id x ≠ k) →
     dbService.getAllMatches (dbService.deleteMatch k ls) = dbService.getAllMatches ls).
Proof.
  assert (∀ l : list Match.t,
    (∀ x, x ∈ l → Match.id x ≠ k) → otherMatches k l = l) as Hkeep.
  { intros l Hl. unfold otherMatches. induction l as [|x l IH]; [done|].
    rewrite filter_cons_True by (apply Hl; left).
    rewrite IH; [done|]. intros y Hy. apply Hl. by right. }
  split_and!.
  - unfold dbService.deletePlayer. rewrite getAllPlayers_setPlayers. simpl.
    by rewrite list_filter_filter_l by auto.
  - unfold dbService.deleteMatch at 1. unfold dbService.getAllMatches at 1.
    unfold dbService.deleteMatch at 1. simpl.
    fold (otherMatches k (dbService.getAllMatches ls)).
    rewrite (sort_sorted_id byDateDesc)
      by apply filter_newestFirst, sort_byDateDesc_sorted.
    unfold otherMatches at 1. rewrite list_filter_filter_l by auto.
    by unfold dbService.deleteMatch.
  - intros Hnone. unfold dbService.deletePlayer. rewrite getAllPlayers_setPlayers.
    induction (dbService.getAllPlayers ls) as [|x l IH]; [done|].
    rewrite filter_cons_True by (apply Hnone; left).
    rewrite IH; [done|]. intros y Hy. apply Hnone. by right.
  - intros Hnone. unfold dbService.deleteMatch. rewrite getAllMatches_setMatches.
    fold (otherMatches k (dbService.getAllMatches ls)).
    rewrite Hkeep by done. unfold dbService.getAllMatches.
    apply sort_byDateDesc_idemp.
Qed.

Lemma sort_append_newest m l :
  StronglySorted (sort_le byDateDesc) l →
  (∀ x, x ∈ l → Match.date x < Match.date m) →
  sort byDateDesc (l ++ [m]) = m :: l.
Proof.
  induction 1 as [|x l Hl IH Hx]; intros Hnew; [done|].
  simpl. rewrite IH by (intros y Hy; apply Hnew; by right). simpl.
  rewrite bool_decide_eq_false_2.
  - f_equal. by apply sort_insert_least.
  - unfold byDateDesc. specialize (Hnew x (list_elem_of_here _ _)). lia.
Qed.

(** X4. A match added with a date later than every stored date comes
    first in [list()], in front of the stored matches in the order
    [list()] gave them before. *)
Theorem addMatch_newest_comes_first (ls : LocalStorage) (m : Match.t) :
  (∀ x, x ∈ dbService.getAllMatches ls → Match.date x < Match.date m) →
  dbService.getAllMatches (dbService.addMatch m ls) = m :: dbService.getAllMatches ls.
Proof.
  intros Hnew. unfold dbService.addMatch. rewrite getAllMatches_setMatches.
  apply sort_append_newest; [apply sort_byDateDesc_sorted|done].
Qed.

(** ** Team selection and the start of a match *)

Lemma NoDup_filter_app {A} (P Q : A → Prop) `{!∀ x, Decision (P x)}
    `{!∀ x, Decision (Q x)} (l1 l2 : list A) :
  NoDup (l1 ++ l2) → NoDup (filter P l1 ++ filter Q l2).
Proof.
  intros (H1 & Hdisj & H2)%NoDup_app. apply NoDup_app. split_and!.
  - by apply NoDup_filter.
  - intros x [_ Hx1]%list_elem_of_filter [_ Hx2]%list_elem_of_filter.
    by apply (Hdisj x).
  - by apply NoDup_filter.
Qed.

Lemma filter_id {A} (P : A → Prop) `{!∀ x, Decision (P x)} (l : list A) :
  (∀ x, x ∈ l → P x) → filter P l = l.
Proof.
  induction l as [|x l IH]; intros Hall; [done|].
  rewrite filter_cons_True by (apply Hall; left).
  rewrite IH; [done|]. intros y Hy. apply Hall. by right.
Qed.

Lemma toggle_NoDup playerId side st :
  NoDup (App.draftHomeIds st ++ App.draftAwayIds st) →
  NoDup (App.draftHomeIds (App.toggleDraftSelection playerId side st)
         ++ App.draftAwayIds (App.toggleDraftSelection playerId side st)).
Proof.
  intros (Hh & Hdisj & Ha)%NoDup_app. unfold App.toggleDraftSelection.
  destruct side; case_bool_decide as Hin; simpl;
    rewrite ?NoDup_app; split_and!;
    first [ by apply NoDup_filter
          | done
          | apply NoDup_singleton
          | intros x;
            rewrite ?elem_of_app, ?list_elem_of_filter, ?list_elem_of_singleton;
            specialize (Hdisj x); intuition congruence ].
Qed.

(** X5. [toggleDraftSelection] keeps the two draft sides apart: if no
    player stands twice in the two rosters taken together, none does
    after the toggle. *)
Theorem toggle_keeps_sides_apart (playerId : string) (side : Side) (st : App.State) :
  NoDup (App.draftHomeIds st ++ App.draftAwayIds st) →
  NoDup (App.draftHomeIds (App.toggleDraftSelection playerId side st)
         ++ App.draftAwayIds (App.toggleDraftSelection playerId side st)).
Proof. apply toggle_NoDup. Qed.

(** X6. What a toggle does, while the sides are apart: the player is on
    the chosen side afterwards exactly if the player was not on it
    before, is not on the other side afterwards, and where every other
    player stands is unchanged. *)
Theorem toggle_flips_membership (playerId : string) (side : Side) (st : App.State) :
  NoDup (App.draftHomeIds st ++ App.draftAwayIds st) →
  (playerId ∈ draftIds side (App.toggleDraftSelection playerId side st)
   ↔ playerId ∉ draftIds side st)
  ∧ (playerId ∉ draftIds (otherSide side) (App.toggleDraftSelection playerId side st))
  ∧ ∀ q s, q ≠ playerId →
           (q ∈ draftIds s (App.toggleDraftSelection playerId side st)
            ↔ q ∈ draftIds s st).
Proof.
  intros (Hh & Hdisj & Ha)%NoDup_app. unfold App.toggleDraftSelection.
  destruct side; case_bool_decide as Hin; simpl; split_and!;
    try (intros q [] Hq; simpl);
    rewrite ?elem_of_app, ?list_elem_of_filter, ?list_elem_of_singleton;
    specialize (Hdisj playerId); intuition congruence.
Qed.

Lemma elem_of_getAllMatches_addMatch m ls :
  m ∈ dbService.getAllMatches (dbService.addMatch m ls).
Proof.
  unfold dbService.addMatch. rewrite getAllMatches_setMatches.
  apply elem_of_sort, elem_of_app. right. by apply list_elem_of_singleton.
Qed.

(** X7. [startMatch] refuses to start while a side is empty and leaves
    the state as it is.  Otherwise the new match, unfinished, at 0 : 0,
    without events and with the drafted rosters, is stored, becomes the
    active match, and the live tab is shown. *)
Theorem startMatch_transition (now today : Z) (st : App.State) :
  (App.draftHomeIds st = [] ∨ App.draftAwayIds st = [] →
   App.startMatch now today st = st)
  ∧ (App.draftHomeIds st ≠ [] → App.draftAwayIds st ≠ [] →
     App.activeMatch (App.startMatch now today st) = Some (App.newMatch now today st)
     ∧ App.activeTab (App.startMatch now today st) = App.TabLive
     ∧ App.newMatch now today st
       ∈ dbService.getAllMatches (App.storage (App.startMatch now today st))
     ∧ Match.isFinished (App.newMatch now today st) = false
     ∧ Match.events (App.newMatch now today st) = []
     ∧ score home (App.newMatch now today st) = 0
     ∧ score away (App.newMatch now today st) = 0
     ∧ Match.homePlayerIds (App.newMatch now today st) = App.draftHomeIds st
     ∧ Match.awayPlayerIds (App.newMatch now today st) = App.draftAwayIds st).
Proof.
  unfold App.startMatch. split.
  - intros [-> | ->]; simpl; [done|]. by rewrite orb_true_r.
  - intros Hh Ha.
    destruct (App.draftHomeIds st) as [|h hs] eqn:Hhome; [done|].
    destruct (App.draftAwayIds st) as [|a as_] eqn:Haway; [done|]. simpl.
    split_and!; try done.
    + unfold App.activeMatch. simpl. by rewrite decide_True.
    + apply elem_of_getAllMatches_addMatch.
Qed.

(** ** Recording events, one press after the other *)

Lemma list_find_replaceById k u l i x :
  list_find (λ m, Match.id m = k) l = Some (i, x) → Match.id u = k →
  list_find (λ m, Match.id m = k) (App.replaceById k u l) = Some (i, u).
Proof.
  intros (Hi & Hx & Hbefore)%list_find_Some Hu. apply list_find_Some.
  unfold App.replaceById. split_and!.
  - rewrite list_lookup_fmap, Hi. simpl. by rewrite decide_True.
  - done.
  - intros j y Hj Hlt. rewrite list_lookup_fmap in Hj.
    destruct (l !! j) as [z|] eqn:Hz; simplify_eq/=.
    specialize (Hbefore j z Hz Hlt). by rewrite decide_False.
Qed.

Lemma activeMatch_replaced st am ls u :
  App.activeMatch st = Some am → Match.id u = Match.id am →
  App.activeMatch
    (App.mkState ls (App.activeTab st) (App.players st)
       (App.replaceById (Match.id am) u (App.matches st)) (App.isLoading st)
       (App.draftHomeName st) (App.draftAwayName st)
       (App.draftHomeIds st) (App.draftAwayIds st)
       (App.activeMatchId st) (App.generatingReport st))
  = Some u.
Proof.
  intros Ham Hu. unfold App.activeMatch in *. simpl.
  destruct (App.activeMatchId st) as [id|]; [|done].
  destruct (list_find _ (App.matches st)) as [[i x]|] eqn:Hfind; simplify_eq/=.
  pose proof Hfind as (_ & <- & _)%list_find_Some.
  by erewrite list_find_replaceById.
Qed.

Lemma addEvent_activeMatch type side playerId random now now' st am :
  App.activeMatch st = Some am →
  App.activeMatch (App.addEvent type side playerId random now now' st)
  = Some (App.updatedMatch am type side
            (App.newEvent am type side playerId random now now')).
Proof.
  intros Ham. unfold App.addEvent. rewrite Ham. by apply activeMatch_replaced.
Qed.

Lemma tapEvent_same_id am am' t : Match.id am' = Match.id am → tapEvent am' t = tapEvent am t.
Proof. intros Hid. unfold tapEvent, App.newEvent. by rewrite Hid. Qed.

(** X8. A run of presses on the live tab.  The active match stays the
    active match; its events are the events the presses created, the
    latest in front, followed by the earlier ones; the "Minuto a Minuto"
    log, which reverses them, lists the events in the order they were
    recorded; and each side's score has grown by the number of its goal
    presses. *)
Theorem tapAll_records (taps : list Tap) (st : App.State) (am : Match.t) :
  App.activeMatch st = Some am →
  ∃ am',
    App.activeMatch (tapAll taps st) = Some am'
    ∧ Match.id am' = Match.id am
    ∧ Match.events am' = reverse (map (tapEvent am) taps) ++ Match.events am
    ∧ AppViews.eventLog am' = AppViews.eventLog am ++ map (tapEvent am) taps
    ∧ ∀ s, score s am' = score s am + countZ (goalFor s) taps.
Proof.
  revert st am. induction taps as [|t taps IH]; intros st am Ham.
  { exists am. split_and!; try done.
    - unfold AppViews.eventLog. by rewrite app_nil_r.
    - intros s. rewrite countZ_nil. lia. }
  pose proof (addEvent_activeMatch (tapType t) (tapSide t) (tapPlayerId t)
                (tapRandom t) (tapNow t) (tapNow' t) st am Ham) as Hstep.
  destruct (IH _ _ Hstep) as (am' & Hactive & Hid & Hevents & _ & Hscore).
  exists am'. simpl in Hid, Hevents.
  assert (Match.events am'
          = reverse (map (tapEvent am) (t :: taps)) ++ Match.events am) as Hev.
  { rewrite Hevents. simpl. rewrite reverse_cons, <-app_assoc. simpl.
    rewrite (map_ext _ (tapEvent am)); [done|].
    intros t'. by apply tapEvent_same_id. }
  split_and!.
  - exact Hactive.
  - exact Hid.
  - exact Hev.
  - unfold AppViews.eventLog. rewrite Hev, reverse_app, reverse_involutive. done.
  - intros s. rewrite Hscore, countZ_cons. clear. unfold goalFor.
    destruct t as [type side playerId random now now']. simpl.
    destruct s, side; simpl;
      repeat case_bool_decide; case_decide; simpl; try lia;
      exfalso; intuition congruence.
Qed.

Lemma tapAll_records_witness :
  ∃ am',
    App.activeMatch
      (tapAll [mkTap GOAL home "1" Sample.largestDraw 2000 2000;
               mkTap ASSIST away "2" Sample.largestDraw 3000 3000]
         (Lifecycle.app Sample.visit4)) = Some am'
    ∧ score home am' = 1 ∧ score away am' = 0.
Proof.
  assert (App.activeMatch (Lifecycle.app Sample.visit4)
          = Some (App.newMatch 1000 1000 (Lifecycle.app Sample.visit3))) as Hactive
    by (vm_compute; reflexivity).
  destruct (tapAll_records
              [mkTap GOAL home "1" Sample.largestDraw 2000 2000;
               mkTap ASSIST away "2" Sample.largestDraw 3000 3000]
              (Lifecycle.app Sample.visit4) _ Hactive)
    as (am' & Ham' & _ & _ & _ & Hscore).
  exists am'. split_and!; [exact Ham'|..].
  - rewrite (Hscore home). reflexivity.
  - rewrite (Hscore away). reflexivity.
Defined.

(** ** Finishing a match, and resuming one *)

Lemma elem_of_replaceById k u l x :
  x ∈ l → Match.id x = k → u ∈ App.replaceById k u l.
Proof.
  intros Hx Hid. unfold App.replaceById. apply list_elem_of_fmap.
  exists x. split; [|done]. by rewrite decide_True.
Qed.

(** X9. [finishMatch], when nothing else happens while the narrative is
    awaited: the active match is marked finished and carries the text
    that [generateMatchReport] returned (the fixed placeholder when no
    client is configured), with its score and events as they were; it
    goes through [updateMatch] and takes the place of the active match
    in the list, so it shows in the history; no match is active
    afterwards, the draft rosters are empty and the matches tab is
    shown. *)
Theorem finishMatch_transition (ai : option geminiService.Client) (st : App.State)
    (am : Match.t) :
  App.activeMatch st = Some am →
  ∃ report,
    (geminiService.run (geminiService.generateMatchReport ai am (App.players st))).2
    = geminiService.Return report
    ∧ (ai = None → report = geminiService.unconfigured)
    ∧ App.storage (App.finishMatch ai st)
      = dbService.updateMatch (App.finishedMatch am report) (App.storage st)
    ∧ App.matches (App.finishMatch ai st)
      = App.replaceById (Match.id am) (App.finishedMatch am report) (App.matches st)
    ∧ App.finishedMatch am report ∈ AppViews.history (App.matches (App.finishMatch ai st))
    ∧ ((∃ x, x ∈ dbService.getAllMatches (App.storage st) ∧ Match.id x = Match.id am) →
       App.finishedMatch am report
       ∈ dbService.getAllMatches (App.storage (App.finishMatch ai st)))
    ∧ Match.events (App.finishedMatch am report) = Match.events am
    ∧ (∀ s, score s (App.finishedMatch am report) = score s am)
    ∧ App.activeMatchId (App.finishMatch ai st) = None
    ∧ App.activeMatch (App.finishMatch ai st) = None
    ∧ App.draftHomeIds (App.finishMatch ai st) = []
    ∧ App.draftAwayIds (App.finishMatch ai st) = []
    ∧ App.generatingReport (App.finishMatch ai st) = false
    ∧ App.activeTab (App.finishMatch ai st) = App.TabMatches.
Proof.
  intros Ham. pose proof (activeMatch_Some _ _ Ham) as [_ Hin].
  destruct (generateMatchReport_returns ai am (App.players st)) as [report Hreport].
  exists report.
  unfold App.finishMatch, App.finishMatch_begin. rewrite Ham.
  unfold App.finishMatch_resume. simpl. rewrite Hreport. simpl.
  split_and!; try done.
  - intros ->. rewrite generateMatchReport_unconfigured in Hreport. by injection Hreport.
  - unfold AppViews.history. apply list_elem_of_filter. split; [done|].
    by eapply elem_of_replaceById.
  - intros Hstored. by apply updateMatch_stores.
Qed.

Lemma finishMatch_transition_witness :
  ∃ report,
    App.storage (App.finishMatch None (Lifecycle.app Sample.visit4))
    = dbService.updateMatch
        (App.finishedMatch (App.newMatch 1000 1000 (Lifecycle.app Sample.visit3)) report)
        (App.storage (Lifecycle.app Sample.visit4))
    ∧ report = geminiService.unconfigured.
Proof.
  assert (App.activeMatch (Lifecycle.app Sample.visit4)
          = Some (App.newMatch 1000 1000 (Lifecycle.app Sample.visit3))) as Hactive
    by (vm_compute; reflexivity).
  destruct (finishMatch_transition None (Lifecycle.app Sample.visit4) _ Hactive)
    as (report & _ & Hnone & Hstorage & _).
  exists report. split; [exact Hstorage|]. by apply Hnone.
Defined.

(** X10. Loading the page over a storage whose match identifiers are
    pairwise distinct: the player and match lists are what the gateway
    lists; if a stored match is unfinished, the first such match in
    [list()] order is the active match again; otherwise no match is
    active. *)
Theorem mount_resumes_unfinished (ls : LocalStorage) :
  NoDup (map Match.id (storedMatches ls)) →
  App.players (App.mount ls) = dbService.getAllPlayers ls
  ∧ App.matches (App.mount ls) = dbService.getAllMatches ls
  ∧ App.isLoading (App.mount ls) = false
  ∧ App.activeMatch (App.mount ls)
    = snd <$> list_find (λ m, Match.isFinished m = false) (dbService.getAllMatches ls).
Proof.
  intros Hnodup. split_and!; try done.
  unfold App.activeMatch, App.mount, App.loadData. simpl.
  destruct (list_find (λ m, Match.isFinished m = false) _) as [[i m]|] eqn:Hfind;
    simpl; [|done].
  apply list_find_Some in Hfind as (Hi & _ & _).
  destruct (list_find (λ x, Match.id x = Match.id m) _) as [[j y]|] eqn:Hfind'; simpl.
  - apply list_find_Some in Hfind' as (Hj & Hid & _). f_equal.
    eapply (NoDup_map_elem_inj Match.id (dbService.getAllMatches ls)); [| | |done].
    + by rewrite ids_getAllMatches.
    + by eapply list_elem_of_lookup_2.
    + by eapply list_elem_of_lookup_2.
  - eapply list_find_None, Forall_forall in Hfind';
      [|by eapply list_elem_of_lookup_2]. done.
Qed.

Lemma mount_resumes_unfinished_witness :
  App.activeMatch (App.mount (App.storage (Lifecycle.app Sample.visit4)))
  = Some (App.newMatch 1000 1000 (Lifecycle.app Sample.visit3)).
Proof.
  assert (NoDup (map Match.id (storedMatches (App.storage (Lifecycle.app Sample.visit4)))))
    as Hnodup.
  { apply (bool_decide_unpack _). vm_compute. exact I. }
  destruct (mount_resumes_unfinished _ Hnodup) as (_ & _ & _ & ->).
  vm_compute. reflexivity.
Defined.

(** ** The statistics aggregator and the views that read it *)

Lemma countZ_perm {A} (P : A → Prop) `{!∀ x, Decision (P x)} (l l' : list A) :
  l ≡ₚ l' → countZ P l = countZ P l'.
Proof. intros Hperm. unfold countZ. by rewrite Hperm. Qed.

Lemma countZ_concat_perm {A B} (P : B → Prop) `{!∀ x, Decision (P x)}
    (f : A → list B) (l l' : list A) :
  l ≡ₚ l' → countZ P (concat (map f l)) = countZ P (concat (map f l')).
Proof.
  induction 1 as [|x l l' _ IH|x y l|l1 l2 l3 _ IH1 _ IH2]; simpl.
  - done.
  - by rewrite !countZ_app, IH.
  - rewrite !countZ_app. lia.
  - by rewrite IH1.
Qed.

Lemma tallies_fields ps ms :
  NoDup (map Player.id ps) →
  ∃ T, Aggregator.tallies ps ms = tallyOf ps T
       ∧ ∀ p, T p = Tally.mk (Stat.goals (expectedStat ms p))
                      (Stat.assists (expectedStat ms p))
                      (Stat.matches (expectedStat ms p)).
Proof.
  intros Hnodup. unfold Aggregator.tallies.
  pose proof (seed_tallyOf [] ps Hnodup) as Hseed. simpl in Hseed. rewrite Hseed.
  destruct (matches_fold ps seedTally (filter (λ m, Match.isFinished m = true) ms))
    as (T & -> & HT).
  exists T. split; [done|]. intros p.
  destruct (HT p) as (Hg & Ha & Hm). destruct (T p) as [g a m]. simpl in *.
  by rewrite Hg, Ha, Hm.
Qed.

Lemma stats_matches_perm ps ms ms' :
  NoDup (map Player.id ps) → ms ≡ₚ ms' →
  Aggregator.stats ps ms = Aggregator.stats ps ms'.
Proof.
  intros Hnodup Hperm. unfold Aggregator.stats.
  destruct (tallies_fields ps ms Hnodup) as (T & -> & HT).
  destruct (tallies_fields ps ms' Hnodup) as (T' & -> & HT').
  rewrite (tallyOf_ext ps T T'); [done|].
  intros p _. rewrite HT, HT'. simpl.
  assert (filter (λ m, Match.isFinished m = true) ms
          ≡ₚ filter (λ m, Match.isFinished m = true) ms') as Hfin by (by rewrite Hperm).
  unfold finishedEvents, finishedRosters.
  by rewrite !(countZ_concat_perm _ _ _ _ Hfin).
Qed.

(** X11. With pairwise distinct player identifiers the leaderboard does
    not depend on the order in which the matches are listed. *)
Theorem stats_ignores_match_order (ps : list Player.t) (ms ms' : list Match.t) :
  NoDup (map Player.id ps) → ms ≡ₚ ms' →
  Aggregator.stats ps ms = Aggregator.stats ps ms'.
Proof. apply stats_matches_perm. Qed.

Lemma sumZ_perm {A} (f : A → Z) (l l' : list A) : l ≡ₚ l' → sumZ f l = sumZ f l'.
Proof.
  induction 1 as [|x l l' _ IH|x y l|l1 l2 l3 _ IH1 _ IH2]; simpl; [done|lia|lia|].
  by rewrite IH1.
Qed.

Lemma totalGoals_sumZ l : AppViews.totalGoals l = sumZ Stat.goals l.
Proof.
  unfold AppViews.totalGoals.
  assert (∀ acc, foldl (λ acc curr, acc + Stat.goals curr) acc l
                 = acc + sumZ Stat.goals l) as Hacc.
  { induction l as [|x l IH]; intros acc; simpl; [lia|]. rewrite IH. lia. }
  rewrite Hacc. lia.
Qed.

Lemma sum_scoredBy_event ps e :
  NoDup (map Player.id ps) →
  sumZ (λ p, if decide (scoredBy (Player.id p) e) then 1 else 0) ps
  = if decide (knownScorer ps e) then 1 else 0.
Proof.
  unfold scoredBy, knownScorer.
  induction ps as [|p ps IH]; intros Hnodup; simpl.
  { case_decide as H; [|done]. destruct H as [_ H]. by apply elem_of_nil in H. }
  apply NoDup_cons in Hnodup as [Hp Hnodup]. rewrite (IH Hnodup).
  destruct (decide (MatchEvent.type e = GOAL)) as [Hgoal|Hgoal].
  - destruct (decide (MatchEvent.playerId e = Player.id p)) as [Heq|Hne].
    + rewrite (decide_True (P := _ ∧ MatchEvent.playerId e = _)) by done.
      rewrite (decide_False (P := _ ∧ _ ∈ map Player.id ps))
        by (rewrite Heq; by intros [_ ?]).
      rewrite decide_True; [done|]. split; [done|]. rewrite Heq. apply list_elem_of_here.
    + rewrite (decide_False (P := _ ∧ MatchEvent.playerId e = _)) by (by intros [_ ?]).
      destruct (decide (MatchEvent.playerId e ∈ map Player.id ps)) as [Hin|Hin].
      * rewrite !decide_True; [done| |done]. split; [done|]. by apply list_elem_of_further.
      * rewrite !decide_False; [done| |by intros [_ ?]].
        intros [_ [?|?]%elem_of_cons]; done.
  - rewrite !decide_False; [done|by intros [? _]..].
Qed.

Lemma sum_scoredBy ps es :
  NoDup (map Player.id ps) →
  sumZ (λ p, countZ (scoredBy (Player.id p)) es) ps = countZ (knownScorer ps) es.
Proof.
  intros Hnodup. induction es as [|e es IH].
  { rewrite countZ_nil. induction ps as [|p ps IHps]; simpl; [done|].
    apply NoDup_cons in Hnodup as [_ Hnodup]. rewrite IHps by done.
    rewrite countZ_nil. lia. }
  rewrite countZ_cons, <-IH, <-(sum_scoredBy_event ps e Hnodup).
  clear. induction ps as [|p ps IHps]; simpl; [done|].
  rewrite countZ_cons, IHps. lia.
Qed.

(** X12. "Goles Totales" on the dashboard, with pairwise distinct player
    identifiers: the sum of the players' baseline goals plus the number
    of goal events of finished matches whose scorer is still among the
    players.  Goals of players who are no longer listed are not
    counted. *)
Theorem totalGoals_counts_known_scorers (ps : list Player.t) (ms : list Match.t) :
  NoDup (map Player.id ps) →
  AppViews.totalGoals (Aggregator.stats ps ms)
  = sumZ (λ p, Aggregator.baseline (Player.initialGoals p)) ps
    + countZ (knownScorer ps) (finishedEvents ms).
Proof.
  intros Hnodup.
  rewrite totalGoals_sumZ, (sumZ_perm _ _ _ (stats_perm ps ms Hnodup)).
  rewrite <-(sum_scoredBy ps _ Hnodup).
  clear. induction ps as [|p ps IH]; simpl; [done|]. rewrite IH. lia.
Qed.

(** X13. The counters on a player's card, with pairwise distinct player
    identifiers: baseline plus what the finished matches add, for
    goals, assists and matches played. *)
Theorem playerStats_of_listed_player (ps : list Player.t) (ms : list Match.t)
    (p : Player.t) :
  NoDup (map Player.id ps) → p ∈ ps →
  AppViews.playerStats (Aggregator.stats ps ms) p
  = Tally.mk (Stat.goals (expectedStat ms p)) (Stat.assists (expectedStat ms p))
      (Stat.matches (expectedStat ms p)).
Proof.
  intros Hnodup Hp. pose proof (stats_perm ps ms Hnodup) as Hperm.
  unfold AppViews.playerStats.
  destruct (list_find _ _) as [[i s]|] eqn:Hfind.
  - apply list_find_Some in Hfind as (Hi & Hid & _).
    apply list_elem_of_lookup_2 in Hi. rewrite Hperm in Hi.
    apply list_elem_of_fmap in Hi as (q & -> & Hq). simpl in Hid.
    by rewrite (NoDup_map_elem_inj Player.id ps q p Hnodup Hq Hp Hid).
  - exfalso. apply list_find_None in Hfind. rewrite Forall_forall in Hfind.
    apply (Hfind (expectedStat ms p)); [|done].
    rewrite Hperm. apply list_elem_of_fmap. by exists p.
Qed.

Lemma N_of_ascii_pretty_N_char d :
  (d < 10)%N → Ascii.N_of_ascii (pretty_N_char d) = (48 + d)%N.
Proof.
  intros Hd.
  assert (d = 0 ∨ d = 1 ∨ d = 2 ∨ d = 3 ∨ d = 4 ∨ d = 5 ∨ d = 6 ∨ d = 7 ∨ d = 8 ∨ d = 9)%N
    as Hcases by lia.
  destruct Hcases as [->|[->|[->|[->|[->|[->|[->|[->|[->| ->]]]]]]]]]; reflexivity.
Qed.

Lemma parseDigits_pretty_N_go x :
  ∀ s acc, ∃ k : N,
    parseDigits acc (pretty_N_go x s) = parseDigits (acc * 10 ^ k + x)%N s.
Proof.
  induction (N.lt_wf_0 x) as [x _ IH]; intros s acc.
  destruct (decide (x = 0)%N) as [->|Hx].
  { exists 0%N. rewrite pretty_N_go_0, N.pow_0_r. f_equal. lia. }
  rewrite pretty_N_go_step by lia.
  assert (x `mod` 10 < 10)%N as Hmod by (apply N.mod_lt; lia).
  pose proof (N.div_mod x 10) as Hdiv.
  assert (x `div` 10 < x)%N as Hlt by (apply N.div_lt; lia).
  set (d := (x `mod` 10)%N) in *. set (q := (x `div` 10)%N) in *.
  destruct (IH q Hlt (String (pretty_N_char d) s) acc) as [k ->].
  exists (k + 1)%N.
  change (parseDigits (acc * 10 ^ k + q) (String (pretty_N_char d) s))
    with (let n := Ascii.N_of_ascii (pretty_N_char d) in
          if bool_decide (48 ≤ n ≤ 57)%N
          then parseDigits ((acc * 10 ^ k + q) * 10 + (n - 48))%N s
          else None).
  rewrite N_of_ascii_pretty_N_char by done. simpl.
  rewrite bool_decide_eq_true_2 by lia. f_equal.
  rewrite N.pow_add_r, N.pow_1_r. lia.
Qed.

(** Reading back the decimal text of a number gives the number. *)
Lemma parseDigits_pretty (n : N) : parseDigits 0 (pretty n) = Some n.
Proof.
  unfold pretty, pretty_N. case_decide as Hn; [by subst|].
  destruct (parseDigits_pretty_N_go n "" 0) as [k ->]. simpl. f_equal; lia.
Qed.

Lemma arrayIndex_pretty (n : N) :
  arrayIndex (pretty n) = if bool_decide (n < 2 ^ 32 - 1)%N then Some n else None.
Proof.
  unfold arrayIndex. rewrite parseDigits_pretty.
  rewrite bool_decide_eq_true_2 by done. simpl. by case_bool_decide.
Qed.

Lemma arrayIndex_clockId id : clockId id → arrayIndex id = None.
Proof.
  intros (n & Hn & ->). destruct n as [|p|p]; [lia| |lia].
  change (pretty (Z.pos p)) with (pretty (N.pos p)).
  rewrite arrayIndex_pretty. rewrite bool_decide_eq_false_2; [done|]. lia.
Qed.

Lemma entries_no_index {V} (d : list (string * V)) :
  (∀ kv, kv ∈ d → arrayIndex kv.1 = None) → entries d = d.
Proof.
  intros Hnone. unfold entries.
  assert (filter (λ kv : string * V, is_Some (arrayIndex kv.1)) d = []) as ->.
  { induction d as [|kv d IH]; [done|].
    rewrite filter_cons_False.
    - apply IH. intros kv' Hkv'. apply Hnone. by right.
    - rewrite (Hnone kv) by left. by intros [? ?]. }
  simpl. apply filter_id. intros kv Hkv. rewrite (Hnone kv Hkv). by intros [? ?].
Qed.

Lemma toStat_tallies ps ms :
  NoDup (map Player.id ps) →
  ∃ T, Aggregator.tallies ps ms = tallyOf ps T
       ∧ map (Aggregator.toStat ps) (tallyOf ps T) = map (expectedStat ms) ps.
Proof.
  intros Hnodup. destruct (tallies_tallyOf ps ms Hnodup) as (T & HT & Hstat).
  exists T. split; [done|]. unfold tallyOf. rewrite map_map.
  apply map_ext_in. intros p Hp%list_elem_of_In. simpl.
  rewrite Hstat. by rewrite find_own_id.
Qed.

Lemma byGoalsDesc_anti a b :
  ¬ sort_le Aggregator.byGoalsDesc a b → sort_le Aggregator.byGoalsDesc b a.
Proof. unfold sort_le, Aggregator.byGoalsDesc. lia. Qed.

Lemma byGoalsDesc_trans a b c :
  sort_le Aggregator.byGoalsDesc a b → sort_le Aggregator.byGoalsDesc b c →
  sort_le Aggregator.byGoalsDesc a c.
Proof. unfold sort_le, Aggregator.byGoalsDesc. lia. Qed.

Lemma StronglySorted_all_related {A} (R : A → A → Prop) (l : list A) :
  (∀ x y, x ∈ l → y ∈ l → R x y) → StronglySorted R l.
Proof.
  induction l as [|x l IH]; intros Hall; constructor.
  - apply IH. intros y z Hy Hz. apply Hall; by right.
  - apply Forall_forall. intros y Hy. apply Hall; [left|by right].
Qed.

(** X14. Ties on the matches-variant leaderboard.  With pairwise distinct
    identifiers of the kind the application issues (the decimal text of
    [Date.now()]), the players with a given number of goals stand on the
    leaderboard in the order of the player list. *)
Theorem stats_ties_keep_list_order (ps : list Player.t) (ms : list Match.t) (g : Z) :
  NoDup (map Player.id ps) →
  (∀ p, p ∈ ps → clockId (Player.id p)) →
  filter (λ s, Stat.goals s = g) (Aggregator.stats ps ms)
  = filter (λ s, Stat.goals s = g) (map (expectedStat ms) ps).
Proof.
  intros Hnodup Hids. unfold Aggregator.stats.
  destruct (toStat_tallies ps ms Hnodup) as (T & -> & Hstat).
  rewrite entries_no_index.
  - rewrite Hstat.
    rewrite (filter_sort _ byGoalsDesc_anti byGoalsDesc_trans).
    apply sort_sorted_id, StronglySorted_all_related.
    intros x y [Hx _]%list_elem_of_filter [Hy _]%list_elem_of_filter.
    unfold sort_le, Aggregator.byGoalsDesc. lia.
  - intros kv (p & -> & Hp)%list_elem_of_fmap. simpl.
    by apply arrayIndex_clockId, Hids.
Qed.

Lemma NoDup_map_filter {A B} (f : A → B) (P : A → Prop) `{!∀ x, Decision (P x)}
    (l : list A) :
  NoDup (map f l) → NoDup (map f (filter P l)).
Proof.
  induction l as [|x l IH]; intros Hnodup; [done|].
  simpl in Hnodup. apply NoDup_cons in Hnodup as [Hx Hnodup].
  rewrite filter_cons. case_decide; [|by apply IH]. simpl.
  apply NoDup_cons. split; [|by apply IH].
  intros (y & Hfy & [_ Hy]%list_elem_of_filter)%list_elem_of_fmap.
  apply Hx. apply list_elem_of_fmap. by exists y.
Qed.



(** X16. The players-only leaderboard has exactly one row per listed
    player, whatever the identifiers are: it is an arrangement of the
    players' rows, and each row's G/A figure is its goals plus its
    assists. *)
Theorem playersOnly_one_row_per_player (ps : list Player.t) :
  PlayersOnly.stats ps ≡ₚ map PlayersOnly.toRow ps
  ∧ length (PlayersOnly.stats ps) = length ps
  ∧ ∀ r, r ∈ PlayersOnly.stats ps → Row.ga r = Row.goals r + Row.assists r.
Proof.
  assert (PlayersOnly.stats ps ≡ₚ map PlayersOnly.toRow ps) as Hperm
    by apply sort_perm.
  split_and!; [done|by rewrite Hperm, length_map|].
  intros r Hr. rewrite Hperm in Hr.
  by apply list_elem_of_fmap in Hr as (p & -> & _).
Qed.

(** X17. The name the narrative uses for an identifier is never empty.
    It is the fallback "Jugador Desconocido" when no listed player
    carries the identifier, in particular for a player who was deleted,
    and the player's name when the identifiers are pairwise distinct and
    the name is not empty. *)
Theorem getName_falls_back (ps : list Player.t) (id : string) :
  geminiService.getName ps id ≠ ""
  ∧ ((∀ p, p ∈ ps → Player.id p ≠ id) →
     geminiService.getName ps id = "Jugador Desconocido")
  ∧ geminiService.getName (filter (λ p, Player.id p ≠ id) ps) id = "Jugador Desconocido"
  ∧ (∀ p, NoDup (map Player.id ps) → p ∈ ps → Player.id p = id → Player.name p ≠ "" →
          geminiService.getName ps id = Player.name p).
Proof.
  assert (∀ l : list Player.t, (∀ p, p ∈ l → Player.id p ≠ id) →
            geminiService.getName l id = "Jugador Desconocido") as Habsent.
  { intros l Hnone. unfold geminiService.getName.
    destruct (list_find _ _) as [[i p]|] eqn:Hfind; [|done].
    apply list_find_Some in Hfind as (Hi & Hid & _).
    destruct (Hnone p); [by eapply list_elem_of_lookup_2|done]. }
  split_and!.
  - unfold geminiService.getName.
    destruct (list_find _ _) as [[i p]|]; [|done].
    unfold truthy. by case_bool_decide.
  - apply Habsent.
  - apply Habsent. by intros p [? _]%list_elem_of_filter.
  - intros p Hnodup Hp <- Hname. unfold geminiService.getName.
    pose proof (find_own_id ps p Hnodup Hp) as Hfind.
    destruct (list_find _ _) as [[i q]|]; simplify_eq/=.
    unfold truthy. by rewrite bool_decide_eq_true_2.
Qed.

(** ** Sessions: what the handlers maintain together *)

Lemma getAllPlayers_updateMatch m ls :
  dbService.getAllPlayers (dbService.updateMatch m ls) = dbService.getAllPlayers ls.
Proof. unfold dbService.updateMatch. by destruct (list_find _ _) as [[??]|]. Qed.

Lemma storedMatches_updatePlayer p ls :
  storedMatches (dbService.updatePlayer p ls) = storedMatches ls.
Proof. unfold dbService.updatePlayer. by destruct (list_find _ _) as [[??]|]. Qed.

Lemma replaceById_unique k u l i x :
  NoDup (map Match.id l) → l !! i = Some x → Match.id x = k →
  App.replaceById k u l = <[i := u]> l.
Proof.
  intros Hnodup Hi Hx. apply list_eq. intros j. unfold App.replaceById.
  rewrite list_lookup_fmap. destruct (decide (i = j)) as [->|Hne].
  - rewrite list_lookup_insert_eq by (by eapply lookup_lt_Some).
    rewrite Hi. simpl. by rewrite decide_True.
  - rewrite list_lookup_insert_ne by done.
    destruct (l !! j) as [y|] eqn:Hj; [|done]. simpl.
    rewrite decide_False; [done|]. intros Hy. apply Hne.
    eapply (NoDup_lookup _ i j k Hnodup).
    + by rewrite list_lookup_fmap, Hi; simpl; rewrite Hx.
    + by rewrite list_lookup_fmap, Hj; simpl; rewrite Hy.
Qed.

Lemma replaceById_absent k u l :
  (∀ x, x ∈ l → Match.id x ≠ k) → App.replaceById k u l = l.
Proof.
  intros Hnone. unfold App.replaceById. rewrite <-(map_id l) at 2.
  apply map_ext_in. intros x Hx%list_elem_of_In.
  rewrite decide_False; [done|]. by apply Hnone.
Qed.

Lemma replaceById_twice k u z l :
  Match.id u = k → App.replaceById k z (App.replaceById k u l) = App.replaceById k z l.
Proof.
  intros Hu. unfold App.replaceById. rewrite map_map. apply map_ext. intros m.
  destruct (decide (Match.id m = k)); [by rewrite decide_True|by rewrite decide_False].
Qed.

Lemma elem_of_replaceById_inv k u l y :
  y ∈ App.replaceById k u l → y = u ∨ y ∈ l.
Proof.
  unfold App.replaceById. intros (x & -> & Hx)%list_elem_of_fmap.
  case_decide; auto.
Qed.

(** With pairwise distinct identifiers what [updateMatch(u)] stores is
    the stored list with [u] in place of the match it identifies. *)
Lemma updateMatch_replaceById u ls :
  NoDup (map Match.id (storedMatches ls)) →
  storedMatches (dbService.updateMatch u ls)
  ≡ₚ App.replaceById (Match.id u) u (storedMatches ls).
Proof.
  intros Hnodup.
  destruct (updateMatch_cases u ls) as [[-> Hnone]|(i & x & Hi & Hid & ->)].
  - by rewrite replaceById_absent.
  - rewrite <-(replaceById_unique (Match.id u) u _ i x); [| |done|done].
    + unfold App.replaceById, dbService.getAllMatches.
      apply Permutation_map, sort_perm.
    + by rewrite ids_getAllMatches.
Qed.

Lemma map_replace_unique (k : string) (u : Player.t) (l : list Player.t) i x :
  NoDup (map Player.id l) → l !! i = Some x → Player.id x = k →
  map (λ p, if decide (Player.id p = k) then u else p) l = <[i := u]> l.
Proof.
  intros Hnodup Hi Hx. apply list_eq. intros j.
  rewrite list_lookup_fmap. destruct (decide (i = j)) as [->|Hne].
  - rewrite list_lookup_insert_eq by (by eapply lookup_lt_Some).
    rewrite Hi. simpl. by rewrite decide_True.
  - rewrite list_lookup_insert_ne by done.
    destruct (l !! j) as [y|] eqn:Hj; [|done]. simpl.
    rewrite decide_False; [done|]. intros Hy. apply Hne.
    eapply (NoDup_lookup _ i j k Hnodup).
    + by rewrite list_lookup_fmap, Hi; simpl; rewrite Hx.
    + by rewrite list_lookup_fmap, Hj; simpl; rewrite Hy.
Qed.

(** [lifecycleInv] looks at the clock, the stored matches, the active
    match, the tab and the waiting [finishMatch] only. *)
Lemma lifecycleInv_frame w w' :
  Lifecycle.persistedMatches w' = Lifecycle.persistedMatches w →
  App.activeMatchId (Lifecycle.app w') = App.activeMatchId (Lifecycle.app w) →
  App.activeTab (Lifecycle.app w') = App.activeTab (Lifecycle.app w) →
  Lifecycle.pending w' = Lifecycle.pending w →
  Lifecycle.clock w ≤ Lifecycle.clock w' →
  lifecycleInv w → lifecycleInv w'.
Proof.
  intros Hm Ha Ht Hp Hc (Hids & Hactive & Hdraft & Hpending).
  unfold lifecycleInv. rewrite Hm, Ha, Ht, Hp.
  split_and!; [by eapply idsIssued_later|done..].
Qed.

Lemma idsIssued_filter c (P : Player.t → Prop) `{!∀ x, Decision (P x)} l :
  idsIssued c (map Player.id l) → idsIssued c (map Player.id (filter P l)).
Proof.
  intros (Hc & Hnodup & Hissued). split_and!; [done|by apply NoDup_map_filter|].
  intros i (p & -> & [_ Hp]%list_elem_of_filter)%list_elem_of_fmap.
  apply Hissued, list_elem_of_fmap. by exists p.
Qed.

Lemma toggleDraftSelection_players playerId side st :
  App.players (App.toggleDraftSelection playerId side st) = App.players st
  ∧ App.matches (App.toggleDraftSelection playerId side st) = App.matches st.
Proof. unfold App.toggleDraftSelection. destruct side; case_bool_decide; done. Qed.

Lemma playersInv_first now : 0 ≤ now → playersInv (Lifecycle.firstVisit now).
Proof.
  intros Hnow. split; [done|]. simpl. split_and!; [done|constructor|].
  intros i Hi. by apply elem_of_nil in Hi.
Qed.

Lemma playersInv_addPlayer w newPlayerName newPlayerPos now :
  Lifecycle.clock w < now → playersInv w →
  playersInv (Lifecycle.mkWorld
                (AppPlayers.handleAddPlayer newPlayerName newPlayerPos now (Lifecycle.app w))
                (Lifecycle.pending w) now).
Proof.
  intros Hnow [Hmem Hids]. unfold playersInv, AppPlayers.handleAddPlayer.
  destruct (AppPlayers.isBlank newPlayerName); simpl.
  - split; [done|]. apply (idsIssued_later (Lifecycle.clock w)); [lia|done].
  - split; [by rewrite Hmem|].
    rewrite map_app. simpl. by apply (idsIssued_fresh (Lifecycle.clock w)).
Qed.

Lemma playersInv_deletePlayer w id confirmed :
  playersInv w →
  playersInv (Lifecycle.mkWorld
                (AppPlayers.deletePlayer id confirmed (Lifecycle.app w))
                (Lifecycle.pending w) (Lifecycle.clock w)).
Proof.
  intros [Hmem Hids]. unfold playersInv, AppPlayers.deletePlayer.
  destruct confirmed; simpl; [|done].
  split; [by rewrite Hmem|by apply idsIssued_filter].
Qed.

Lemma playersInv_saveEdit w editingPlayerId editFormData :
  playersInv w →
  playersInv (Lifecycle.mkWorld
                (AppPlayers.saveEdit editingPlayerId editFormData (Lifecycle.app w))
                (Lifecycle.pending w) (Lifecycle.clock w)).
Proof.
  intros [Hmem Hids]. unfold playersInv, AppPlayers.saveEdit.
  destruct (truthy_opt editingPlayerId); [|done].
  destruct (list_find _ (App.players _)) as [[i orig]|] eqn:Hfind; [|done].
  pose proof Hfind as (Hi & Hid & Hbefore)%list_find_Some.
  assert (list_find (λ p, Player.id p = Player.id (AppPlayers.merge orig editFormData))
            (App.players (Lifecycle.app w)) = Some (i, orig)) as Hfind'.
  { apply list_find_Some. simpl. split_and!; [done|done|].
    intros j y Hj Hlt. rewrite Hid. by eapply Hbefore. }
  assert (map (λ p, if decide (Player.id p = default "" editingPlayerId)
                    then AppPlayers.merge orig editFormData else p)
              (App.players (Lifecycle.app w))
          = <[i := AppPlayers.merge orig editFormData]> (App.players (Lifecycle.app w)))
    as Hmap.
  { apply (map_replace_unique _ _ _ i orig); [by destruct Hids as (_ & ? & _)|done|done]. }
  simpl. rewrite Hmap. split.
  - unfold dbService.updatePlayer. rewrite <-Hmem, Hfind'. done.
  - by erewrite map_insert_same.
Qed.

Lemma wellFormed_newMatch now today st :
  App.draftHomeIds st ≠ [] → App.draftAwayIds st ≠ [] →
  NoDup (App.draftHomeIds st ++ App.draftAwayIds st) →
  wellFormed (App.newMatch now today st).
Proof. intros Hh Ha Hsides. split; [by intros []|done]. Qed.

Lemma wellFormed_updatedMatch am type side e :
  MatchEvent.type e = type → MatchEvent.side e = side →
  wellFormed am → wellFormed (App.updatedMatch am type side e).
Proof.
  intros Ht Hs [Hscore Hroster]. split; [|done].
  intros s. specialize (Hscore s). unfold App.updatedMatch. simpl.
  rewrite countZ_cons. subst type side.
  case_decide as Hg; unfold goalOf in Hg; destruct s; simpl in *;
    repeat case_bool_decide; simpl; try lia; exfalso;
    destruct (MatchEvent.side e); intuition congruence.
Qed.

Lemma wellFormed_finishedMatch am report :
  wellFormed am → wellFormed (App.finishedMatch am report).
Proof.
  intros [Hscore Hroster]. split; [|done].
  intros s. specialize (Hscore s). by destruct s.
Qed.

Lemma agreeExcept_perm id l l' : l ≡ₚ l' → agreeExcept id l l'.
Proof. intros Hperm z. unfold App.replaceById. by apply Permutation_map. Qed.

Lemma matchesInv_first now : matchesInv (Lifecycle.firstVisit now).
Proof.
  split_and!; simpl; [done|done| |constructor].
  intros m Hm. by apply elem_of_nil in Hm.
Qed.

Lemma matchesInv_frame w w' :
  App.matches (Lifecycle.app w') = App.matches (Lifecycle.app w) →
  Lifecycle.persistedMatches w' = Lifecycle.persistedMatches w →
  Lifecycle.pending w' = Lifecycle.pending w →
  App.draftHomeIds (Lifecycle.app w') = App.draftHomeIds (Lifecycle.app w) →
  App.draftAwayIds (Lifecycle.app w') = App.draftAwayIds (Lifecycle.app w) →
  matchesInv w → matchesInv w'.
Proof. intros Hm Hs Hp Hh Ha. unfold matchesInv. by rewrite Hm, Hs, Hp, Hh, Ha. Qed.

Lemma saveEdit_keeps editingPlayerId editFormData st :
  let st' := AppPlayers.saveEdit editingPlayerId editFormData st in
  storedMatches (App.storage st') = storedMatches (App.storage st)
  ∧ App.matches st' = App.matches st
  ∧ App.activeMatchId st' = App.activeMatchId st
  ∧ App.activeTab st' = App.activeTab st
  ∧ App.draftHomeIds st' = App.draftHomeIds st
  ∧ App.draftAwayIds st' = App.draftAwayIds st.
Proof.
  unfold AppPlayers.saveEdit. destruct (truthy_opt editingPlayerId); [|done].
  destruct (list_find _ _) as [[i orig]|]; [|done]. simpl.
  by rewrite storedMatches_updatePlayer.
Qed.

Section session_steps.
Context (ai : option geminiService.Client).

Lemma playersInv_lifecycle_step w w' :
  playersInv w → Lifecycle.step ai w w' → playersInv w'.
Proof.
  intros [Hmem Hids] Hstep.
  destruct Hstep as [w|w later Hlater|w tab Hload Hnav|w hn an Htab|w pid side Htab
                    |w now today Hload Htab Hnow|w type side pid random now now' Hnow
                    |w Hgen|w k Hk]; unfold playersInv; simpl.
  - split; [done|]. by rewrite <-Hmem.
  - split; [done|]. by eapply idsIssued_later.
  - done.
  - done.
  - destruct (toggleDraftSelection_keeps pid side (Lifecycle.app w)) as (-> & _ & _).
    by destruct (toggleDraftSelection_players pid side (Lifecycle.app w)) as [-> _].
  - assert (idsIssued now (map Player.id (App.players (Lifecycle.app w)))) as Hids'
      by (apply (idsIssued_later (Lifecycle.clock w)); [lia|done]).
    unfold App.startMatch. by destruct (_ || _).
  - assert (idsIssued now (map Player.id (App.players (Lifecycle.app w)))) as Hids'
      by (by eapply idsIssued_later).
    unfold App.addEvent. destruct (App.activeMatch _); simpl; [|done].
    by rewrite getAllPlayers_updateMatch.
  - unfold App.finishMatch_begin. by destruct (App.activeMatch _).
  - unfold App.finishMatch_resume.
    destruct (generateMatchReport_returns ai (App.k_activeMatch k) (App.k_players k))
      as [report ->]. simpl.
    by rewrite getAllPlayers_updateMatch.
Qed.

Lemma matchesInv_lifecycle_step w w' :
  lifecycleInv w → matchesInv w → Lifecycle.step ai w w' → matchesInv w'.
Proof.
  intros (Hids & Hactive & Hdraft & Hpending) (Hmem & Hpend & Hwf & Hsides) Hstep.
  destruct Hstep as [w|w later Hlater|w tab Hload Hnav|w hn an Htab|w pid side Htab
                    |w now today Hload Htab Hnow|w type side pid random now now' Hnow
                    |w Hgen|w k Hk].
  - split_and!; simpl; [apply sort_perm|done|done|constructor].
  - by split_and!.
  - by split_and!.
  - by split_and!.
  - destruct (toggleDraftSelection_keeps pid side (Lifecycle.app w)) as (Hs & _ & _).
    destruct (toggleDraftSelection_players pid side (Lifecycle.app w)) as [_ Hm].
    unfold matchesInv, Lifecycle.persistedMatches. simpl. rewrite Hs, Hm.
    split_and!; [done|done|done|by apply toggle_NoDup].
  - specialize (Hdraft Htab).
    unfold App.startMatch. destruct (_ || _) eqn:Hblocked; [by split_and!|].
    apply orb_false_iff in Hblocked as [Hh%bool_decide_eq_false Ha%bool_decide_eq_false].
    split_and!; simpl.
    + unfold Lifecycle.persistedMatches. simpl.
      etrans; [|apply Permutation_cons_append]. constructor.
      rewrite Hmem. symmetry. apply sort_perm.
    + intros k Hk. specialize (Hpending k Hk). congruence.
    + unfold Lifecycle.persistedMatches. simpl.
      intros m [Hm|Hm%list_elem_of_singleton]%elem_of_app.
      * by apply Hwf, elem_of_getAllMatches.
      * subst m. apply wellFormed_newMatch; [|
          |done]; intros Hnil; [apply Hh|apply Ha]; by rewrite Hnil.
    + done.
  - unfold App.addEvent.
    destruct (App.activeMatch (Lifecycle.app w)) as [am|] eqn:Ham; [|by split_and!].
    apply activeMatch_Some in Ham as [Hid Hin].
    assert (wellFormed am) as Hwfam by (apply Hwf; by rewrite <-Hmem).
    set (e := App.newEvent am type side pid random now now').
    set (upd := App.updatedMatch am type side e).
    assert (wellFormed upd) as Hwfupd by (by apply wellFormed_updatedMatch).
    assert (storedMatches (dbService.updateMatch upd (App.storage (Lifecycle.app w)))
            ≡ₚ App.replaceById (Match.id am) upd (Lifecycle.persistedMatches w)) as Hperm.
    { apply (updateMatch_replaceById upd). by destruct Hids as (_ & ? & _). }
    unfold matchesInv, Lifecycle.persistedMatches. simpl.
    split_and!.
    + rewrite Hperm. by apply agreeExcept_perm.
    + intros k Hk. destruct (Hpend k Hk) as [Hagree Hwfk]. split; [|done].
      specialize (Hpending k Hk). rewrite Hid in Hpending. injection Hpending as Heq.
      intros z. etrans; [apply Hagree|]. symmetry.
      etrans; [apply agreeExcept_perm, Hperm|].
      rewrite <-Heq. by rewrite replaceById_twice.
    + intros m Hm. rewrite Hperm in Hm.
      apply elem_of_replaceById_inv in Hm as [->|Hm]; [done|by apply Hwf].
    + done.
  - unfold App.finishMatch_begin.
    destruct (App.activeMatch (Lifecycle.app w)) as [am|] eqn:Ham; [|by split_and!].
    apply activeMatch_Some in Ham as [Hid Hin].
    split_and!; simpl; [done| |done|done].
    intros k [= <-]. simpl. split; [by apply agreeExcept_perm|].
    apply Hwf. by rewrite <-Hmem.
  - destruct (Hpend k Hk) as [Hagree Hwfk].
    unfold App.finishMatch_resume.
    destruct (generateMatchReport_returns ai (App.k_activeMatch k) (App.k_players k))
      as [report ->].
    set (fin := App.finishedMatch (App.k_activeMatch k) report).
    assert (storedMatches (dbService.updateMatch fin (App.storage (Lifecycle.app w)))
            ≡ₚ App.replaceById (Match.id (App.k_activeMatch k)) fin
                 (Lifecycle.persistedMatches w)) as Hperm.
    { apply (updateMatch_replaceById fin). by destruct Hids as (_ & ? & _). }
    unfold matchesInv, Lifecycle.persistedMatches. simpl.
    split_and!.
    + etrans; [apply Hagree|]. by symmetry.
    + done.
    + intros m Hm. rewrite Hperm in Hm.
      apply elem_of_replaceById_inv in Hm as [->|Hm]; [|by apply Hwf].
      by apply wellFormed_finishedMatch.
    + constructor.
Qed.

Lemma sessionInv_step w w' : sessionInv w → Session.step ai w w' → sessionInv w'.
Proof.
  intros (Hlife & Hplayers & Hmatches) Hstep.
  destruct Hstep as [w w' Hstep|w name pos now Hnow|w id confirmed|w eid form].
  - split_and!.
    + by eapply lifecycleInv_step.
    + by eapply playersInv_lifecycle_step.
    + by eapply matchesInv_lifecycle_step.
  - split_and!.
    + apply (lifecycleInv_frame w); simpl; [..|lia|done];
        unfold AppPlayers.handleAddPlayer; by destruct (AppPlayers.isBlank name).
    + by apply playersInv_addPlayer.
    + apply (matchesInv_frame w); simpl; [..|done];
        unfold AppPlayers.handleAddPlayer; by destruct (AppPlayers.isBlank name).
  - split_and!.
    + apply (lifecycleInv_frame w); simpl; [..|lia|done];
        unfold AppPlayers.deletePlayer; by destruct confirmed.
    + by apply playersInv_deletePlayer.
    + apply (matchesInv_frame w); simpl; [..|done];
        unfold AppPlayers.deletePlayer; by destruct confirmed.
  - destruct (saveEdit_keeps eid form (Lifecycle.app w))
      as (Hs & Hm & Ha & Ht & Hdh & Hda).
    split_and!.
    + apply (lifecycleInv_frame w); simpl; [done..|lia|done].
    + by apply playersInv_saveEdit.
    + by apply (matchesInv_frame w).
Qed.

Lemma reachable_sessionInv w : Session.reachable ai w → sessionInv w.
Proof.
  induction 1 as [now Hnow|w w' _ IH Hstep].
  - split_and!; [by apply lifecycleInv_first|by apply playersInv_first
                |apply matchesInv_first].
  - by eapply sessionInv_step.
Qed.

End session_steps.

(** ** What holds in every state of a session *)

Lemma scored_reachable : Session.reachable None SampleSession.scored.
Proof.
  apply (Session.reachable_step None SampleSession.started).
  - apply (Session.reachable_step None SampleSession.bothPicked).
    + apply (Session.reachable_step None SampleSession.homePicked).
      * apply (Session.reachable_step None SampleSession.drafting).
        -- apply (Session.reachable_step None SampleSession.withBeto).
           ++ apply (Session.reachable_step None SampleSession.withAna).
              ** apply (Session.reachable_step None SampleSession.opened).
                 --- by apply Session.reachable_first.
                 --- by apply (Session.step_addPlayer None SampleSession.opened "Ana" FWD 1).
              ** by apply (Session.step_addPlayer None SampleSession.withAna "Beto" GK 2).
           ++ apply Session.step_lifecycle.
              by apply (Lifecycle.step_navigate None SampleSession.withBeto App.TabDraft).
        -- apply Session.step_lifecycle.
           by apply (Lifecycle.step_toggle None SampleSession.drafting "1" home).
      * apply Session.step_lifecycle.
        by apply (Lifecycle.step_toggle None SampleSession.homePicked "2" away).
    + apply Session.step_lifecycle.
      by apply (Lifecycle.step_start None SampleSession.bothPicked 1000 1000).
  - apply Session.step_lifecycle.
    by apply (Lifecycle.step_event None SampleSession.started GOAL home "1"
                Sample.largestDraw 1001 1001).
Defined.

Lemma scored_matches :
  App.matches (Lifecycle.app SampleSession.scored) = [SampleSession.afterGoal].
Proof. vm_compute. reflexivity. Qed.

Lemma scored_activeMatch :
  App.activeMatch (Lifecycle.app SampleSession.scored) = Some SampleSession.afterGoal.
Proof. vm_compute. reflexivity. Qed.

(** X18. In every state of a session (a first visit followed by any of
    the user's actions, player management included) the player list in
    memory is exactly the stored one, and no two players share an
    identifier. *)
Theorem session_players_written_through (ai : option geminiService.Client)
    (w : Lifecycle.World) :
  Session.reachable ai w →
  App.players (Lifecycle.app w) = dbService.getAllPlayers (App.storage (Lifecycle.app w))
  ∧ NoDup (map Player.id (App.players (Lifecycle.app w))).
Proof.
  intros Hreach.
  by destruct (reachable_sessionInv ai w Hreach) as (_ & [Hmem (_ & Hnodup & _)] & _).
Qed.

Lemma session_players_written_through_witness :
  Session.reachable None SampleSession.scored
  ∧ App.players (Lifecycle.app SampleSession.scored)
    = dbService.getAllPlayers (App.storage (Lifecycle.app SampleSession.scored))
  ∧ NoDup (map Player.id (App.players (Lifecycle.app SampleSession.scored))).
Proof.
  split; [exact scored_reachable|].
  exact (session_players_written_through None SampleSession.scored scored_reachable).
Defined.

(** X19. In every state of a session the match list in memory holds
    exactly the stored matches, each once, also while a narrative is
    awaited and after it has arrived; no two matches share an
    identifier. *)
Theorem session_matches_written_through (ai : option geminiService.Client)
    (w : Lifecycle.World) :
  Session.reachable ai w →
  App.matches (Lifecycle.app w) ≡ₚ Lifecycle.persistedMatches w
  ∧ NoDup (map Match.id (App.matches (Lifecycle.app w))).
Proof.
  intros Hreach.
  destruct (reachable_sessionInv ai w Hreach)
    as (((_ & Hnodup & _) & _) & _ & (Hmem & _)).
  split; [done|]. by rewrite Hmem.
Qed.

Lemma session_matches_written_through_witness :
  Session.reachable None SampleSession.scored
  ∧ App.matches (Lifecycle.app SampleSession.scored)
    ≡ₚ Lifecycle.persistedMatches SampleSession.scored
  ∧ NoDup (map Match.id (App.matches (Lifecycle.app SampleSession.scored))).
Proof.
  split; [exact scored_reachable|].
  exact (session_matches_written_through None SampleSession.scored scored_reachable).
Defined.

(** X20. In every state of a session the score of each side of every
    match, in memory and stored, is the number of that side's goal
    events in the match. *)
Theorem session_scores_count_goals (ai : option geminiService.Client)
    (w : Lifecycle.World) (m : Match.t) (s : Side) :
  Session.reachable ai w →
  m ∈ App.matches (Lifecycle.app w) ∨ m ∈ Lifecycle.persistedMatches w →
  score s m = countZ (goalOf s) (Match.events m).
Proof.
  intros Hreach Hm.
  destruct (reachable_sessionInv ai w Hreach) as (_ & _ & (Hmem & _ & Hwf & _)).
  assert (m ∈ Lifecycle.persistedMatches w) as Hm'
    by (destruct Hm as [Hm|Hm]; [by rewrite <-Hmem|done]).
  by destruct (Hwf m Hm') as [Hscore _].
Qed.

Lemma session_scores_count_goals_witness :
  Session.reachable None SampleSession.scored
  ∧ (SampleSession.afterGoal ∈ App.matches (Lifecycle.app SampleSession.scored)
     ∨ SampleSession.afterGoal ∈ Lifecycle.persistedMatches SampleSession.scored)
  ∧ score home SampleSession.afterGoal
    = countZ (goalOf home) (Match.events SampleSession.afterGoal).
Proof.
  assert (SampleSession.afterGoal ∈ App.matches (Lifecycle.app SampleSession.scored)
          ∨ SampleSession.afterGoal ∈ Lifecycle.persistedMatches SampleSession.scored)
    as Hin by (left; rewrite scored_matches; apply list_elem_of_here).
  split_and!; [exact scored_reachable|exact Hin|].
  exact (session_scores_count_goals None SampleSession.scored SampleSession.afterGoal
           home scored_reachable Hin).
Defined.

(** X21. In every state of a session each match, in memory and stored,
    has a player on either side, and nobody stands twice in its rosters:
    not twice on a side, and not on both sides. *)
Theorem session_rosters_sound (ai : option geminiService.Client)
    (w : Lifecycle.World) (m : Match.t) :
  Session.reachable ai w →
  m ∈ App.matches (Lifecycle.app w) ∨ m ∈ Lifecycle.persistedMatches w →
  Match.homePlayerIds m ≠ [] ∧ Match.awayPlayerIds m ≠ []
  ∧ NoDup (Match.homePlayerIds m ++ Match.awayPlayerIds m).
Proof.
  intros Hreach Hm.
  destruct (reachable_sessionInv ai w Hreach) as (_ & _ & (Hmem & _ & Hwf & _)).
  assert (m ∈ Lifecycle.persistedMatches w) as Hm'
    by (destruct Hm as [Hm|Hm]; [by rewrite <-Hmem|done]).
  by destruct (Hwf m Hm') as [_ Hroster].
Qed.

Lemma session_rosters_sound_witness :
  Session.reachable None SampleSession.scored
  ∧ (SampleSession.afterGoal ∈ App.matches (Lifecycle.app SampleSession.scored)
     ∨ SampleSession.afterGoal ∈ Lifecycle.persistedMatches SampleSession.scored)
  ∧ Match.homePlayerIds SampleSession.afterGoal ≠ []
  ∧ Match.awayPlayerIds SampleSession.afterGoal ≠ []
  ∧ NoDup (Match.homePlayerIds SampleSession.afterGoal
           ++ Match.awayPlayerIds SampleSession.afterGoal).
Proof.
  assert (SampleSession.afterGoal ∈ App.matches (Lifecycle.app SampleSession.scored)
          ∨ SampleSession.afterGoal ∈ Lifecycle.persistedMatches SampleSession.scored)
    as Hin by (left; rewrite scored_matches; apply list_elem_of_here).
  split_and!; [exact scored_reachable|exact Hin|..];
    apply (session_rosters_sound None SampleSession.scored SampleSession.afterGoal
             scored_reachable Hin).
Defined.

(** X22. In every state of a session the leaderboard on the screen is
    the one that loading the page again would show, and it has one
    record for each player. *)
Theorem session_leaderboard_survives_reload (ai : option geminiService.Client)
    (w : Lifecycle.World) :
  Session.reachable ai w →
  Aggregator.stats (App.players (App.mount (App.storage (Lifecycle.app w))))
    (App.matches (App.mount (App.storage (Lifecycle.app w))))
  = Aggregator.stats (App.players (Lifecycle.app w)) (App.matches (Lifecycle.app w))
  ∧ length (Aggregator.stats (App.players (Lifecycle.app w)) (App.matches (Lifecycle.app w)))
    = length (App.players (Lifecycle.app w)).
Proof.
  intros Hreach.
  destruct (reachable_sessionInv ai w Hreach)
    as (_ & [Hplayers (_ & Hnodup & _)] & (Hmem & _)).
  split.
  - simpl. rewrite <-Hplayers. apply stats_matches_perm; [done|].
    rewrite Hmem. apply sort_perm.
  - by rewrite (stats_perm _ _ Hnodup), length_map.
Qed.

Lemma session_leaderboard_survives_reload_witness :
  Session.reachable None SampleSession.scored
  ∧ Aggregator.stats
      (App.players (App.mount (App.storage (Lifecycle.app SampleSession.scored))))
      (App.matches (App.mount (App.storage (Lifecycle.app SampleSession.scored))))
    = Aggregator.stats (App.players (Lifecycle.app SampleSession.scored))
        (App.matches (Lifecycle.app SampleSession.scored))
  ∧ length (Aggregator.stats (App.players (Lifecycle.app SampleSession.scored))
              (App.matches (Lifecycle.app SampleSession.scored)))
    = length (App.players (Lifecycle.app SampleSession.scored)).
Proof.
  split; [exact scored_reachable|].
  exact (session_leaderboard_survives_reload None SampleSession.scored scored_reachable).
Defined.

Lemma length_history_unfinished l :
  length l = (length (AppViews.history l) + length (Lifecycle.unfinished l))%nat.
Proof.
  unfold AppViews.history, Lifecycle.unfinished.
  induction l as [|m l IH]; [done|].
  rewrite !filter_cons. destruct (Match.isFinished m); simpl; lia.
Qed.

(** X23. "Partidos Jugados" and the history list in every state of a
    session: at most one match in memory is missing from the history,
    and none is while no match is active. *)
Theorem session_history_misses_at_most_one (ai : option geminiService.Client)
    (w : Lifecycle.World) :
  Session.reachable ai w →
  (length (App.matches (Lifecycle.app w))
   ≤ length (AppViews.history (App.matches (Lifecycle.app w))) + 1)%nat
  ∧ (App.activeMatchId (Lifecycle.app w) = None →
     AppViews.history (App.matches (Lifecycle.app w)) = App.matches (Lifecycle.app w)).
Proof.
  intros Hreach.
  destruct (reachable_sessionInv ai w Hreach) as (Hlife & _ & (Hmem & _)).
  split.
  - pose proof (lifecycleInv_atMostOne w Hlife) as Hone.
    unfold atMostOneUnfinished, Lifecycle.unfinished in Hone. rewrite <-Hmem in Hone.
    rewrite (length_history_unfinished (App.matches (Lifecycle.app w))).
    unfold Lifecycle.unfinished. lia.
  - intros Hnone. destruct Hlife as (_ & Hactive & _). rewrite Hnone in Hactive.
    apply filter_id. intros m Hm. apply Hactive. by rewrite <-Hmem.
Qed.

Lemma session_history_misses_at_most_one_witness :
  Session.reachable None SampleSession.scored
  ∧ (length (App.matches (Lifecycle.app SampleSession.scored))
     ≤ length (AppViews.history (App.matches (Lifecycle.app SampleSession.scored))) + 1)%nat
  ∧ (App.activeMatchId (Lifecycle.app SampleSession.scored) = None →
     AppViews.history (App.matches (Lifecycle.app SampleSession.scored))
     = App.matches (Lifecycle.app SampleSession.scored)).
Proof.
  split; [exact scored_reachable|].
  exact (session_history_misses_at_most_one None SampleSession.scored scored_reachable).
Defined.

(** X24. The live tab in every state of a session: no player gets
    buttons on both sides of the active match. *)
Theorem session_live_sides_disjoint (ai : option geminiService.Client)
    (w : Lifecycle.World) (am : Match.t) (p : Player.t) :
  Session.reachable ai w →
  App.activeMatch (Lifecycle.app w) = Some am →
  p ∈ AppViews.homePlayersList (App.players (Lifecycle.app w)) am →
  p ∉ AppViews.awayPlayersList (App.players (Lifecycle.app w)) am.
Proof.
  intros Hreach Ham [Hh _]%list_elem_of_filter [Ha _]%list_elem_of_filter.
  destruct (reachable_sessionInv ai w Hreach) as (_ & _ & (Hmem & _ & Hwf & _)).
  apply activeMatch_Some in Ham as [_ Hin]. rewrite Hmem in Hin.
  destruct (Hwf am Hin) as [_ (_ & _ & (_ & Hdisj & _)%NoDup_app)].
  by apply (Hdisj (Player.id p)).
Qed.

Lemma session_live_sides_disjoint_witness :
  Session.reachable None SampleSession.scored
  ∧ App.activeMatch (Lifecycle.app SampleSession.scored) = Some SampleSession.afterGoal
  ∧ AppPlayers.newPlayer "Ana" FWD 1
    ∈ AppViews.homePlayersList (App.players (Lifecycle.app SampleSession.scored))
        SampleSession.afterGoal
  ∧ AppPlayers.newPlayer "Ana" FWD 1
    ∉ AppViews.awayPlayersList (App.players (Lifecycle.app SampleSession.scored))
        SampleSession.afterGoal.
Proof.
  assert (AppPlayers.newPlayer "Ana" FWD 1
          ∈ AppViews.homePlayersList (App.players (Lifecycle.app SampleSession.scored))
              SampleSession.afterGoal) as Hin.
  { apply list_elem_of_filter. split; [|apply list_elem_of_here].
    apply list_elem_of_here. }
  split_and!; [exact scored_reachable|exact scored_activeMatch|exact Hin|].
  exact (session_live_sides_disjoint None SampleSession.scored SampleSession.afterGoal
           (AppPlayers.newPlayer "Ana" FWD 1) scored_reachable scored_activeMatch Hin).
Defined.

(** ** The views of the dashboard, and the edit form *)

Lemma StronglySorted_app_related {A} (R : A → A → Prop) (l1 l2 : list A) :
  StronglySorted R (l1 ++ l2) → ∀ x y, x ∈ l1 → y ∈ l2 → R x y.
Proof.
  induction l1 as [|z l1 IH]; simpl; intros Hsorted x y Hx Hy.
  - by apply elem_of_nil in Hx.
  - apply StronglySorted_inv in Hsorted as [Hsorted Hall].
    apply elem_of_cons in Hx as [->|Hx]; [|by apply IH].
    rewrite Forall_forall in Hall. apply Hall. apply elem_of_app. by right.
Qed.

(** X25. The scorers' table of the dashboard shows the first ten records
    of the leaderboard: with pairwise distinct player identifiers it
    has ten rows, or one per player when there are fewer, and no record
    left out has more goals than a record shown. *)
Theorem topTen_shows_top_scorers (ps : list Player.t) (ms : list Match.t) :
  NoDup (map Player.id ps) →
  length (AppViews.topTen (Aggregator.stats ps ms)) = (length ps `min` 10)%nat
  ∧ ∀ shown left, shown ∈ AppViews.topTen (Aggregator.stats ps ms) →
                  left ∈ Aggregator.stats ps ms →
                  left ∉ AppViews.topTen (Aggregator.stats ps ms) →
                  Stat.goals left ≤ Stat.goals shown.
Proof.
  intros Hnodup. unfold AppViews.topTen. split.
  - rewrite length_take, (stats_perm _ _ Hnodup), length_map. lia.
  - intros shown left Hshown Hleft Hout.
    pose proof (stats_goalsDescending ps ms) as Hsorted. unfold goalsDescending in Hsorted.
    rewrite <-(take_drop 10 (Aggregator.stats ps ms)) in Hsorted, Hleft.
    apply elem_of_app in Hleft as [Hleft|Hleft]; [done|].
    by apply (StronglySorted_app_related _ _ _ Hsorted).
Qed.

Lemma topTen_shows_top_scorers_witness :
  NoDup (map Player.id [Sample.ana; Sample.beto])
  ∧ length (AppViews.topTen (Aggregator.stats [Sample.ana; Sample.beto] [Sample.derby]))
    = (length [Sample.ana; Sample.beto] `min` 10)%nat.
Proof.
  assert (NoDup (map Player.id [Sample.ana; Sample.beto])) as Hnodup.
  { apply (bool_decide_unpack _). vm_compute. exact I. }
  split; [exact Hnodup|].
  exact (proj1 (topTen_shows_top_scorers [Sample.ana; Sample.beto] [Sample.derby] Hnodup)).
Defined.

(** X26. Opening the edit form on a player and saving it untouched:
    identifier, name and position stay, every baseline keeps its
    numeric value (an absent one is written as zero), so the aggregator
    seeds the same tallies; and doing it once more changes nothing. *)
Theorem edit_untouched_keeps_baselines (p : Player.t) (s : list (string * Tally.t)) :
  let p' := AppPlayers.merge p (AppPlayers.startEditing p).2 in
  (AppPlayers.startEditing p).1 = Some (Player.id p)
  ∧ Player.id p' = Player.id p
  ∧ Player.name p' = Player.name p
  ∧ Player.position p' = Player.position p
  ∧ Player.initialGoals p' = Some (Aggregator.baseline (Player.initialGoals p))
  ∧ Player.initialAssists p' = Some (Aggregator.baseline (Player.initialAssists p))
  ∧ Player.initialMatches p' = Some (Aggregator.baseline (Player.initialMatches p))
  ∧ Aggregator.seed s p' = Aggregator.seed s p
  ∧ AppPlayers.merge p' (AppPlayers.startEditing p').2 = p'.
Proof. by split_and!. Qed.

(** ** The further properties at the sample data *)

Lemma update_absent_changes_nothing_witness :
  (∀ x, x ∈ dbService.getAllPlayers Sample.twoAdded → Player.id x ≠ Player.id Sample.ana)
  ∧ (∀ x, x ∈ dbService.getAllMatches Sample.twoAdded
          → Match.id x ≠ Match.id (Sample.fixture "z" 20))
  ∧ dbService.updatePlayer Sample.ana Sample.twoAdded = Sample.twoAdded
  ∧ dbService.updateMatch (Sample.fixture "z" 20) Sample.twoAdded = Sample.twoAdded.
Proof.
  assert (∀ x, x ∈ dbService.getAllPlayers Sample.twoAdded
               → Player.id x ≠ Player.id Sample.ana) as Hp.
  { apply Forall_forall, (bool_decide_unpack _). vm_compute. exact I. }
  assert (∀ x, x ∈ dbService.getAllMatches Sample.twoAdded
               → Match.id x ≠ Match.id (Sample.fixture "z" 20)) as Hm.
  { apply Forall_forall, (bool_decide_unpack _). vm_compute. exact I. }
  split_and!; [exact Hp|exact Hm|..];
    apply (update_absent_changes_nothing Sample.twoAdded Sample.ana
             (Sample.fixture "z" 20) Hp Hm).
Defined.

Lemma add_then_update_replaces_witness :
  Player.id Sample.twin = Player.id Sample.ana
  ∧ Match.id (Sample.fixture "z" 30) = Match.id (Sample.fixture "z" 20)
  ∧ dbService.getAllPlayers
      (dbService.updatePlayer Sample.twin (dbService.addPlayer Sample.ana Sample.twoAdded))
    = dbService.getAllPlayers Sample.twoAdded ++ [Sample.twin]
  ∧ dbService.getAllMatches
      (dbService.updateMatch (Sample.fixture "z" 30)
         (dbService.addMatch (Sample.fixture "z" 20) Sample.twoAdded))
    ≡ₚ Sample.fixture "z" 30 :: dbService.getAllMatches Sample.twoAdded.
Proof.
  assert (∀ x, x ∈ dbService.getAllPlayers Sample.twoAdded
               → Player.id x ≠ Player.id Sample.ana) as Hp.
  { apply Forall_forall, (bool_decide_unpack _). vm_compute. exact I. }
  assert (∀ x, x ∈ dbService.getAllMatches Sample.twoAdded
               → Match.id x ≠ Match.id (Sample.fixture "z" 20)) as Hm.
  { apply Forall_forall, (bool_decide_unpack _). vm_compute. exact I. }
  split_and!; [reflexivity|reflexivity|..];
    apply (add_then_update_replaces Sample.twoAdded Sample.ana Sample.twin
             (Sample.fixture "z" 20) (Sample.fixture "z" 30) eq_refl Hp eq_refl Hm).
Defined.

Lemma addMatch_newest_comes_first_witness :
  (∀ x, x ∈ dbService.getAllMatches Sample.twoAdded
        → Match.date x < Match.date (Sample.fixture "c" 15))
  ∧ dbService.getAllMatches (dbService.addMatch (Sample.fixture "c" 15) Sample.twoAdded)
    = Sample.fixture "c" 15 :: dbService.getAllMatches Sample.twoAdded.
Proof.
  assert (∀ x, x ∈ dbService.getAllMatches Sample.twoAdded
               → Match.date x < Match.date (Sample.fixture "c" 15)) as Hlater.
  { apply Forall_forall, (bool_decide_unpack _). vm_compute. exact I. }
  split; [exact Hlater|].
  exact (addMatch_newest_comes_first Sample.twoAdded (Sample.fixture "c" 15) Hlater).
Defined.

Lemma toggle_keeps_sides_apart_witness :
  NoDup (App.draftHomeIds (Lifecycle.app Sample.visit3)
         ++ App.draftAwayIds (Lifecycle.app Sample.visit3))
  ∧ NoDup (App.draftHomeIds (App.toggleDraftSelection "2" home (Lifecycle.app Sample.visit3))
           ++ App.draftAwayIds
                (App.toggleDraftSelection "2" home (Lifecycle.app Sample.visit3))).
Proof.
  assert (NoDup (App.draftHomeIds (Lifecycle.app Sample.visit3)
                 ++ App.draftAwayIds (Lifecycle.app Sample.visit3))) as Hapart.
  { apply (bool_decide_unpack _). vm_compute. exact I. }
  split; [exact Hapart|].
  exact (toggle_keeps_sides_apart "2" home (Lifecycle.app Sample.visit3) Hapart).
Defined.

Lemma toggle_flips_membership_witness :
  NoDup (App.draftHomeIds (Lifecycle.app Sample.visit3)
         ++ App.draftAwayIds (Lifecycle.app Sample.visit3))
  ∧ "2" ∉ draftIds (otherSide home)
            (App.toggleDraftSelection "2" home (Lifecycle.app Sample.visit3)).
Proof.
  assert (NoDup (App.draftHomeIds (Lifecycle.app Sample.visit3)
                 ++ App.draftAwayIds (Lifecycle.app Sample.visit3))) as Hapart.
  { apply (bool_decide_unpack _). vm_compute. exact I. }
  split; [exact Hapart|].
  exact (proj1 (proj2 (toggle_flips_membership "2" home (Lifecycle.app Sample.visit3)
                         Hapart))).
Defined.

Lemma stats_ignores_match_order_witness :
  NoDup (map Player.id [Sample.ana; Sample.beto])
  ∧ [Sample.derby; Sample.fixture "a" 10] ≡ₚ [Sample.fixture "a" 10; Sample.derby]
  ∧ Aggregator.stats [Sample.ana; Sample.beto] [Sample.derby; Sample.fixture "a" 10]
    = Aggregator.stats [Sample.ana; Sample.beto] [Sample.fixture "a" 10; Sample.derby].
Proof.
  assert (NoDup (map Player.id [Sample.ana; Sample.beto])) as Hnodup.
  { apply (bool_decide_unpack _). vm_compute. exact I. }
  split_and!; [exact Hnodup|apply perm_swap|].
  exact (stats_ignores_match_order [Sample.ana; Sample.beto] _ _ Hnodup
           (perm_swap _ _ _)).
Defined.

Lemma totalGoals_counts_known_scorers_witness :
  NoDup (map Player.id [Sample.ana; Sample.beto])
  ∧ AppViews.totalGoals (Aggregator.stats [Sample.ana; Sample.beto] [Sample.derby])
    = sumZ (λ p, Aggregator.baseline (Player.initialGoals p)) [Sample.ana; Sample.beto]
      + countZ (knownScorer [Sample.ana; Sample.beto]) (finishedEvents [Sample.derby]).
Proof.
  assert (NoDup (map Player.id [Sample.ana; Sample.beto])) as Hnodup.
  { apply (bool_decide_unpack _). vm_compute. exact I. }
  split; [exact Hnodup|].
  exact (totalGoals_counts_known_scorers [Sample.ana; Sample.beto] [Sample.derby] Hnodup).
Defined.

Lemma playerStats_of_listed_player_witness :
  NoDup (map Player.id [Sample.ana; Sample.beto])
  ∧ Sample.ana ∈ [Sample.ana; Sample.beto]
  ∧ AppViews.playerStats (Aggregator.stats [Sample.ana; Sample.beto] [Sample.derby])
      Sample.ana
    = Tally.mk (Stat.goals (expectedStat [Sample.derby] Sample.ana))
        (Stat.assists (expectedStat [Sample.derby] Sample.ana))
        (Stat.matches (expectedStat [Sample.derby] Sample.ana)).
Proof.
  assert (NoDup (map Player.id [Sample.ana; Sample.beto])) as Hnodup.
  { apply (bool_decide_unpack _). vm_compute. exact I. }
  split_and!; [exact Hnodup|apply list_elem_of_here|].
  exact (playerStats_of_listed_player [Sample.ana; Sample.beto] [Sample.derby] Sample.ana
           Hnodup (list_elem_of_here _ _)).
Defined.

Lemma stats_ties_keep_list_order_witness :
  NoDup (map Player.id [SampleRoster.first; SampleRoster.second])
  ∧ (∀ p, p ∈ [SampleRoster.first; SampleRoster.second] → clockId (Player.id p))
  ∧ filter (λ s, Stat.goals s = 2)
      (Aggregator.stats [SampleRoster.first; SampleRoster.second] [Sample.derby])
    = filter (λ s, Stat.goals s = 2)
        (map (expectedStat [Sample.derby]) [SampleRoster.first; SampleRoster.second]).
Proof.
  assert (NoDup (map Player.id [SampleRoster.first; SampleRoster.second])) as Hnodup.
  { apply (bool_decide_unpack _). vm_compute. exact I. }
  assert (∀ p, p ∈ [SampleRoster.first; SampleRoster.second] → clockId (Player.id p))
    as Hclock.
  { intros p [->|[->|Hp%elem_of_nil]%elem_of_cons]%elem_of_cons; [| |done].
    - exists 1700000000000. split; [lia|reflexivity].
    - exists 1700000000001. split; [lia|reflexivity]. }
  split_and!; [exact Hnodup|exact Hclock|].
  exact (stats_ties_keep_list_order [SampleRoster.first; SampleRoster.second]
           [Sample.derby] 2 Hnodup Hclock).
Defined.

